(** * Diff Digest: relevance filter, note stream and client reconstruction

    A shallow embedding of the TypeScript sources
    - [src/lib/pr-filters.ts] and its sibling variant (relevance filter),
    - [src/app/api/generate-notes/route.ts] (streaming orchestrator),
    - the client page component (decode loop, [mergeWithOverlap], reducer),
    together with the properties established about them. *)

From Stdlib Require Import ZArith Lia Ascii String.
From stdpp Require Import base option list gmap strings.

Set Default Proof Using "Type".
Set Warnings "-register-all".
Local Open Scope Z_scope.
Local Open Scope list_scope.

(** ** JavaScript strings

    A JavaScript string is a finite sequence of code units.  The model keeps
    one [ascii] per code unit, so its code units are the 256 of Latin-1;
    string literals of the sources are written [lit "..."].  Text handed to
    [TextEncoder] and read back through [TextDecoder] in streaming mode is
    the same text, cut where the transport cuts it: the model passes text
    chunks from the writer to the reader. *)

Abbreviation str := (list ascii).

Definition lit (s : string) : str := list_ascii_of_string s.

(** [s.length] *)
Definition js_length (s : str) : Z := Z.of_nat (length s).

(** Relative index resolution shared by [slice]: a negative index counts
    from the end, and the result is clamped to [0, len]. *)
Definition rel_index (len i : Z) : Z :=
  if i <? 0 then Z.max (len + i) 0 else Z.min i len.

(** [s.slice(start, end)]; [end] omitted is [None]. *)
Definition slice (s : str) (start : Z) (end_ : option Z) : str :=
  let len := js_length s in
  let from := rel_index len start in
  let to := match end_ with None => len | Some e => rel_index len e end in
  take (Z.to_nat (to - from)) (drop (Z.to_nat from) s).

(** Truthiness of a string: non-empty. *)
Definition truthy_str (s : str) : bool :=
  match s with [] => false | _ => true end.

(** [a || b] on strings. *)
Definition or_str (a b : str) : str := if truthy_str a then a else b.


(** ** String helpers used by the relevance filter *)

Definition LF : ascii := ascii_of_nat 10.

(** [s.startsWith(prefix)] *)
Fixpoint startsWith (pfx s : str) : bool :=
  match pfx, s with
  | [], _ => true
  | _ :: _, [] => false
  | p :: pfx', c :: s' => if decide (p = c) then startsWith pfx' s' else false
  end.

(** [hay.includes(needle)] *)
Fixpoint includes (hay needle : str) : bool :=
  startsWith needle hay ||
  match hay with
  | [] => false
  | _ :: hay' => includes hay' needle
  end.

(** [s.split(sep)] for a one-character separator: never empty, the empty
    string splits into one empty line. *)
Fixpoint split_on (sep : ascii) (s : str) : list str :=
  match s with
  | [] => [[]]
  | c :: s' =>
      if decide (c = sep) then [] :: split_on sep s'
      else match split_on sep s' with
           | [] => [[c]]
           | l :: ls => (c :: l) :: ls
           end
  end.

(** White space and line terminators, as [trim] and the [\s] class see
    them, among the code units the model has: TAB, LF, VT, FF, CR, SPACE and
    NO-BREAK SPACE. *)
Definition is_space (c : ascii) : bool :=
  let n := nat_of_ascii c in
  ((9 <=? n) && (n <=? 13) || (n =? 32) || (n =? 160))%nat.

(** [s.trimStart()], [s.trimEnd()], [s.trim()] *)
Fixpoint trimStart (s : str) : str :=
  match s with
  | c :: s' => if is_space c then trimStart s' else s
  | [] => []
  end.

Definition trimEnd (s : str) : str := reverse (trimStart (reverse s)).

Definition trim (s : str) : str := trimEnd (trimStart s).

(** [s.replace(/\s+/g, '')]: every run of white space is deleted. *)
Definition remove_spaces (s : str) : str :=
  filter (λ c, is_space c = false) s.

(** Lower-casing of one code unit: the letters A-Z, and the Latin-1
    capitals U+00C0-U+00DE other than the multiplication sign. *)
Definition lower_char (c : ascii) : ascii :=
  let n := nat_of_ascii c in
  if ((65 <=? n) && (n <=? 90) ||
      (192 <=? n) && (n <=? 222) && negb (n =? 215))%nat
  then ascii_of_nat (n + 32) else c.

(** [s.toLowerCase()] *)
Definition toLowerCase (s : str) : str := map lower_char s.

Definition is_digit (c : ascii) : bool :=
  let n := nat_of_ascii c in ((48 <=? n) && (n <=? 57))%nat.

(** Case-insensitive comparison of one code unit with a pattern letter
    (the [i] flag): only the two ASCII cases of the letter match. *)
Definition char_eq_ci (p c : ascii) : bool :=
  let n := nat_of_ascii c in
  let c' := if ((65 <=? n) && (n <=? 90))%nat then ascii_of_nat (n + 32) else c in
  bool_decide (lower_char p = c').

Fixpoint startsWith_ci (pat s : str) : bool :=
  match pat, s with
  | [], _ => true
  | _ :: _, [] => false
  | p :: pat', c :: s' => char_eq_ci p c && startsWith_ci pat' s'
  end.

(** [\d+] at the head of [s]: the rest after the longest run of digits, if
    the run is not empty. *)
Fixpoint skip_digits (s : str) : str :=
  match s with
  | c :: s' => if is_digit c then skip_digits s' else s
  | [] => []
  end.

Definition digits1 (s : str) : option str :=
  match s with
  | c :: s' => if is_digit c then Some (skip_digits s') else None
  | [] => None
  end.

Definition expect_dot (s : str) : option str :=
  match s with
  | c :: s' => if decide (c = "."%char) then Some s' else None
  | [] => None
  end.

(** [v\d+\.\d+\.\d+] (case-insensitive) matched at the head of [s].  Digits
    and the dot are disjoint, so the greedy runs never backtrack. *)
Definition digits1_dot (s : str) : option str :=
  match digits1 s with
  | Some s' => expect_dot s'
  | None => None
  end.

Definition semver_at (s : str) : bool :=
  match s with
  | c :: s1 =>
      char_eq_ci "v"%char c &&
      match digits1_dot s1 with
      | Some s2 =>
          match digits1_dot s2 with
          | Some s3 => bool_decide (is_Some (digits1 s3))
          | None => false
          end
      | None => false
      end
  | [] => false
  end.

(** A regular expression alternative matches somewhere in the line. *)
Fixpoint matches_somewhere (at_head : str → bool) (s : str) : bool :=
  at_head s ||
  match s with
  | [] => false
  | _ :: s' => matches_somewhere at_head s'
  end.

(** [line.match(/version|v\d+\.\d+\.\d+/i)] is not null. *)
Definition match_version (line : str) : bool :=
  matches_somewhere
    (λ s, startsWith_ci (lit "version") s || semver_at s) line.

(** [line.match(/dependencies|devDependencies|peerDependencies/i)] is not
    null. *)
Definition match_dependencies (line : str) : bool :=
  matches_somewhere
    (λ s, startsWith_ci (lit "dependencies") s ||
          startsWith_ci (lit "devDependencies") s ||
          startsWith_ci (lit "peerDependencies") s) line.

(** ** Relevance filter: data *)

Record DiffItem := {
  id : str;
  description : str;
  diff : str;
  url : str
}.

Record PRFilter := {
  minDiffSize : Z;
  excludePatterns : list str;
  minCodeChanges : Z;
  excludeLabels : list str;
  includeLabels : list str
}.

(** [line.startsWith('+') || line.startsWith('-')] *)
Definition is_changed_line (line : str) : bool :=
  startsWith (lit "+") line || startsWith (lit "-") line.

(** The first test of [isMeaningfulCodeChange], shared by both variants:
    empty after trimming, or starting with a comment marker. *)
Definition blank_or_comment (line : str) : bool :=
  negb (truthy_str (trim line)) ||
  startsWith (lit "//") (trim line) || startsWith (lit "/*") (trim line).

(** The second test: only white space besides the diff marker. *)
Definition whitespace_only_change (line : str) : bool :=
  let strippedLine := remove_spaces line in
  bool_decide (strippedLine = lit "+") || bool_decide (strippedLine = lit "-").

(** [pr.description.toLowerCase().includes(pattern.toLowerCase())] for some
    pattern of the list. *)
Definition description_has (pr : DiffItem) (patterns : list str) : bool :=
  existsb (λ pattern, includes (toLowerCase (description pr)) (toLowerCase pattern))
          patterns.

(** The decision rule of [isRelevantPR], over the counter of the variant. *)
Definition isRelevantPR_with (countMeaningfulChanges : str → Z)
    (pr : DiffItem) (filter : PRFilter) : bool :=
  if description_has pr (excludePatterns filter) then false
  else
    let diffLines := Z.of_nat (length (split_on LF (diff pr))) in
    if diffLines <? minDiffSize filter then false
    else
      let meaningfulChanges := countMeaningfulChanges (diff pr) in
      if meaningfulChanges <? minCodeChanges filter then false
      else if description_has pr (excludeLabels filter) then false
      else if (0 <? Z.of_nat (length (includeLabels filter))) &&
              negb (description_has pr (includeLabels filter)) then false
      else true.

(** ** Relevance filter of [src/lib/pr-filters.ts]: the conservative preset,
    the plain counter, at most five results *)

Module Conservative.

Definition DEFAULT_FILTERS : PRFilter := {|
  minDiffSize := 10;
  minCodeChanges := 3;
  excludePatterns := map lit
    ["docs"; "typos"; "formatting"; "chore"; "style"; "lint";
     "bump"; "update"; "deps"; "dependency"; "version"]%string;
  excludeLabels := map lit
    ["documentation"; "chore"; "style"; "dependencies";
     "maintenance"; "housekeeping"]%string;
  includeLabels := map lit
    ["feature"; "enhancement"; "bugfix"; "fix"; "performance";
     "security"; "refactor"]%string
|}.

Definition isMeaningfulCodeChange (line : str) : bool :=
  if blank_or_comment line then false
  else if whitespace_only_change line then false
  else true.

Definition countMeaningfulChanges (diff : str) : Z :=
  Z.of_nat (length (filter (λ line, isMeaningfulCodeChange line = true)
                      (filter (λ line, is_changed_line line = true)
                         (split_on LF diff)))).

Definition isRelevantPR : DiffItem → PRFilter → bool :=
  isRelevantPR_with countMeaningfulChanges.

Definition filterPRs (prs : list DiffItem) (filter_ : PRFilter) : list DiffItem :=
  take 5 (filter (λ pr, isRelevantPR pr filter_ = true) prs).

End Conservative.

(** ** Relevance filter of the sibling variant: the permissive preset, the
    stricter counter (version and dependency lines skipped), no cap *)

Module Permissive.

Definition DEFAULT_FILTERS : PRFilter := {|
  minDiffSize := 4;
  minCodeChanges := 2;
  excludePatterns := map lit
    ["typos"; "formatting"; "style"; "lint";
     "bump"; "update"; "deps"; "dependency"; "version";
     "chore"; "docs"; "test"; "ci"; "build";
     "minor"; "patch"; "trivial"; "cleanup"]%string;
  excludeLabels := map lit
    ["documentation"; "chore"; "style"; "dependencies";
     "maintenance"; "housekeeping"; "tests"; "ci";
     "build"; "minor"; "patch"; "trivial"]%string;
  includeLabels := map lit
    ["feature"; "enhancement"; "bugfix"; "fix";
     "performance"; "security"; "refactor"; "breaking"; "release"]%string
|}.

Definition isMeaningfulCodeChange (line : str) : bool :=
  if blank_or_comment line then false
  else if whitespace_only_change line then false
  else if match_version line then false
  else if match_dependencies line then false
  else true.

Definition countMeaningfulChanges (diff : str) : Z :=
  Z.of_nat (length (filter (λ line, isMeaningfulCodeChange line = true)
                      (filter (λ line, is_changed_line line = true)
                         (split_on LF diff)))).

Definition isRelevantPR : DiffItem → PRFilter → bool :=
  isRelevantPR_with countMeaningfulChanges.

Definition filterPRs (prs : list DiffItem) (filter_ : PRFilter) : list DiffItem :=
  filter (λ pr, isRelevantPR pr filter_ = true) prs.

End Permissive.

(** ** The largest overlap, as the specification words it *)

(** [k] is an overlap of [prev] and [fragment]: it is bounded by both
    lengths and the last [k] code units of [prev] are the first [k] code
    units of [fragment]. *)
Definition is_overlap (prev fragment : str) (k : nat) : Prop :=
  (k ≤ Nat.min (length prev) (length fragment))%nat ∧
  drop (length prev - k) prev = take k fragment.

(** [k] is the largest overlap. *)
Definition largest_overlap (prev fragment : str) (k : nat) : Prop :=
  is_overlap prev fragment k ∧
  ∀ j, is_overlap prev fragment j → (j ≤ k)%nat.

(** The largest overlap computed by descending search from [n]. *)
Fixpoint find_overlap (prev fragment : str) (n : nat) : nat :=
  match n with
  | O => O
  | S n' =>
      if decide (drop (length prev - n) prev = take n fragment) then n
      else find_overlap prev fragment n'
  end.

Definition max_overlap (prev fragment : str) : nat :=
  find_overlap prev fragment (Nat.min (length prev) (length fragment)).

(** ** Which lines the counters count, as the specification words it *)

(** A changed line that is not a pure white-space change. *)
Definition counted_plain (line : str) : bool :=
  is_changed_line line && negb (whitespace_only_change line).

(** The stricter variant also leaves out version and dependency lines. *)
Definition counted_strict (line : str) : bool :=
  counted_plain line && negb (match_version line) && negb (match_dependencies line).

Definition count_lines (counted : str → bool) (lines : list str) : Z :=
  Z.of_nat (length (filter (λ line, counted line = true) lines)).

(** Six relevant items that differ in their identifier only. *)
Definition sample_item (n : str) : DiffItem := {|
  id := n;
  description := lit "feature: add cache";
  diff := lit "+a
+b
+c
+d
+e
+f
+g
+h
+i
+j";
  url := lit "https://github.com/o/r/pull/1"
|}.

Definition six_items : list DiffItem :=
  map (λ n, sample_item (lit n)) ["1"; "2"; "3"; "4"; "5"; "6"]%string.

(** A result cap: [Some n] keeps the first [n] items, [None] keeps all. *)
Definition with_cap {A} (cap : option nat) (l : list A) : list A :=
  match cap with
  | Some n => take n l
  | None => l
  end.

(** The reading of the specification: the variant's [filterPRs] returns the
    relevant items capped by a bound that the policy determines. *)
Definition cap_set_by_policy
    (filterPRs : list DiffItem → PRFilter → list DiffItem)
    (isRelevantPR : DiffItem → PRFilter → bool)
    (cap : PRFilter → option nat) : Prop :=
  ∀ prs f, filterPRs prs f
           = with_cap (cap f) (filter (λ pr, isRelevantPR pr f = true) prs).

(** ** Stream frames *)

(** The two values of [section]. *)
Inductive ChannelName := Developer | Marketing.

Global Instance ChannelName_eq_dec : EqDecision ChannelName.
Proof. solve_decision. Defined.

(** The second argument of [send]: [{ content }] or [{ done: true }]. *)
Inductive SendObj :=
  | ContentObj (content : str)
  | DoneObj.

Global Instance SendObj_eq_dec : EqDecision SendObj.
Proof. solve_decision. Defined.

(** What the route hands to the writer: the object [send] serialises,
    [{ prId, section, ...obj }], or the message of [sendError]. *)
Inductive Frame :=
  | SectionFrame (prId : str) (section : ChannelName) (obj : SendObj)
  | ErrorFrame (message : str).

Global Instance Frame_eq_dec : EqDecision Frame.
Proof. solve_decision. Defined.

Definition is_error_frame (f : Frame) : bool :=
  match f with ErrorFrame _ => true | SectionFrame _ _ _ => false end.

(** The frames of one channel of one item. *)
Definition frame_of (x : str) (c : ChannelName) (f : Frame) : Prop :=
  ∃ obj, f = SectionFrame x c obj.

(** The frames that carry the identifier of an item. *)
Definition frame_carries (x : str) (f : Frame) : Prop :=
  ∃ c obj, f = SectionFrame x c obj.

(** ** The streaming orchestrator of [src/app/api/generate-notes/route.ts] *)

Module Route.

(** A thrown value: an [Error] with its message, or anything else. *)
Inductive exn :=
  | JsError (message : str)
  | JsThrown.

(** [e instanceof Error ? e.message : 'Unknown error'] *)
Definition message_of (e : exn) : str :=
  match e with
  | JsError m => m
  | JsThrown => lit "Unknown error"
  end.

(** The chunk sequence of one completion request, as [for await] sees it:
    each chunk carries [chunk.choices[0]?.delta?.content] (a string or
    [undefined]); the sequence ends by exhaustion or by raising. *)
Inductive Stream :=
  | Exhausted
  | Raises (e : exn)
  | Chunk (content : option str) (next : Stream).

(** The variable part of a completion request (the fixed system prompts are
    left out). *)
Record Request := {
  req_model : str;
  req_title : str;
  req_diff : str
}.

(** The collaborators: the [n]-th completion request is rejected or gives a
    stream; the [n]-th [writer.write] resolves ([None]) or rejects.  A write
    rejects when the stream has errored or been cancelled, so
    [write_outcome env n] is the condition of the stream once [n] writes
    have been attempted, and [writer.close] rejects in that condition
    too. *)
Record Env := {
  create_outcome : nat → Request → exn + Stream;
  write_outcome : nat → option exn
}.

(** The state the loop acts on: the frames written so far, the numbers of
    writes and of requests issued, and how often the writer was closed. *)
Record World := {
  written : list Frame;
  writes : nat;
  requests : nat;
  closed : nat
}.

Definition initial : World :=
  {| written := []; writes := 0; requests := 0; closed := 0 |}.

Inductive Result (A : Type) :=
  | Ok (a : A)
  | Throw (e : exn).
Arguments Ok {A} a.
Arguments Throw {A} e.

(** Computations that read the collaborators, change the world and may
    throw. *)
Definition M (A : Type) : Type := Env → World → Result A * World.

Definition ret {A} (a : A) : M A := λ _ w, (Ok a, w).

Definition throw {A} (e : exn) : M A := λ _ w, (Throw e, w).

Definition bind {A B} (m : M A) (k : A → M B) : M B :=
  λ env w,
    match m env w with
    | (Ok a, w') => k a env w'
    | (Throw e, w') => (Throw e, w')
    end.

(** [try { m } catch (e) { h e }] *)
Definition try_catch {A} (m : M A) (h : exn → M A) : M A :=
  λ env w,
    match m env w with
    | (Ok a, w') => (Ok a, w')
    | (Throw e, w') => h e env w'
    end.

(** [try { m } finally { fin }]: [fin] always runs; if it throws, its
    exception replaces the outcome of [m]. *)
Definition try_finally {A} (m : M A) (fin : M unit) : M A :=
  λ env w,
    match m env w with
    | (r, w') =>
        match fin env w' with
        | (Ok _, w'') => (r, w'')
        | (Throw e, w'') => (Throw e, w'')
        end
    end.

Notation "'do' x <- m ; k" := (bind m (λ x, k))
  (at level 10, x name, m at level 100, k at level 200).
Notation "m ;; k" := (bind m (λ _, k))
  (at level 100, k at level 200, right associativity).

(** [await writer.write(encoder.encode(record))], the record kept as the
    frame it serialises. *)
Definition writer_write (f : Frame) : M unit :=
  λ env w,
    let w' := {| written := written w; writes := S (writes w);
                 requests := requests w; closed := closed w |} in
    match write_outcome env (writes w) with
    | None =>
        (Ok tt, {| written := written w ++ [f]; writes := S (writes w);
                   requests := requests w; closed := closed w |})
    | Some e => (Throw e, w')
    end.

(** [await writer.close()]: counted as a call whether it resolves or
    rejects; it rejects when the stream has errored or been cancelled. *)
Definition writer_close : M unit :=
  λ env w,
    let w' := {| written := written w; writes := writes w;
                 requests := requests w; closed := S (closed w) |} in
    match write_outcome env (writes w) with
    | None => (Ok tt, w')
    | Some e => (Throw e, w')
    end.

(** [await openai.chat.completions.create({ ..., stream: true })] *)
Definition create (r : Request) : M Stream :=
  λ env w,
    let w' := {| written := written w; writes := writes w;
                 requests := S (requests w); closed := closed w |} in
    match create_outcome env (requests w) r with
    | inl e => (Throw e, w')
    | inr s => (Ok s, w')
    end.

Definition sendError (message : str) : M unit :=
  writer_write (ErrorFrame message).

Definition send (pr : DiffItem) (section : ChannelName) (obj : SendObj) : M unit :=
  try_catch (writer_write (SectionFrame (id pr) section obj))
            (λ writeError, throw writeError).

(** [for await (const chunk of stream) { ...; if (content) await
    send(section, { content }); }] *)
Fixpoint for_await (pr : DiffItem) (section : ChannelName) (s : Stream) : M unit :=
  match s with
  | Exhausted => ret tt
  | Raises e => throw e
  | Chunk content next =>
      (match content with
       | Some c => if truthy_str c then send pr section (ContentObj c) else ret tt
       | None => ret tt
       end) ;;
      for_await pr section next
  end.

Definition dev_request (pr : DiffItem) : Request :=
  {| req_model := lit "gpt-4o-mini"; req_title := description pr; req_diff := diff pr |}.

Definition marketing_request (pr : DiffItem) : Request :=
  {| req_model := lit "gpt-4.1-mini"; req_title := description pr; req_diff := diff pr |}.

(** [`Error processing PR ${pr.id}: ${prError instanceof Error ?
    prError.message : 'Unknown error'}`] *)
Definition item_error_message (pr : DiffItem) (e : exn) : str :=
  lit "Error processing PR " ++ id pr ++ lit ": " ++ message_of e.

Definition internal_error_message : str :=
  lit "Internal error while generating notes. Please retry.".

(** The body of [for (const pr of relevantPRs)]. *)
Definition process_pr (pr : DiffItem) : M unit :=
  do devStream <- create (dev_request pr);
  try_catch
    (send pr Developer (ContentObj []) ;;
     for_await pr Developer devStream ;;
     send pr Developer DoneObj ;;
     do marketingStream <- create (marketing_request pr);
     send pr Marketing (ContentObj []) ;;
     for_await pr Marketing marketingStream ;;
     send pr Marketing DoneObj)
    (λ prError,
       sendError (item_error_message pr prError) ;;
       throw prError).

Fixpoint for_of (relevantPRs : list DiffItem) : M unit :=
  match relevantPRs with
  | [] => ret tt
  | pr :: rest => process_pr pr ;; for_of rest
  end.

(** The asynchronous block started by [POST]: the loop, the outer [catch]
    and the [finally] that closes the writer. *)
Definition stream_notes (relevantPRs : list DiffItem) : M unit :=
  try_finally
    (try_catch (for_of relevantPRs)
       (λ err, sendError internal_error_message))
    writer_close.

(** The outcome of [POST] once the request body is parsed: a 400 response
    when nothing is relevant, otherwise the event stream. *)
Inductive Response :=
  | BadRequest (error : str)
  | EventStream (frames : list Frame).

(** What the specification calls the frames of one item: per channel the
    opening frame with empty content, one content frame per fragment, the
    completion frame; the developer channel first. *)
Definition content_frames (x : str) (c : ChannelName) (l : list str) : list Frame :=
  map (λ s, SectionFrame x c (ContentObj s)) l.

Definition channel_block (x : str) (c : ChannelName) (l : list str) : list Frame :=
  SectionFrame x c (ContentObj []) :: content_frames x c l ++ [SectionFrame x c DoneObj].

Definition item_block (x : str) (ds ms : list str) : list Frame :=
  channel_block x Developer ds ++ channel_block x Marketing ms.

(** The frames of a run in which every item of the list completed. *)
Inductive complete : list DiffItem → list Frame → Prop :=
  | complete_nil : complete [] []
  | complete_cons pr rest ds ms tr :
      complete rest tr →
      complete (pr :: rest) (item_block (id pr) ds ms ++ tr).

(** The frames of any run: complete items, then possibly one item cut short
    and followed by error frames only. *)
Inductive emitted : list DiffItem → list Frame → Prop :=
  | emitted_nil : emitted [] []
  | emitted_item pr rest ds ms tr :
      emitted rest tr →
      emitted (pr :: rest) (item_block (id pr) ds ms ++ tr)
  | emitted_abort pr rest ds ms B E :
      B `prefix_of` item_block (id pr) ds ms →
      Forall (λ f, is_error_frame f = true) E →
      emitted (pr :: rest) (B ++ E).

(** Sample collaborators: every write resolves; the first request streams
    two fragments, the second one is rejected. *)
Definition sample_env : Env := {|
  create_outcome := λ n _,
    match n with
    | O => inr (Chunk (Some (lit "Adds ")) (Chunk None (Chunk (Some (lit "a cache.")) Exhausted)))
    | _ => inl (JsError (lit "rate limit"))
    end;
  write_outcome := λ _, None
|}.

(** Sample collaborators for a run without failure. *)
Definition healthy_env : Env := {|
  create_outcome := λ n _, inr (Chunk (Some (lit "ok")) Exhausted);
  write_outcome := λ _, None
|}.

Definition POST (env : Env) (diffs : list DiffItem) : Response :=
  let relevantPRs := Conservative.filterPRs diffs Conservative.DEFAULT_FILTERS in
  if bool_decide (length relevantPRs = 0%nat)
  then BadRequest (lit "No relevant PRs found to generate notes for")
  else EventStream (written (stream_notes relevantPRs env initial).2).

End Route.

(** ** Describing what a computation of the route appends to the stream *)

(** Every write resolves. *)
Definition writes_succeed (env : Route.Env) : Prop :=
  ∀ n, Route.write_outcome env n = None.

(** [m] appends some frames [tr] to the stream, leaves the writer as open
    or closed as it was, and its outcome and [tr] satisfy [P]. *)
Definition emits (env : Route.Env) {A} (m : Route.M A)
    (P : Route.Result A → list Frame → Prop) : Prop :=
  ∀ w, ∃ tr,
    Route.written (m env w).2 = Route.written w ++ tr ∧
    Route.closed (m env w).2 = Route.closed w ∧
    P (m env w).1 tr.

(** A write appends its frame, or fails and appends nothing. *)
Definition wrote (env : Route.Env) (f : Frame)
    (r : Route.Result unit) (tr : list Frame) : Prop :=
  (r = Route.Ok tt ∧ tr = [f]) ∨
  (¬ writes_succeed env ∧ (∃ e, r = Route.Throw e) ∧ tr = []).

(** One channel: completed, or cut short by an exception. *)
Definition channel_outcome (x : str) (c : ChannelName)
    (r : Route.Result unit) (tr : list Frame) : Prop :=
  (r = Route.Ok tt ∧ ∃ l, tr = Route.channel_block x c l) ∨
  ((∃ e, r = Route.Throw e) ∧ ∃ l, tr `prefix_of` Route.channel_block x c l).

(** The [try] block of one item. *)
Definition inner_outcome (x : str)
    (r : Route.Result unit) (tr : list Frame) : Prop :=
  (r = Route.Ok tt ∧ ∃ ds ms, tr = Route.item_block x ds ms) ∨
  ((∃ e, r = Route.Throw e) ∧ ∃ ds ms, tr `prefix_of` Route.item_block x ds ms).

(** The error frames that may follow the frames [B] of the failing item
    inside the loop: the item's error frame, or nothing when the developer
    request itself was rejected ([B] empty) or the error write failed. *)
Definition item_errors (env : Route.Env) (pr : DiffItem)
    (B E : list Frame) : Prop :=
  (∃ e, E = [ErrorFrame (Route.item_error_message pr e)]) ∨
  (E = [] ∧ (B = [] ∨ ¬ writes_succeed env)).

(** One iteration of the loop. *)
Definition pr_outcome (env : Route.Env) (pr : DiffItem)
    (r : Route.Result unit) (tr : list Frame) : Prop :=
  (r = Route.Ok tt ∧ ∃ ds ms, tr = Route.item_block (id pr) ds ms) ∨
  ((∃ e, r = Route.Throw e) ∧
   ∃ ds ms B E, tr = B ++ E ∧ B `prefix_of` Route.item_block (id pr) ds ms ∧
                item_errors env pr B E).

(** The whole loop. *)
Definition loop_outcome (env : Route.Env) (prs : list DiffItem)
    (r : Route.Result unit) (tr : list Frame) : Prop :=
  (r = Route.Ok tt ∧ Route.complete prs tr) ∨
  ((∃ e, r = Route.Throw e) ∧
   ∃ done pr rest blocks ds ms B E,
     prs = done ++ pr :: rest ∧ Route.complete done blocks ∧
     tr = blocks ++ B ++ E ∧
     B `prefix_of` Route.item_block (id pr) ds ms ∧
     item_errors env pr B E).

(** ** JSON values and the two built-ins *)

(** A JSON value.  Numbers are kept as integers; an object keeps its members
    in order. *)
Inductive json :=
  | JNull
  | JBool (b : bool)
  | JNumber (n : Z)
  | JString (s : str)
  | JArray (items : list json)
  | JObject (members : list (str * json)).

(** [JSON.stringify] and [JSON.parse], the platform built-ins the route and
    the page call.  [JSON_parse] gives [None] where the built-in throws a
    [SyntaxError]. *)
Record JSON := {
  JSON_stringify : json → str;
  JSON_parse : str → option json
}.

(** Property lookup on a parsed object: the last member of that name. *)
Fixpoint get_member (k : str) (members : list (str * json)) : option json :=
  match members with
  | [] => None
  | (k', v) :: rest =>
      match get_member k rest with
      | Some v' => Some v'
      | None => if decide (k = k') then Some v else None
      end
  end.

(** [payload.name] for a value that is not [null]: [undefined] ([None]) on
    anything but an object having the member. *)
Definition field (payload : json) (name : str) : option json :=
  match payload with
  | JObject members => get_member name members
  | _ => None
  end.

(** Truthiness of a possibly [undefined] JSON value. *)
Definition truthy (v : option json) : bool :=
  match v with
  | None | Some JNull => false
  | Some (JBool b) => b
  | Some (JNumber n) => negb (n =? 0)
  | Some (JString s) => truthy_str s
  | Some (JArray _) | Some (JObject _) => true
  end.

(** [v === s] for a possibly [undefined] JSON value and a string. *)
Definition is_string (v : option json) (s : str) : bool :=
  match v with
  | Some (JString s') => bool_decide (s' = s)
  | _ => false
  end.

(** ** The wire format of the route *)

Definition section_name (c : ChannelName) : str :=
  match c with
  | Developer => lit "developer"
  | Marketing => lit "marketing"
  end.

(** The object literal [{ prId: pr.id, section, ...obj }] of [send], and
    [{ message }] of [sendError]. *)
Definition payload_json (f : Frame) : json :=
  match f with
  | SectionFrame prId section (ContentObj content) =>
      JObject [(lit "prId", JString prId);
               (lit "section", JString (section_name section));
               (lit "content", JString content)]
  | SectionFrame prId section DoneObj =>
      JObject [(lit "prId", JString prId);
               (lit "section", JString (section_name section));
               (lit "done", JBool true)]
  | ErrorFrame message => JObject [(lit "message", JString message)]
  end.

(** The text handed to [encoder.encode]: [data: <json>] followed by a blank
    line for [send]; [event: error], a line break and the same for
    [sendError]. *)
Definition encode (J : JSON) (f : Frame) : str :=
  match f with
  | SectionFrame _ _ _ =>
      lit "data: " ++ JSON_stringify J (payload_json f) ++ [LF; LF]
  | ErrorFrame _ =>
      lit "event: error" ++ [LF] ++
      lit "data: " ++ JSON_stringify J (payload_json f) ++ [LF; LF]
  end.

(** The text of a whole stream. *)
Definition wire (J : JSON) (frames : list Frame) : str :=
  concat (map (encode J) frames).

(** ** The client page: overlap-safe merge, decode loop, reducer *)

Module Client.

(** The [for (let k = max; k > 0; k--)] loop of [mergeWithOverlap]. *)
Fixpoint overlap_loop (prev fragment : str) (k : nat) : str :=
  match k with
  | O => prev ++ fragment
  | S k' =>
      if decide (slice prev (- Z.of_nat k) None = slice fragment 0 (Some (Z.of_nat k)))
      then prev ++ slice fragment (Z.of_nat k) None
      else overlap_loop prev fragment k'
  end.

(** [mergeWithOverlap] of the current page component: the empty-string
    guard, then the descending search. *)
Definition mergeWithOverlap (prev fragment : str) : str :=
  if negb (truthy_str prev) || negb (truthy_str fragment)
  then or_str (or_str prev fragment) []
  else overlap_loop prev fragment (Nat.min (length prev) (length fragment)).

(** [mergeWithOverlap] of the earlier page component: no guard. *)
Definition mergeWithOverlap_unguarded (prev fragment : str) : str :=
  overlap_loop prev fragment (Nat.min (length prev) (length fragment)).


(** [hay.indexOf(needle)]; [None] stands for [-1]. *)
Fixpoint indexOf (hay needle : str) : option nat :=
  if startsWith needle hay then Some O
  else match hay with
       | [] => None
       | _ :: hay' => S <$> indexOf hay' needle
       end.

(** How a step of the page ends: normally, or by an exception that reaches
    the [catch] of [generateNotes]. *)
Inductive Outcome (St : Type) :=
  | Normal (st : St)
  | Abrupt (message : str) (st : St).
Arguments Normal {St} st.
Arguments Abrupt {St} message st.

Section DecodeLoop.
(** The decode loop, over the parser and over what is done with a parsed
    payload. *)
Context {St : Type}.
Variable parse : str → option json.
Variable on_payload : json → St → Outcome St.

(** One pass of the inner [while] body, from the [data:] test to the end of
    the [try] around [JSON.parse]. *)
Definition on_event (rawEvent : str) (st : St) : Outcome St :=
  if negb (startsWith (lit "data:") rawEvent) then Normal st
  else
    let json := trim (slice rawEvent 5 None) in
    if negb (truthy_str json) then Normal st
    else match parse json with
         | None => Normal st
         | Some payload => on_payload payload st
         end.

(** [while ((dblNewline = buffer.indexOf(two line feeds)) !== -1)]: every
    pass removes at least two code units, so [length buffer] passes are
    enough. *)
Fixpoint drain (fuel : nat) (buffer : str) (st : St) : str * Outcome St :=
  match fuel with
  | O => (buffer, Normal st)
  | S fuel' =>
      match indexOf buffer [LF; LF] with
      | None => (buffer, Normal st)
      | Some dblNewline =>
          let rawEvent := trim (slice buffer 0 (Some (Z.of_nat dblNewline))) in
          let buffer' := slice buffer (Z.of_nat dblNewline + 2) None in
          match on_event rawEvent st with
          | Normal st' => drain fuel' buffer' st'
          | Abrupt message st' => (buffer', Abrupt message st')
          end
      end
  end.

(** [while (true) { read; if (done) break; buffer += decode(value); ... }]
    over the decoded text chunks the reader delivers until it is done;
    [read_error] is the exception of a read that fails after them. *)
Fixpoint read_loop (chunks : list str) (read_error : option str)
    (buffer : str) (st : St) : str * Outcome St :=
  match chunks with
  | [] =>
      match read_error with
      | None => (buffer, Normal st)
      | Some message => (buffer, Abrupt message st)
      end
  | value :: rest =>
      let buffer := buffer ++ value in
      match drain (length buffer) buffer st with
      | (buffer', Normal st') => read_loop rest read_error buffer' st'
      | (buffer', Abrupt message st') => (buffer', Abrupt message st')
      end
  end.

(** Handing a sequence of payloads to [on_payload], stopping at the first
    exception. *)
Fixpoint feed (payloads : list json) (st : St) : Outcome St :=
  match payloads with
  | [] => Normal st
  | payload :: rest =>
      match on_payload payload st with
      | Normal st' => feed rest st'
      | Abrupt message st' => Abrupt message st'
      end
  end.
End DecodeLoop.

(** The notes of one pull request; a field is [None] where the object has no
    such property.  [notesByPR] is a plain object used as a map from
    identifiers to notes, modelled as a finite map. *)
Record NoteState := {
  developer : option str;
  marketing : option str;
  tools : option json
}.

(** The state of the page that [generateNotes] touches. *)
Record Page := {
  notesByPR : gmap str NoteState;
  error : option str;
  isGeneratingNotes : bool
}.

Definition set_notes (f : gmap str NoteState → gmap str NoteState) (page : Page) : Page :=
  {| notesByPR := f (notesByPR page); error := error page;
     isGeneratingNotes := isGeneratingNotes page |}.

(** [mergeWithOverlap(current.developer, content)] where the property may be
    missing: an [undefined] first argument takes the guard, which returns
    [fragment || ''] . *)
Definition merge_field (prev : option str) (content : str) : str :=
  match prev with
  | Some prev => mergeWithOverlap prev content
  | None => or_str content []
  end.

(** The updater of a content frame. *)
Definition merge_content (prId : str) (is_developer : bool) (content : str)
    (prev : gmap str NoteState) : gmap str NoteState :=
  let current :=
    default {| developer := Some []; marketing := Some []; tools := None |}
            (prev !! prId) in
  let current' :=
    if is_developer
    then {| developer := Some (merge_field (developer current) content);
            marketing := marketing current; tools := tools current |}
    else {| developer := developer current;
            marketing := Some (merge_field (marketing current) content);
            tools := tools current |} in
  <[prId := current']> prev.

(** The updater of a tools frame: [{ ...prev[prId], tools }]. *)
Definition attach_tools (prId : str) (t : json)
    (prev : gmap str NoteState) : gmap str NoteState :=
  let old := prev !! prId in
  <[prId := {| developer := old ≫= developer;
               marketing := old ≫= marketing;
               tools := Some t |}]> prev.

(** A property key: the string itself, [undefined] for a missing value.
    Other values are outside the declared payload type. *)
Definition key_of (prId : option json) : option str :=
  match prId with
  | None => Some (lit "undefined")
  | Some (JString s) => Some s
  | Some _ => None
  end.

(** [content = (empty string)] default of the destructuring. *)
Definition content_of (content : option json) : option str :=
  match content with
  | None => Some []
  | Some (JString s) => Some s
  | Some _ => None
  end.

(** The rest of the inner [while] body: destructuring and the updates of
    [notesByPR].  Destructuring [null] throws.  A payload whose [prId] or
    [content] is not a string is outside the declared payload type; the
    model leaves the page as it is on such a payload. *)
Definition apply_payload (payload : json) (page : Page) : Outcome Page :=
  match payload with
  | JNull => Abrupt (lit "Cannot destructure property 'prId' of 'payload' as it is null.") page
  | _ =>
      let prId := field payload (lit "prId") in
      let section := field payload (lit "section") in
      let content := field payload (lit "content") in
      let streamDone := field payload (lit "done") in
      let type := field payload (lit "type") in
      let tools := field payload (lit "tools") in
      if truthy streamDone then Normal page
      else if is_string type (lit "tools") && truthy tools
      then match key_of prId, tools with
           | Some k, Some t => Normal (set_notes (attach_tools k t) page)
           | _, _ => Normal page
           end
      else if negb (truthy section) then Normal page
      else match key_of prId, content_of content with
           | Some k, Some c =>
               Normal (set_notes
                         (merge_content k
                            (is_string section (lit "developer")) c)
                         page)
           | _, _ => Normal page
           end
  end.

(** [arr.findIndex(p)]; [None] stands for [-1]. *)
Fixpoint findIndex {A} (p : A → bool) (arr : list A) : option nat :=
  match arr with
  | [] => None
  | x :: rest => if p x then Some O else S <$> findIndex p rest
  end.

(** [arr.filter((d, i) => p d i)] from index [i] on. *)
Fixpoint filter_indexed {A} (p : A → nat → bool) (i : nat) (arr : list A) : list A :=
  match arr with
  | [] => []
  | x :: rest =>
      if p x i then x :: filter_indexed p (S i) rest
      else filter_indexed p (S i) rest
  end.

(** [.filter((d, i, arr) => arr.findIndex(item => item.id === d.id) === i)] *)
Definition first_of_each_id (arr : list DiffItem) : list DiffItem :=
  filter_indexed
    (λ d i, bool_decide (findIndex (λ item, bool_decide (id item = id d)) arr = Some i))
    O arr.

(** The response of [fetch]: its [ok] flag and, if there is a body, the
    decoded chunks its reader delivers and the error of a failing read. *)
Record FetchResponse := {
  ok : bool;
  body : option (list str * option str)
}.

(** [generateNotes(diffs)] on a page, given what [fetch] answers.  The test
    [!notesByPR[d.id]] is the lookup in the map of the notes: an identifier
    is taken not to name a property that every object inherits, such as
    [constructor], for which the source finds the inherited value. *)
Definition generateNotes (J : JSON) (diffs : list DiffItem)
    (response : FetchResponse) (page : Page) : Page :=
  let pending :=
    filter (λ d, notesByPR page !! id d = None) diffs in
  let pending := first_of_each_id pending in
  if bool_decide (pending = [])
  then {| notesByPR := notesByPR page;
          error := Some (lit "No new PRs to generate notes for");
          isGeneratingNotes := isGeneratingNotes page |}
  else
    let page := {| notesByPR := notesByPR page; error := None;
                   isGeneratingNotes := true |} in
    let outcome :=
      if negb (ok response) then Abrupt (lit "Request failed") page
      else match body response with
           | None => Abrupt (lit "ReadableStream not supported") page
           | Some (chunks, read_error) =>
               (read_loop (JSON_parse J) apply_payload chunks read_error [] page).2
           end in
    match outcome with
    | Normal page' =>
        {| notesByPR := notesByPR page'; error := error page';
           isGeneratingNotes := false |}
    | Abrupt message page' =>
        {| notesByPR := notesByPR page'; error := Some message;
           isGeneratingNotes := false |}
    end.

End Client.

(** ** A reference model of the two JSON built-ins

    Used to run the route and the page on sample streams.  The values of
    the model hold integers only, so a number with a fraction or an exponent
    is rejected, and code units are those of the model, so an escape above
    [ÿ] is rejected: the model is the built-ins on texts without such
    numbers and escapes. *)

Module JsonRef.

Definition quote : ascii := ascii_of_nat 34.
Definition backslash : ascii := ascii_of_nat 92.

Definition hex_digit (n : nat) : ascii :=
  nth n (lit "0123456789abcdef") "0"%char.

(** The escape of one code unit in [QuoteJSONString]. *)
Definition escape_char (c : ascii) : str :=
  let n := nat_of_ascii c in
  if (n =? 8)%nat then [backslash; "b"%char]
  else if (n =? 9)%nat then [backslash; "t"%char]
  else if (n =? 10)%nat then [backslash; "n"%char]
  else if (n =? 12)%nat then [backslash; "f"%char]
  else if (n =? 13)%nat then [backslash; "r"%char]
  else if (n =? 34)%nat then [backslash; quote]
  else if (n =? 92)%nat then [backslash; backslash]
  else if (n <? 32)%nat
       then [backslash; "u"%char; "0"%char; "0"%char;
             hex_digit (n / 16); hex_digit (n mod 16)]
  else [c].

Definition quote_string (s : str) : str :=
  quote :: concat (map escape_char s) ++ [quote].

Fixpoint digits_of (fuel : nat) (n : nat) (acc : str) : str :=
  match fuel with
  | O => acc
  | S fuel' =>
      let acc' := ascii_of_nat (48 + n mod 10) :: acc in
      if (n <? 10)%nat then acc' else digits_of fuel' (n / 10) acc'
  end.

Definition number_text (n : Z) : str :=
  let m := Z.to_nat (Z.abs n) in
  (if n <? 0 then ["-"%char] else []) ++ digits_of (S m) m [].

Fixpoint join_comma (parts : list str) : str :=
  match parts with
  | [] => []
  | [p] => p
  | p :: rest => p ++ ","%char :: join_comma rest
  end.

Fixpoint stringify (v : json) : str :=
  match v with
  | JNull => lit "null"
  | JBool true => lit "true"
  | JBool false => lit "false"
  | JNumber n => number_text n
  | JString s => quote_string s
  | JArray items => "["%char :: join_comma (map stringify items) ++ ["]"%char]
  | JObject members =>
      "{"%char ::
      join_comma (map (λ kv, quote_string kv.1 ++ ":"%char :: stringify kv.2) members)
      ++ ["}"%char]
  end.

Definition hex_value (c : ascii) : option nat :=
  let n := nat_of_ascii c in
  if ((48 <=? n) && (n <=? 57))%nat then Some (n - 48)%nat
  else if ((97 <=? n) && (n <=? 102))%nat then Some (n - 87)%nat
  else if ((65 <=? n) && (n <=? 70))%nat then Some (n - 55)%nat
  else None.

Definition hex4 (a b c d : ascii) : option nat :=
  match hex_value a, hex_value b, hex_value c, hex_value d with
  | Some x, Some y, Some z, Some w => Some (((x * 16 + y) * 16 + z) * 16 + w)%nat
  | _, _, _, _ => None
  end.

Definition unescape (e : ascii) : option ascii :=
  if decide (e = quote) then Some quote
  else if decide (e = backslash) then Some backslash
  else if decide (e = "/"%char) then Some "/"%char
  else if decide (e = "b"%char) then Some (ascii_of_nat 8)
  else if decide (e = "f"%char) then Some (ascii_of_nat 12)
  else if decide (e = "n"%char) then Some (ascii_of_nat 10)
  else if decide (e = "r"%char) then Some (ascii_of_nat 13)
  else if decide (e = "t"%char) then Some (ascii_of_nat 9)
  else None.

(** The characters of a string literal after its opening quote, and the text
    after its closing quote. *)
Fixpoint parse_string_body (s : str) : option (str * str) :=
  match s with
  | [] => None
  | c :: r =>
      if decide (c = quote) then Some ([], r)
      else if decide (c = backslash) then
        match r with
        | [] => None
        | e :: r' =>
            if decide (e = "u"%char) then
              match r' with
              | a :: b :: c' :: d :: r'' =>
                  match hex4 a b c' d with
                  | Some n =>
                      if (n <? 256)%nat then
                        match parse_string_body r'' with
                        | Some (x, rest) => Some (ascii_of_nat n :: x, rest)
                        | None => None
                        end
                      else None
                  | None => None
                  end
              | _ => None
              end
            else
              match unescape e with
              | Some u =>
                  match parse_string_body r' with
                  | Some (x, rest) => Some (u :: x, rest)
                  | None => None
                  end
              | None => None
              end
        end
      else if (nat_of_ascii c <? 32)%nat then None
      else
        match parse_string_body r with
        | Some (x, rest) => Some (c :: x, rest)
        | None => None
        end
  end.

Definition is_json_space (c : ascii) : bool :=
  let n := nat_of_ascii c in
  ((n =? 32) || (n =? 9) || (n =? 10) || (n =? 13))%nat.

Fixpoint skip_ws (s : str) : str :=
  match s with
  | c :: s' => if is_json_space c then skip_ws s' else s
  | [] => []
  end.

Fixpoint parse_digits (acc : Z) (s : str) : Z * str :=
  match s with
  | c :: s' =>
      if is_digit c
      then parse_digits (acc * 10 + Z.of_nat (nat_of_ascii c - 48)) s'
      else (acc, s)
  | [] => (acc, [])
  end.

Definition parse_number (s : str) : option (json * str) :=
  let '(neg, s1) :=
    match s with
    | c :: s' => if decide (c = "-"%char) then (true, s') else (false, s)
    | [] => (false, s)
    end in
  match s1 with
  | c :: s2 =>
      if is_digit c then
        if bool_decide (c = "0"%char)
           && match s2 with d :: _ => is_digit d | [] => false end
        then None
        else
        let '(n, rest) := parse_digits 0 s1 in
        match rest with
        | d :: _ =>
            if decide (d = "."%char) then None
            else if decide (d = "e"%char) then None
            else if decide (d = "E"%char) then None
            else Some (JNumber (if neg then - n else n), rest)
        | [] => Some (JNumber (if neg then - n else n), rest)
        end
      else None
  | [] => None
  end.

Definition expect (c : ascii) (s : str) : option str :=
  match skip_ws s with
  | d :: r => if decide (c = d) then Some r else None
  | [] => None
  end.

Fixpoint parse_value (fuel : nat) (s : str) : option (json * str) :=
  match fuel with
  | O => None
  | S fuel' =>
      match skip_ws s with
      | [] => None
      | c :: r =>
          if decide (c = quote) then
            match parse_string_body r with
            | Some (x, rest) => Some (JString x, rest)
            | None => None
            end
          else if decide (c = "["%char) then
            match expect "]"%char r with
            | Some rest => Some (JArray [], rest)
            | None =>
                match parse_elements fuel' r with
                | Some (items, rest) => Some (JArray items, rest)
                | None => None
                end
            end
          else if decide (c = "{"%char) then
            match expect "}"%char r with
            | Some rest => Some (JObject [], rest)
            | None =>
                match parse_members fuel' r with
                | Some (members, rest) => Some (JObject members, rest)
                | None => None
                end
            end
          else if startsWith (lit "null") (c :: r) then Some (JNull, drop 4 (c :: r))
          else if startsWith (lit "true") (c :: r) then Some (JBool true, drop 4 (c :: r))
          else if startsWith (lit "false") (c :: r) then Some (JBool false, drop 5 (c :: r))
          else parse_number (c :: r)
      end
  end
with parse_elements (fuel : nat) (s : str) : option (list json * str) :=
  match fuel with
  | O => None
  | S fuel' =>
      match parse_value fuel' s with
      | Some (v, rest) =>
          match expect ","%char rest with
          | Some rest' =>
              match parse_elements fuel' rest' with
              | Some (vs, rest'') => Some (v :: vs, rest'')
              | None => None
              end
          | None =>
              match expect "]"%char rest with
              | Some rest' => Some ([v], rest')
              | None => None
              end
          end
      | None => None
      end
  end
with parse_members (fuel : nat) (s : str) : option (list (str * json) * str) :=
  match fuel with
  | O => None
  | S fuel' =>
      match expect quote s with
      | Some r =>
          match parse_string_body r with
          | Some (k, rest) =>
              match expect ":"%char rest with
              | Some rest1 =>
                  match parse_value fuel' rest1 with
                  | Some (v, rest2) =>
                      match expect ","%char rest2 with
                      | Some rest3 =>
                          match parse_members fuel' rest3 with
                          | Some (ms, rest4) => Some ((k, v) :: ms, rest4)
                          | None => None
                          end
                      | None =>
                          match expect "}"%char rest2 with
                          | Some rest3 => Some ([(k, v)], rest3)
                          | None => None
                          end
                      end
                  | None => None
                  end
              | None => None
              end
          | None => None
          end
      | None => None
      end
  end.

Definition parse (text : str) : option json :=
  match parse_value (S (length text)) text with
  | Some (v, rest) =>
      match skip_ws rest with
      | [] => Some v
      | _ :: _ => None
      end
  | None => None
  end.

Definition reference : JSON :=
  {| JSON_stringify := stringify; JSON_parse := parse |}.

End JsonRef.

(** ** Sample streams *)

Definition sample_frames : list Frame :=
  [SectionFrame (lit "42") Marketing (ContentObj []);
   SectionFrame (lit "42") Marketing (ContentObj (lit "The cache is "));
   SectionFrame (lit "42") Marketing
     (ContentObj ("i"%char :: "s"%char :: " "%char :: JsonRef.quote
                  :: lit "now" ++ [JsonRef.quote; LF] ++ lit "faster."));
   SectionFrame (lit "42") Marketing DoneObj].

(** The sample stream cut inside its records. *)
Definition sample_chunks : list str :=
  let text := wire JsonRef.reference sample_frames in
  [take 3 text; take 50 (drop 3 text); take 1 (drop 53 text); drop 54 text].

Definition empty_page : Client.Page :=
  {| Client.notesByPR := ∅; Client.error := None; Client.isGeneratingNotes := false |}.

(** A consumer that only records the payloads it is given. *)
Definition record_payload (payload : json) (log : list json) : Client.Outcome (list json) :=
  Client.Normal (log ++ [payload]).

(** What the decode loop relies on from the JSON built-ins, for one payload
    [v]: the text of [v] parses back to [v], holds no raw line feed (line
    feeds inside strings are escaped), and is the text of an object, from
    its opening to its closing brace. *)
Definition json_text_ok (J : JSON) (v : json) : Prop :=
  JSON_parse J (JSON_stringify J v) = Some v ∧
  (LF ∉ JSON_stringify J v) ∧
  head (JSON_stringify J v) = Some "{"%char ∧
  last (JSON_stringify J v) = Some "}"%char.

(** The decode loop run on the whole text at once. *)
Definition drain_all {St} (parse : str → option json)
    (on_payload : json → St → Client.Outcome St) (text : str) (st : St)
    : str * Client.Outcome St :=
  Client.drain parse on_payload (length text) text st.

(** The text accumulated so far for one channel of one item: empty when the
    item or the property is missing. *)
Definition channel_text (notes : gmap str Client.NoteState) (x : str)
    (c : ChannelName) : str :=
  match notes !! x with
  | Some n =>
      default [] (match c with
                  | Developer => Client.developer n
                  | Marketing => Client.marketing n
                  end)
  | None => []
  end.

(** A stream in which an error frame stands between two content frames. *)
Definition stream_with_error : list Frame :=
  [SectionFrame (lit "1") Developer (ContentObj (lit "abc"));
   ErrorFrame (lit "boom");
   SectionFrame (lit "1") Developer (ContentObj (lit "def"))].

(** The page after [generateNotes] has read the given frames, sent as one
    chunk. *)
Definition page_after (frames : list Frame) : Client.Page :=
  Client.generateNotes JsonRef.reference [sample_item (lit "1")]
    {| Client.ok := true;
       Client.body := Some ([wire JsonRef.reference frames], None) |}
    empty_page.

(** A value the route puts in a payload: a string or a boolean. *)
Definition flat (v : json) : Prop :=
  match v with
  | JString _ | JBool _ => True
  | _ => False
  end.

(** The text of one member of an object in the reference model. *)
Definition member_text (kv : str * json) : str :=
  JsonRef.quote_string kv.1 ++ ":"%char :: JsonRef.stringify kv.2.

(** ** Further definitions: lines of a diff *)

(** [lines.join(line feed)] *)
Fixpoint join_lines (lines : list str) : str :=
  match lines with
  | [] => []
  | [l] => l
  | l :: rest => l ++ LF :: join_lines rest
  end.

(** A changed line that holds nothing but white space after its marker. *)
Definition blank_change (line : str) : Prop :=
  ∃ marker ws,
    line = marker :: ws ∧
    (marker = "+"%char ∨ marker = "-"%char) ∧
    Forall (λ c, is_space c = true ∧ c ≠ LF) ws.

(** The item with another description. *)
Definition with_description (pr : DiffItem) (d : str) : DiffItem :=
  {| id := id pr; description := d; diff := diff pr; url := url pr |}.

(** A change of letter case only. *)
Definition same_letters (a b : str) : Prop := toLowerCase a = toLowerCase b.

(** The lines of a diff that start with [+] or [-]. *)
Definition changed_lines (diff : str) : list str :=
  filter (λ line, is_changed_line line = true) (split_on LF diff).

(** The number of line feeds of a text. *)
Definition line_feeds (s : str) : nat := length (filter (λ c, c = LF) s).

(** The policy with its pattern and label lists replaced. *)
Definition with_patterns (f : PRFilter) (ep el il : list str) : PRFilter :=
  {| minDiffSize := minDiffSize f; excludePatterns := ep;
     minCodeChanges := minCodeChanges f; excludeLabels := el;
     includeLabels := il |}.

(** A sample diff of blank changes only. *)
Definition blank_diff_lines : list str :=
  [lit "+   "; "-"%char :: [ascii_of_nat 9]; lit "+"].

(** ** Further definitions: runs of the route *)

(** The fragments of a stream that the loop forwards: the non-empty
    contents, in order, up to the end of the stream. *)
Fixpoint forwarded (s : Route.Stream) : list str :=
  match s with
  | Route.Exhausted | Route.Raises _ => []
  | Route.Chunk content next =>
      match content with
      | Some c => if truthy_str c then c :: forwarded next else forwarded next
      | None => forwarded next
      end
  end.

(** The stream ends by exhaustion. *)
Fixpoint completes (s : Route.Stream) : bool :=
  match s with
  | Route.Exhausted => true
  | Route.Raises _ => false
  | Route.Chunk _ next => completes next
  end.

(** What the [n]-th request gives when it is not rejected. *)
Definition answer (env : Route.Env) (n : nat) (r : Route.Request) : Route.Stream :=
  match Route.create_outcome env n r with
  | inr s => s
  | inl _ => Route.Exhausted
  end.

(** Nothing fails: every write resolves, every request gives a stream, every
    stream ends by exhaustion. *)
Definition healthy (env : Route.Env) : Prop :=
  writes_succeed env ∧
  ∀ n r, ∃ s, Route.create_outcome env n r = inr s ∧ completes s = true.

(** The frames of a run without failure, the first request being the
    [n]-th. *)
Fixpoint expected_frames (env : Route.Env) (n : nat) (prs : list DiffItem)
    : list Frame :=
  match prs with
  | [] => []
  | pr :: rest =>
      Route.item_block (id pr)
        (forwarded (answer env n (Route.dev_request pr)))
        (forwarded (answer env (S n) (Route.marketing_request pr)))
      ++ expected_frames env (S (S n)) rest
  end.

(** The world after more frames and more requests. *)
Definition advance (w : Route.World) (frames : list Frame) (nreq : nat)
    : Route.World :=
  {| Route.written := Route.written w ++ frames;
     Route.writes := Route.writes w + length frames;
     Route.requests := Route.requests w + nreq;
     Route.closed := Route.closed w |}.

(** [m] issues at most [n] requests. *)
Definition spends {A} (m : Route.M A) (n : nat) : Prop :=
  ∀ env w,
    (Route.requests w ≤ Route.requests (m env w).2 ≤ Route.requests w + n)%nat.

(** The [n]-th use of the writer finds the stream in order. *)
Definition resolves (env : Route.Env) (n : nat) : bool :=
  match Route.write_outcome env n with
  | None => true
  | Some _ => false
  end.

(** No step for the item [pr], started in world [w], fails: both requests
    are granted, both streams end by exhaustion, and each of the writes of
    the frames of the item resolves (two opening and two completion frames
    and one frame per fragment forwarded). *)
Definition item_succeeds (env : Route.Env) (pr : DiffItem) (w : Route.World)
    : bool :=
  match Route.create_outcome env (Route.requests w) (Route.dev_request pr),
        Route.create_outcome env (S (Route.requests w))
          (Route.marketing_request pr) with
  | inr devStream, inr marketingStream =>
      completes devStream && completes marketingStream
      && forallb (λ k, resolves env (Route.writes w + k))
           (seq 0 (4 + length (forwarded devStream)
                     + length (forwarded marketingStream)))
  | _, _ => false
  end.

(** Sample collaborators: every write resolves; the stream of the third
    request, the developer notes of the second item, breaks after one
    fragment. *)
Definition raising_env : Route.Env := {|
  Route.create_outcome := λ n _,
    match n with
    | 2%nat =>
        inr (Route.Chunk (Some (lit "Fixes ")) (Route.Raises (Route.JsError (lit "socket hang up"))))
    | _ => inr (Route.Chunk (Some (lit "ok")) Route.Exhausted)
    end;
  Route.write_outcome := λ _, None
|}.

(** ** Further definitions: the page *)

(** The names every plain object inherits from [Object.prototype]: looking
    one of them up in [notesByPR] finds the inherited value, which is
    truthy. *)
Definition Object_prototype_keys : list str :=
  map lit ["constructor"; "__defineGetter__"; "__defineSetter__";
           "hasOwnProperty"; "__lookupGetter__"; "__lookupSetter__";
           "isPrototypeOf"; "propertyIsEnumerable"; "toString"; "valueOf";
           "__proto__"; "toLocaleString"]%string.

(** A payload of the declared type as far as the reducer reads it: [prId]
    is a string or missing and names no inherited property, [content] is a
    string or missing. *)
Definition declared (payload : json) : bool :=
  match Client.key_of (field payload (lit "prId")),
        Client.content_of (field payload (lit "content")) with
  | Some k, Some _ => bool_decide (k ∉ Object_prototype_keys)
  | _, _ => false
  end.

(** [!notesByPR[d.id]] as the source evaluates it: no notes of its own under
    the identifier, and no inherited property of that name. *)
Definition lacks_notes (page : Client.Page) (d : DiffItem) : Prop :=
  Client.notesByPR page !! id d = None ∧ id d ∉ Object_prototype_keys.

(** The channel a content frame is merged into. *)
Definition channel_of (is_developer : bool) : ChannelName :=
  if is_developer then Developer else Marketing.

(** The notes only grew: every item is still there and every channel text
    starts with what it was. *)
Definition notes_grow (m m' : gmap str Client.NoteState) : Prop :=
  (∀ x, is_Some (m !! x) → is_Some (m' !! x)) ∧
  ∀ x c, channel_text m x c `prefix_of` channel_text m' x c.

(** The state an outcome carries. *)
Definition state_of {St} (o : Client.Outcome St) : St :=
  match o with
  | Client.Normal st => st
  | Client.Abrupt _ st => st
  end.

(** The payloads the decode loop parses out of a text, in order. *)
Definition decoded (parse : str → option json) (text : str) : list json :=
  state_of (drain_all parse record_payload text []).2.

(** The payload of a tools frame. *)
Definition tools_payload (x : str) (t : json) : json :=
  JObject [(lit "prId", JString x); (lit "type", JString (lit "tools"));
           (lit "tools", t)].

(** The diffs [generateNotes] asks notes for. *)
Definition pending_diffs (page : Client.Page) (diffs : list DiffItem)
    : list DiffItem :=
  Client.first_of_each_id
    (filter (λ d, Client.notesByPR page !! id d = None) diffs).

(** The outcome when a read fails after the chunks: the failure, unless the
    decoding already ended abruptly. *)
Definition then_read_error {St} (message : str) (o : Client.Outcome St)
    : Client.Outcome St :=
  match o with
  | Client.Normal st => Client.Abrupt message st
  | Client.Abrupt m st => Client.Abrupt m st
  end.

(** Keeping the first item of every identifier, [seen] holding the
    identifiers met so far. *)
Fixpoint keep_first (seen : list str) (l : list DiffItem) : list DiffItem :=
  match l with
  | [] => []
  | d :: rest =>
      (if decide (id d ∈ seen) then [] else [d])
      ++ keep_first (seen ++ [id d]) rest
  end.



(** A page that already holds text for item [1]. *)
Definition page_with_notes : Client.Page :=
  {| Client.notesByPR :=
       {[ lit "1" := {| Client.developer := Some (lit "Adds a ca");
                        Client.marketing := Some [];
                        Client.tools := None |} ]};
     Client.error := Some (lit "old");
     Client.isGeneratingNotes := false |}.

(** A stream for two items that holds an error frame. *)
Definition two_item_frames : list Frame :=
  [SectionFrame (lit "1") Developer (ContentObj (lit "a cache"));
   ErrorFrame (lit "boom");
   SectionFrame (lit "2") Marketing (ContentObj (lit "Faster "));
   SectionFrame (lit "2") Marketing (ContentObj (lit "er pages"));
   SectionFrame (lit "1") Developer DoneObj].

(** ** The tools of a pull request ([getPRTools])

    The two Octokit calls, [parseInt], the parsing of a date and the clock
    are what the function is given: a call gives the payload of its response
    or rejects ([None]); [parseInt] and the time value of a date give an
    integer or [NaN] ([None]); the clock is read once per issue that gets as
    far as the date test, [now i] being the reading for the issue at
    position [i]. *)

Module Tools.

Module Octokit.
Record Issue := {
  number : Z;
  closed_at : option str;
  title : str
}.

Record Contributor := {
  login : option str;
  avatar_url : option str;
  contributions : Z
}.
End Octokit.

Record Env := {
  parseInt : str → option Z;
  Date_getTime : str → option Z;
  now : nat → Z;
  listForRepo : option str → option str → option (list Octokit.Issue);
  listContributors : option str → option str → option (list Octokit.Contributor)
}.

Record ContributorInfo := {
  name : str;
  avatar : str;
  contributions : Z
}.

Record PRTools := {
  relatedIssues : list str;
  contributors : list ContributorInfo
}.

(** [arr.slice(start, end)] on an array. *)
Definition array_slice {A} (arr : list A) (start : Z) (end_ : option Z) : list A :=
  let len := Z.of_nat (length arr) in
  let from := rel_index len start in
  let to := match end_ with None => len | Some e => rel_index len e end in
  take (Z.to_nat (to - from)) (drop (Z.to_nat from) arr).

(** [const [owner, repo] = pr.url.split('/').slice(-4, -2)]: an element the
    array does not have is [undefined]. *)
Definition owner_repo (url : str) : option str * option str :=
  let parts := array_slice (split_on "/" url) (-4) (Some (-2)) in
  (parts !! 0%nat, parts !! 1%nat).

(** Truthiness of a string that may be [null] or [undefined]. *)
Definition truthy_opt (s : option str) : bool :=
  match s with
  | Some s => truthy_str s
  | None => false
  end.

(** [Math.abs(new Date(issue.closed_at).getTime() - new Date().getTime())
    < 7 * 24 * 60 * 60 * 1000]; a comparison with [NaN] is false. *)
Definition closed_within_week (env : Env) (i : nat) (closed_at : str) : bool :=
  match Date_getTime env closed_at with
  | Some t => bool_decide (Z.abs (t - now env i) < 7 * 24 * 60 * 60 * 1000)
  | None => false
  end.

(** The callback of the first [filter] on the issues; [!==] against [NaN]
    is true. *)
Definition is_related (env : Env) (prNumber : option Z)
    (issue : Octokit.Issue) (i : nat) : bool :=
  bool_decide (Some (Octokit.number issue) ≠ prNumber)
  && match Octokit.closed_at issue with
     | Some s => truthy_str s && closed_within_week env i s
     | None => false
     end.

(** The chain on [issues]. *)
Definition related_titles (env : Env) (prNumber : option Z)
    (issues : list Octokit.Issue) : list str :=
  array_slice
    (filter (λ title, title ≠ [])
       (map (λ issue, or_str (Octokit.title issue) [])
          (Client.filter_indexed (is_related env prNumber) 0 issues)))
    0 (Some 3).

(** [arr.sort(compare)]: the sort is stable, so with a consistent comparator
    its result is the one of inserting the elements, last first, each before
    the first element it must precede or equals. *)
Fixpoint sort_insert {A} (compare : A → A → Z) (x : A) (sorted : list A) : list A :=
  match sorted with
  | [] => [x]
  | y :: rest =>
      if compare x y <=? 0 then x :: y :: rest
      else y :: sort_insert compare x rest
  end.

Definition sort {A} (compare : A → A → Z) (arr : list A) : list A :=
  foldr (sort_insert compare) [] arr.

(** The callbacks of the chain on [contributors]. *)
Definition has_login_and_avatar (c : Octokit.Contributor) : bool :=
  truthy_opt (Octokit.login c) && truthy_opt (Octokit.avatar_url c).

Definition info_of (c : Octokit.Contributor) : ContributorInfo :=
  {| name := default [] (Octokit.login c);
     avatar := default [] (Octokit.avatar_url c);
     contributions := Octokit.contributions c |}.

Definition by_contributions (a b : ContributorInfo) : Z :=
  contributions b - contributions a.

Definition top_contributors (listed : list Octokit.Contributor)
    : list ContributorInfo :=
  array_slice
    (sort by_contributions
       (map info_of (filter (λ c, has_login_and_avatar c = true) listed)))
    0 (Some 3).

(** [getPRTools(pr)]: a call that rejects is caught and gives the empty
    tools. *)
Definition getPRTools (env : Env) (pr : DiffItem) : PRTools :=
  let '(owner, repo) := owner_repo (url pr) in
  let prNumber := parseInt env (id pr) in
  match listForRepo env owner repo with
  | None => {| relatedIssues := []; contributors := [] |}
  | Some issues =>
      let relatedIssues := related_titles env prNumber issues in
      match listContributors env owner repo with
      | None => {| relatedIssues := []; contributors := [] |}
      | Some contributors =>
          {| relatedIssues := relatedIssues;
             contributors := top_contributors contributors |}
      end
  end.

(** The contributors are in descending order of contributions. *)
Definition descending (l : list ContributorInfo) : Prop :=
  ∀ (i j : nat) a b,
    (i < j)%nat → l !! i = Some a → l !! j = Some b →
    contributions b ≤ contributions a.

(** Descending order, by recursion on the list. *)
Fixpoint ordered (l : list ContributorInfo) : Prop :=
  match l with
  | [] => True
  | x :: rest =>
      Forall (λ y, contributions y ≤ contributions x) rest ∧ ordered rest
  end.

End Tools.

(** ** The earlier page component

    Its notes have both texts and no tools; its [mergeWithOverlap] has no
    guard and its reducer does not test [section]. *)

Module EarlierPage.

Record NoteState := {
  developer : str;
  marketing : str
}.

(** The updater of a payload. *)
Definition merge_content (prId : str) (is_developer : bool) (content : str)
    (prev : gmap str NoteState) : gmap str NoteState :=
  let current := default {| developer := []; marketing := [] |} (prev !! prId) in
  let current' :=
    if is_developer
    then {| developer :=
              Client.mergeWithOverlap_unguarded (developer current) content;
            marketing := marketing current |}
    else {| developer := developer current;
            marketing :=
              Client.mergeWithOverlap_unguarded (marketing current) content |} in
  <[prId := current']> prev.

(** The rest of the inner [while] body.  As for the current component, a
    payload whose [prId] or [content] is not a string is outside the
    declared payload type and leaves the notes as they are. *)
Definition apply_payload (payload : json) (notes : gmap str NoteState)
    : Client.Outcome (gmap str NoteState) :=
  match payload with
  | JNull =>
      Client.Abrupt
        (lit "Cannot destructure property 'prId' of 'payload' as it is null.")
        notes
  | _ =>
      let prId := field payload (lit "prId") in
      let section := field payload (lit "section") in
      let content := field payload (lit "content") in
      let streamDone := field payload (lit "done") in
      if truthy streamDone then Client.Normal notes
      else match Client.key_of prId, Client.content_of content with
           | Some k, Some c =>
               Client.Normal
                 (merge_content k (is_string section (lit "developer")) c notes)
           | _, _ => Client.Normal notes
           end
  end.

(** The text of one channel of one item. *)
Definition channel_text (notes : gmap str NoteState) (x : str)
    (c : ChannelName) : str :=
  match notes !! x with
  | Some n => match c with
              | Developer => developer n
              | Marketing => marketing n
              end
  | None => []
  end.

End EarlierPage.

(** ** Further definitions: [fetchDiffs] *)

(** Two items with the same identifier and an item with another one. *)
Definition diffs_with_duplicate : list DiffItem :=
  [sample_item (lit "7");
   with_description (sample_item (lit "7")) (lit "same id again");
   sample_item (lit "9")].

(** The updater [fetchDiffs(page)] hands to [setDiffs], [data_diffs] being
    the [diffs] of the response. *)
Definition setDiffs_updater (page : Z) (data_diffs prevDiffs : list DiffItem)
    : list DiffItem :=
  if bool_decide (page = 1) then data_diffs
  else
    let existingIds : gset str := list_to_set (map id prevDiffs) in
    let newDiffs := filter (λ d, id d ∉ existingIds) data_diffs in
    prevDiffs ++ newDiffs.

(** [newPRs], the items [fetchDiffs(page)] selects for [generateNotes]. *)
Definition newPRs (page : Z) (data_diffs : list DiffItem)
    (notesByPR : gmap str Client.NoteState) : list DiffItem :=
  if bool_decide (page = 1) then data_diffs
  else filter (λ d, notesByPR !! id d = None) data_diffs.

(** [if (newPRs.length > 0) { generateNotes(newPRs); }]: what the end of
    [fetchDiffs(page)] does to the state [generateNotes] touches, given what
    its [fetch] answers. *)
Definition generate_for_newPRs (J : JSON) (page : Z) (data_diffs : list DiffItem)
    (response : Client.FetchResponse) (state : Client.Page) : Client.Page :=
  let newPRs := newPRs page data_diffs (Client.notesByPR state) in
  if (0 <? length newPRs)%nat
  then Client.generateNotes J newPRs response state
  else state.
(** ** Properties of slicing *)

Lemma slice_suffix (s : str) (k : nat) :
  (0 < k)%nat → (k ≤ length s)%nat →
  slice s (- Z.of_nat k) None = drop (length s - k) s.
Proof.
  intros Hk Hle. unfold slice, rel_index, js_length.
  destruct (Z.ltb_spec (- Z.of_nat k) 0); [|lia].
  replace (Z.to_nat (Z.max (Z.of_nat (length s) + - Z.of_nat k) 0))
    with (length s - k)%nat by lia.
  apply take_ge. rewrite length_drop. lia.
Qed.

Lemma slice_prefix (s : str) (k : nat) :
  (k ≤ length s)%nat → slice s 0 (Some (Z.of_nat k)) = take k s.
Proof.
  intros Hle. unfold slice, rel_index, js_length. simpl.
  destruct (Z.ltb_spec (Z.of_nat k) 0); [lia|].
  rewrite Z.min_l by lia. rewrite Z.min_l by lia. simpl.
  f_equal. lia.
Qed.

Lemma slice_from (s : str) (k : nat) :
  slice s (Z.of_nat k) None = drop k s.
Proof.
  unfold slice, rel_index, js_length.
  destruct (Z.ltb_spec (Z.of_nat k) 0); [lia|].
  destruct (Nat.le_gt_cases k (length s)).
  - rewrite Z.min_l by lia. rewrite Nat2Z.id.
    apply take_ge. rewrite length_drop. lia.
  - rewrite Z.min_r by lia. rewrite Nat2Z.id.
    rewrite !drop_ge by lia. by rewrite take_nil.
Qed.

(** ** The largest overlap *)

Lemma is_overlap_0 prev fragment : is_overlap prev fragment 0.
Proof.
  split; [lia|]. rewrite Nat.sub_0_r, drop_all. reflexivity.
Qed.

Lemma find_overlap_le prev fragment n : (find_overlap prev fragment n ≤ n)%nat.
Proof.
  induction n as [|n IH]; [done|]. cbn [find_overlap].
  destruct (decide _); lia.
Qed.

Lemma find_overlap_spec prev fragment (n : nat) :
  (n ≤ Nat.min (length prev) (length fragment))%nat →
  is_overlap prev fragment (find_overlap prev fragment n) ∧
  ∀ j, (j ≤ n)%nat → is_overlap prev fragment j →
       (j ≤ find_overlap prev fragment n)%nat.
Proof.
  induction n as [|n IH]; intros Hn.
  - split; [apply is_overlap_0|intros; lia].
  - cbn [find_overlap]. destruct (decide _) as [Heq|Hne].
    + split; [split; [lia|exact Heq]|tauto].
    + destruct IH as [Hov Hmax]; [lia|]. split; [exact Hov|].
      intros j Hj Hovj.
      destruct (decide (j = S n)) as [->|]; [|apply Hmax; [lia|done]].
      destruct Hovj as [_ Hovj]. contradiction.
Qed.

Lemma max_overlap_largest prev fragment :
  largest_overlap prev fragment (max_overlap prev fragment).
Proof.
  destruct (find_overlap_spec prev fragment
              (Nat.min (length prev) (length fragment))) as [Hov Hmax]; [lia|].
  split; [exact Hov|]. intros j Hj. apply Hmax; [apply Hj|exact Hj].
Qed.

Lemma largest_overlap_unique prev fragment k1 k2 :
  largest_overlap prev fragment k1 → largest_overlap prev fragment k2 → k1 = k2.
Proof.
  intros [H1 M1] [H2 M2]. apply Nat.le_antisymm; [apply M2|apply M1]; done.
Qed.

Lemma overlap_loop_find prev fragment (n : nat) :
  (n ≤ Nat.min (length prev) (length fragment))%nat →
  Client.overlap_loop prev fragment n
  = prev ++ drop (find_overlap prev fragment n) fragment.
Proof.
  induction n as [|n IH]; intros Hn; [done|].
  cbn [Client.overlap_loop find_overlap].
  rewrite slice_suffix, slice_prefix, slice_from by lia.
  destruct (decide _); [done|]. apply IH. lia.
Qed.

Lemma unguarded_max_overlap prev fragment :
  Client.mergeWithOverlap_unguarded prev fragment
  = prev ++ drop (max_overlap prev fragment) fragment.
Proof. apply overlap_loop_find. lia. Qed.

(** The guard of the current component changes nothing: both variants
    compute the same string. *)
Lemma mergeWithOverlap_unguarded_eq prev fragment :
  Client.mergeWithOverlap prev fragment
  = Client.mergeWithOverlap_unguarded prev fragment.
Proof.
  unfold Client.mergeWithOverlap, Client.mergeWithOverlap_unguarded.
  destruct prev as [|c prev]; [by destruct fragment|].
  destruct fragment as [|d fragment]; [|done].
  cbn. by rewrite app_nil_r.
Qed.

Lemma mergeWithOverlap_max_overlap prev fragment :
  Client.mergeWithOverlap prev fragment
  = prev ++ drop (max_overlap prev fragment) fragment.
Proof. rewrite mergeWithOverlap_unguarded_eq. apply unguarded_max_overlap. Qed.

(** The merged text ends with the fragment. *)
Lemma mergeWithOverlap_ends prev fragment :
  Client.mergeWithOverlap prev fragment
  = take (length prev - max_overlap prev fragment) prev ++ fragment.
Proof.
  rewrite mergeWithOverlap_max_overlap.
  destruct (max_overlap_largest prev fragment) as [[Hle Heq] _].
  rewrite <- (take_drop (length prev - max_overlap prev fragment) prev) at 1.
  rewrite Heq, <- app_assoc, take_drop. reflexivity.
Qed.

(** An overlap no longer than [a] only looks at [a]. *)
Lemma is_overlap_app_l p a b j :
  (j ≤ length a)%nat → is_overlap (p ++ a) b j ↔ is_overlap a b j.
Proof.
  intros Hj. unfold is_overlap. rewrite length_app.
  replace (length p + length a - j)%nat with (length p + (length a - j))%nat by lia.
  rewrite drop_app_add. split; intros [H1 H2]; (split; [lia|exact H2]).
Qed.

Lemma is_overlap_app_r s a q j :
  (j ≤ length a)%nat → is_overlap s (a ++ q) j ↔ is_overlap s a j.
Proof.
  intros Hj. unfold is_overlap. rewrite length_app, take_app_le by lia.
  split; intros [H1 H2]; (split; [lia|exact H2]).
Qed.

Lemma largest_overlap_app_l p a b k :
  largest_overlap (p ++ a) b k → (k ≤ length a)%nat → largest_overlap a b k.
Proof.
  intros [Hov Hmax] Hk. split; [by apply (is_overlap_app_l p)|].
  intros j Hj. apply Hmax. apply is_overlap_app_l; [|done].
  destruct Hj as [Hj _]. lia.
Qed.

Lemma largest_overlap_app_r s a q k :
  largest_overlap s (a ++ q) k → (k ≤ length a)%nat → largest_overlap s a k.
Proof.
  intros [Hov Hmax] Hk. split; [by apply (is_overlap_app_r s a q)|].
  intros j Hj. apply Hmax. apply is_overlap_app_r; [|done].
  destruct Hj as [Hj _]. lia.
Qed.

(** Merging is associative as long as neither search reaches past the
    middle fragment. *)
Lemma mergeWithOverlap_assoc_bounded (s a b : str) :
  (max_overlap (Client.mergeWithOverlap s a) b ≤ length a)%nat →
  (max_overlap s (Client.mergeWithOverlap a b) ≤ length a)%nat →
  Client.mergeWithOverlap (Client.mergeWithOverlap s a) b
  = Client.mergeWithOverlap s (Client.mergeWithOverlap a b).
Proof.
  intros H1 H2.
  assert (K1 : max_overlap (Client.mergeWithOverlap s a) b = max_overlap a b).
  { pose proof (max_overlap_largest (Client.mergeWithOverlap s a) b) as L1.
    revert H1 L1. rewrite (mergeWithOverlap_ends s a). intros H1 L1.
    apply largest_overlap_app_l in L1; [|exact H1].
    exact (largest_overlap_unique _ _ _ _ L1 (max_overlap_largest a b)). }
  assert (K2 : max_overlap s (Client.mergeWithOverlap a b) = max_overlap s a).
  { pose proof (max_overlap_largest s (Client.mergeWithOverlap a b)) as L2.
    revert H2 L2. rewrite (mergeWithOverlap_max_overlap a b). intros H2 L2.
    apply largest_overlap_app_r in L2; [|exact H2].
    exact (largest_overlap_unique _ _ _ _ L2 (max_overlap_largest s a)). }
  rewrite (mergeWithOverlap_max_overlap (Client.mergeWithOverlap s a) b), K1.
  rewrite (mergeWithOverlap_max_overlap s (Client.mergeWithOverlap a b)), K2.
  rewrite (mergeWithOverlap_max_overlap a b), (mergeWithOverlap_max_overlap s a).
  rewrite drop_app_le; [by rewrite app_assoc|].
  destruct (max_overlap_largest s a) as [[Hle _] _]. lia.
Qed.

(** [C1] For all strings [prev] and [fragment], [mergeWithOverlap] returns
    the other string when either is empty; in every case it returns [prev]
    followed by [fragment] without its first [k] code units, where [k] is the
    largest number bounded by both lengths such that the last [k] code units
    of [prev] are the first [k] of [fragment] ([k = 0] is plain
    concatenation).  The unguarded variant of the earlier component returns
    the same string, and the five sample merges evaluate as documented. *)
Theorem mergeWithOverlap_spec :
  ∀ prev fragment : str,
    Client.mergeWithOverlap [] fragment = fragment ∧
    Client.mergeWithOverlap prev [] = prev ∧
    (∃ k, largest_overlap prev fragment k ∧
          Client.mergeWithOverlap prev fragment = prev ++ drop k fragment ∧
          Client.mergeWithOverlap_unguarded prev fragment = prev ++ drop k fragment) ∧
    Client.mergeWithOverlap (lit "ab") (lit "bc") = lit "abc" ∧
    Client.mergeWithOverlap [] (lit "x") = lit "x" ∧
    Client.mergeWithOverlap (lit "x") [] = lit "x" ∧
    Client.mergeWithOverlap (lit "abc") (lit "xyz") = lit "abcxyz" ∧
    Client.mergeWithOverlap (lit "hello wor") (lit "world!") = lit "hello world!".
Proof.
  intros prev fragment.
  split; [by destruct fragment|].
  split; [by destruct prev|].
  split; [|by vm_compute].
  exists (max_overlap prev fragment).
  split; [apply max_overlap_largest|].
  split; [apply mergeWithOverlap_max_overlap|apply unguarded_max_overlap].
Qed.

(** [C9] Merging a string with itself gives the string back; when the
    fragment is a suffix of the accumulated text ([prev = p ++ fragment]) the
    merge returns the accumulated text; so delivering a fragment a second
    time, right after it was merged, changes nothing. *)
Theorem mergeWithOverlap_suffix_absorbed :
  ∀ a p fragment s : str,
    Client.mergeWithOverlap a a = a ∧
    Client.mergeWithOverlap (p ++ fragment) fragment = p ++ fragment ∧
    Client.mergeWithOverlap (Client.mergeWithOverlap s fragment) fragment
    = Client.mergeWithOverlap s fragment.
Proof.
  assert (Hsuf : ∀ p f : str,
             Client.mergeWithOverlap (p ++ f) f = p ++ f).
  { intros p f. rewrite mergeWithOverlap_max_overlap.
    destruct (max_overlap_largest (p ++ f) f) as [[Hle _] Hmax].
    assert (Hov : is_overlap (p ++ f) f (length f)).
    { split; [rewrite length_app; lia|].
      rewrite length_app, Nat.add_sub, drop_app_length.
      by rewrite take_ge. }
    apply Hmax in Hov.
    rewrite drop_ge by lia. by rewrite app_nil_r. }
  intros a p fragment s. split; [apply (Hsuf [] a)|].
  split; [apply Hsuf|].
  rewrite (mergeWithOverlap_ends s fragment). apply Hsuf.
Qed.

(** ** Lines and the meaningful-change counter *)

Lemma split_on_cons_exists sep (s : str) : ∃ l ls, split_on sep s = l :: ls.
Proof.
  destruct s as [|c s]; [by eexists _, _|]. cbn [split_on].
  destruct (decide _); [by eexists _, _|].
  destruct (split_on sep s); by eexists _, _.
Qed.

Lemma split_on_app sep (a b : str) :
  split_on sep (a ++ sep :: b) = split_on sep a ++ split_on sep b.
Proof.
  induction a as [|c a IH]; cbn [split_on app].
  - by rewrite decide_True.
  - destruct (decide _); [by rewrite IH|]. rewrite IH.
    destruct (split_on_cons_exists sep a) as (l & ls & ->). done.
Qed.

Lemma split_on_no_sep sep (s : str) : sep ∉ s → split_on sep s = [s].
Proof.
  induction s as [|c s IH]; intros Hs; [done|]. cbn [split_on].
  rewrite not_elem_of_cons in Hs. destruct Hs as [Hc Hs].
  rewrite decide_False by done. by rewrite IH.
Qed.

Lemma trimStart_snoc (l : str) c :
  is_space c = false → ∃ l', trimStart (l ++ [c]) = l' ++ [c].
Proof.
  intros Hc. induction l as [|d l IH]; cbn [trimStart app].
  - rewrite Hc. by exists [].
  - destruct (is_space d); [exact IH|]. by exists (d :: l).
Qed.

(** Trimming keeps a first code unit that is not white space. *)
Lemma trim_keeps_head c (rest : str) :
  is_space c = false → ∃ t, trim (c :: rest) = c :: t.
Proof.
  intros Hc. unfold trim, trimEnd. cbn [trimStart]. rewrite Hc.
  rewrite reverse_cons.
  destruct (trimStart_snoc (reverse rest) c Hc) as [l' ->].
  exists (reverse l'). by rewrite reverse_snoc.
Qed.

Lemma is_changed_line_inv line :
  is_changed_line line = true →
  ∃ rest, line = "+"%char :: rest ∨ line = "-"%char :: rest.
Proof.
  unfold is_changed_line. destruct line as [|c rest]; [done|]. cbn.
  destruct (decide ("+"%char = c)) as [<-|]; [eauto|].
  destruct (decide ("-"%char = c)) as [<-|]; [eauto|done].
Qed.

(** On a changed line the first test of [isMeaningfulCodeChange] never
    fires: the trimmed line starts with the diff marker. *)
Lemma blank_or_comment_changed line :
  is_changed_line line = true → blank_or_comment line = false.
Proof.
  intros H. destruct (is_changed_line_inv line H) as [rest [-> | ->]].
  - destruct (trim_keeps_head "+" rest eq_refl) as [t Ht].
    unfold blank_or_comment. rewrite Ht. done.
  - destruct (trim_keeps_head "-" rest eq_refl) as [t Ht].
    unfold blank_or_comment. rewrite Ht. done.
Qed.

Lemma filter_filter_bool {A} (p q : A → bool) (l : list A) :
  filter (λ x, q x = true) (filter (λ x, p x = true) l)
  = filter (λ x, (p x && q x) = true) l.
Proof.
  induction l as [|x l IH]; [done|].
  rewrite !filter_cons. destruct (p x) eqn:Hp; cbn.
  - rewrite decide_True by done. rewrite filter_cons, IH.
    destruct (q x); done.
  - rewrite decide_False by done. rewrite decide_False by done. exact IH.
Qed.

Lemma filter_ext_bool {A} (p q : A → bool) (l : list A) :
  (∀ x, p x = q x) →
  filter (λ x, p x = true) l = filter (λ x, q x = true) l.
Proof.
  intros H. apply list_filter_iff. intros x. by rewrite H.
Qed.

Lemma conservative_count_lines diff :
  Conservative.countMeaningfulChanges diff
  = count_lines counted_plain (split_on LF diff).
Proof.
  unfold Conservative.countMeaningfulChanges, count_lines.
  rewrite filter_filter_bool. do 2 f_equal. apply filter_ext_bool.
  intros line. unfold counted_plain, Conservative.isMeaningfulCodeChange.
  destruct (is_changed_line line) eqn:Hc; [|done].
  rewrite (blank_or_comment_changed line Hc).
  by destruct (whitespace_only_change line).
Qed.

Lemma permissive_count_lines diff :
  Permissive.countMeaningfulChanges diff
  = count_lines counted_strict (split_on LF diff).
Proof.
  unfold Permissive.countMeaningfulChanges, count_lines.
  rewrite filter_filter_bool. do 2 f_equal. apply filter_ext_bool.
  intros line.
  unfold counted_strict, counted_plain, Permissive.isMeaningfulCodeChange.
  destruct (is_changed_line line) eqn:Hc; [|done].
  rewrite (blank_or_comment_changed line Hc).
  destruct (whitespace_only_change line); [done|].
  destruct (match_version line); [done|].
  by destruct (match_dependencies line).
Qed.

Lemma count_lines_app counted l1 l2 :
  count_lines counted (l1 ++ l2)
  = (count_lines counted l1 + count_lines counted l2)%Z.
Proof. unfold count_lines. rewrite filter_app, length_app. lia. Qed.

Lemma count_lines_one counted line :
  count_lines counted [line] = if counted line then 1%Z else 0%Z.
Proof.
  unfold count_lines. rewrite filter_cons.
  destruct (counted line); [by rewrite decide_True|by rewrite decide_False].
Qed.

Lemma remove_spaces_app (a b : str) :
  remove_spaces (a ++ b) = remove_spaces a ++ remove_spaces b.
Proof. apply filter_app. Qed.

(** A file-header line is a changed line and not a white-space change. *)
Lemma header_counted_plain (path : str) :
  counted_plain (lit "+++ b/" ++ path) = true ∧
  counted_plain (lit "--- a/" ++ path) = true.
Proof.
  unfold counted_plain, whitespace_only_change.
  rewrite !remove_spaces_app. split; done.
Qed.

(** [C10] [countMeaningfulChanges] counts every line that begins with [+]
    or [-] and is not a pure white-space change (the stricter variant also
    leaves out the lines matching the version or dependency patterns).  A
    unified-diff file header such as [+++ b/path] or [--- a/path] is such a
    line: wherever it stands in the diff it adds 1 to the count (in the
    stricter variant unless it matches one of the two patterns). *)
Theorem countMeaningfulChanges_counts_headers :
  ∀ (diff hdr path : str) (before after : list str),
    hdr = lit "+++ b/" ++ path ∨ hdr = lit "--- a/" ++ path →
    split_on LF diff = before ++ hdr :: after →
    Conservative.countMeaningfulChanges diff
    = count_lines counted_plain (split_on LF diff) ∧
    Permissive.countMeaningfulChanges diff
    = count_lines counted_strict (split_on LF diff) ∧
    Conservative.countMeaningfulChanges diff
    = (count_lines counted_plain before + 1 + count_lines counted_plain after)%Z ∧
    Permissive.countMeaningfulChanges diff
    = (count_lines counted_strict before
       + (if match_version hdr || match_dependencies hdr then 0 else 1)
       + count_lines counted_strict after)%Z.
Proof.
  intros diff hdr path before after Hhdr Hsplit.
  assert (Hc : counted_plain hdr = true).
  { destruct Hhdr as [-> | ->]; apply header_counted_plain. }
  split; [apply conservative_count_lines|].
  split; [apply permissive_count_lines|].
  rewrite conservative_count_lines, permissive_count_lines, Hsplit.
  change (hdr :: after) with ([hdr] ++ after).
  rewrite !count_lines_app, !count_lines_one.
  unfold counted_strict. rewrite Hc. split; [lia|].
  destruct (match_version hdr), (match_dependencies hdr); cbn; lia.
Qed.

Lemma countMeaningfulChanges_counts_headers_witness :
  Conservative.countMeaningfulChanges (lit "--- a/src/x.ts
+++ b/src/x.ts
+const a = 1;") = 3%Z.
Proof.
  pose proof (countMeaningfulChanges_counts_headers
    (lit "--- a/src/x.ts
+++ b/src/x.ts
+const a = 1;") (lit "+++ b/src/x.ts") (lit "src/x.ts")
    [lit "--- a/src/x.ts"] [lit "+const a = 1;"]
    (or_introl eq_refl) eq_refl) as (_ & _ & H & _).
  exact H.
Defined.

(** [C4] Comment lines of a diff are counted: the comment test is applied to
    the whole line, which still carries its [+] or [-] marker, so it never
    holds on a changed line.  At the diff [+// just a comment] both variants
    return 1, where the claim has the line excluded (0). *)
Theorem comment_lines_are_counted :
  ∀ rest : str,
    blank_or_comment ("+"%char :: rest) = false ∧
    blank_or_comment ("-"%char :: rest) = false ∧
    Conservative.countMeaningfulChanges (lit "+// just a comment") = 1%Z ∧
    Permissive.countMeaningfulChanges (lit "+// just a comment") = 1%Z ∧
    Conservative.countMeaningfulChanges (lit "+a
-  /* removed note */
+b") = 3%Z.
Proof.
  intros rest.
  split; [by apply blank_or_comment_changed|].
  split; [by apply blank_or_comment_changed|].
  by vm_compute.
Qed.

(** ** [filterPRs] *)

(** The claim [C8] as stated fails: no bound computed from the policy (5 for
    the conservative preset, none for the permissive one) describes both
    variants.  With six relevant items the capped variant returns five under
    the permissive preset. *)
Lemma filterPRs_cap_not_set_by_policy :
  ¬ ∃ cap : PRFilter → option nat,
      cap Conservative.DEFAULT_FILTERS = Some 5%nat ∧
      cap Permissive.DEFAULT_FILTERS = None ∧
      cap_set_by_policy Conservative.filterPRs Conservative.isRelevantPR cap ∧
      cap_set_by_policy Permissive.filterPRs Permissive.isRelevantPR cap.
Proof.
  intros (cap & _ & Hperm & Hc & _).
  specialize (Hc six_items Permissive.DEFAULT_FILTERS).
  rewrite Hperm in Hc. apply (f_equal length) in Hc.
  vm_compute in Hc. discriminate Hc.
Qed.

(** [C8], amended.  For every input sequence and every policy, both variants
    of [filterPRs] return relevant items only, in their input order.  The
    variant of [src/lib/pr-filters.ts] returns the first five relevant items
    (all of them when there are at most five), whatever policy it is given;
    the sibling variant returns every relevant item, whatever policy it is
    given.  The cap belongs to the variant, not to the policy. *)
Theorem filterPRs_spec :
  ∀ (prs : list DiffItem) (f : PRFilter),
    let relevant_c := filter (λ pr, Conservative.isRelevantPR pr f = true) prs in
    Conservative.filterPRs prs f `sublist_of` prs ∧
    (∀ pr, pr ∈ Conservative.filterPRs prs f →
           pr ∈ prs ∧ Conservative.isRelevantPR pr f = true) ∧
    Conservative.filterPRs prs f `prefix_of` relevant_c ∧
    length (Conservative.filterPRs prs f) = Nat.min 5 (length relevant_c) ∧
    Permissive.filterPRs prs f `sublist_of` prs ∧
    (∀ pr, pr ∈ Permissive.filterPRs prs f ↔
           pr ∈ prs ∧ Permissive.isRelevantPR pr f = true).
Proof.
  intros prs f relevant_c. unfold Conservative.filterPRs, Permissive.filterPRs.
  fold relevant_c.
  split. { etrans; [apply sublist_take|apply sublist_filter]. }
  split.
  { intros pr Hin. apply (sublist_subseteq _ _ (sublist_take _ _)) in Hin.
    apply list_elem_of_filter in Hin. tauto. }
  split. { apply prefix_take. }
  split. { apply length_take. }
  split. { apply sublist_filter. }
  intros pr. rewrite list_elem_of_filter. tauto.
Qed.

(** ** The orchestrator: what a computation appends to the stream *)

Section RouteFacts.
Import Route.
Variable env : Env.

Local Abbreviation emits := (emits env).
Local Abbreviation wrote := (wrote env).
Local Abbreviation writes_succeed := (writes_succeed env).

Lemma emits_weaken {A} (m : M A) (P Q : Result A → list Frame → Prop) :
  emits m P → (∀ r tr, P r tr → Q r tr) → emits m Q.
Proof.
  intros Hm HPQ w. destruct (Hm w) as (tr & Hw & Hc & HP). eauto.
Qed.

Lemma emits_ret {A} (a : A) : emits (ret a) (λ r tr, r = Ok a ∧ tr = []).
Proof. intros w. exists []. cbn. by rewrite app_nil_r. Qed.

Lemma emits_throw {A} (e : exn) :
  emits (throw (A:=A) e) (λ r tr, r = Throw e ∧ tr = []).
Proof. intros w. exists []. cbn. by rewrite app_nil_r. Qed.

Lemma emits_bind {A B} (m : M A) (k : A → M B) P Q (R : Result B → list Frame → Prop) :
  emits m P →
  (∀ a, emits (k a) (Q a)) →
  (∀ a tr1 r tr2, P (Ok a) tr1 → Q a r tr2 → R r (tr1 ++ tr2)) →
  (∀ e tr, P (Throw e) tr → R (Throw e) tr) →
  emits (bind m k) R.
Proof.
  intros Hm Hk Hok Hthrow w. unfold bind.
  destruct (Hm w) as (tr1 & Hw1 & Hc1 & HP).
  destruct (m env w) as [[a|e] w1]; cbn in *.
  - destruct (Hk a w1) as (tr2 & Hw2 & Hc2 & HQ).
    exists (tr1 ++ tr2). rewrite Hw2, Hw1, Hc2, Hc1, app_assoc. eauto.
  - exists tr1. eauto.
Qed.

Lemma emits_try_catch {A} (m : M A) (h : exn → M A) P Q (R : Result A → list Frame → Prop) :
  emits m P →
  (∀ e, emits (h e) (Q e)) →
  (∀ a tr, P (Ok a) tr → R (Ok a) tr) →
  (∀ e tr1 r tr2, P (Throw e) tr1 → Q e r tr2 → R r (tr1 ++ tr2)) →
  emits (try_catch m h) R.
Proof.
  intros Hm Hh Hok Hthrow w. unfold try_catch.
  destruct (Hm w) as (tr1 & Hw1 & Hc1 & HP).
  destruct (m env w) as [[a|e] w1]; cbn in *.
  - exists tr1. eauto.
  - destruct (Hh e w1) as (tr2 & Hw2 & Hc2 & HQ).
    exists (tr1 ++ tr2). rewrite Hw2, Hw1, Hc2, Hc1, app_assoc. eauto.
Qed.

Lemma emits_writer_write f : emits (writer_write f) (wrote f).
Proof.
  intros w. unfold writer_write.
  destruct (write_outcome env (writes w)) as [e|] eqn:Hout; cbn.
  - exists []. rewrite app_nil_r. split; [done|]. split; [done|]. right.
    split; [|eauto]. intros Hall. by rewrite Hall in Hout.
  - exists [f]. split; [done|]. split; [done|]. by left.
Qed.

Lemma emits_sendError message :
  emits (sendError message) (wrote (ErrorFrame message)).
Proof. apply emits_writer_write. Qed.

Lemma emits_send pr c obj :
  emits (send pr c obj) (wrote (SectionFrame (id pr) c obj)).
Proof.
  unfold send.
  eapply emits_try_catch;
    [apply emits_writer_write|intros e; apply emits_throw|..].
  - intros [] tr H. exact H.
  - intros e tr1 r tr2 [[? _]|(Hw & _ & ->)] [-> ->]; [done|].
    right. eauto.
Qed.

Lemma emits_create rq :
  emits (create rq) (λ r tr, tr = []).
Proof.
  intros w. exists []. unfold create. rewrite app_nil_r.
  destruct (create_outcome env (requests w) rq); done.
Qed.

(** The chunk loop appends content frames of its channel only. *)
Lemma emits_for_await pr c s :
  emits (for_await pr c s) (λ r tr, ∃ l, tr = content_frames (id pr) c l).
Proof.
  induction s as [|e|content next IH]; cbn [for_await].
  - eapply emits_weaken; [apply emits_ret|]. intros r tr [_ ->]. by exists [].
  - eapply emits_weaken; [apply emits_throw|]. intros r tr [_ ->]. by exists [].
  - eapply emits_bind with
      (P := λ r tr, ∃ l, tr = content_frames (id pr) c l)
      (Q := λ _ r tr, ∃ l, tr = content_frames (id pr) c l).
    + destruct content as [x|]; [destruct (truthy_str x)|].
      * eapply emits_weaken; [apply emits_send|].
        intros r tr [[_ ->]|(_ & _ & ->)]; [by exists [x]|by exists []].
      * eapply emits_weaken; [apply emits_ret|]. intros r tr [_ ->]. by exists [].
      * eapply emits_weaken; [apply emits_ret|]. intros r tr [_ ->]. by exists [].
    + intros _. exact IH.
    + intros ? tr1 r tr2 [l1 ->] [l2 ->]. exists (l1 ++ l2).
      unfold content_frames. by rewrite map_app.
    + intros e tr H. exact H.
Qed.

End RouteFacts.

Section RouteItems.
Import Route.
Variable env : Env.

Local Abbreviation emits := (emits env).
Local Abbreviation wrote := (wrote env).

(** The opening frame, the chunk loop, and whatever follows them. *)
Lemma emits_open_loop pr c s (rest : M unit) K :
  emits rest K →
  emits (send pr c (ContentObj []) ;; for_await pr c s ;; rest)
    (λ r tr,
       (∃ l tr2, tr = (SectionFrame (id pr) c (ContentObj [])
                       :: content_frames (id pr) c l) ++ tr2 ∧ K r tr2) ∨
       ((∃ e, r = Throw e) ∧
        ∃ l, tr `prefix_of` (SectionFrame (id pr) c (ContentObj [])
                              :: content_frames (id pr) c l))).
Proof.
  intros Hrest.
  eapply emits_bind with
    (Q := λ _ r tr,
       (∃ l tr2, tr = content_frames (id pr) c l ++ tr2 ∧ K r tr2) ∨
       ((∃ e, r = Throw e) ∧ ∃ l, tr = content_frames (id pr) c l));
    [apply emits_send| |..].
  - intros _. eapply emits_bind;
      [apply emits_for_await|intros ?; apply Hrest|..].
    + intros ? tr1 r tr2 [l ->] HK. left. eauto.
    + intros e tr [l ->]. right. eauto.
  - intros [] tr1 r tr2 [[_ ->]|(_ & [e He] & _)]; [|done].
    intros [(l & tr3 & -> & HK)|(He & l & ->)].
    + left. exists l, tr3. done.
    + right. split; [done|]. by exists l.
  - intros e tr [[? _]|(_ & _ & ->)]; [done|].
    right. split; [eauto|]. exists []. apply prefix_nil.
Qed.

Lemma emits_channel pr c s :
  emits (send pr c (ContentObj []) ;; for_await pr c s ;; send pr c DoneObj)
    (channel_outcome (id pr) c).
Proof.
  eapply emits_weaken; [apply emits_open_loop, emits_send|].
  intros r tr [(l & tr2 & -> & [[-> ->]|(_ & He & ->)])|(He & l & Hpre)].
  - left. split; [done|]. exists l. unfold channel_block.
    by rewrite <- app_comm_cons.
  - right. split; [done|]. exists l. rewrite app_nil_r.
    unfold channel_block. rewrite app_comm_cons. by apply prefix_app_r.
  - right. split; [done|]. exists l. unfold channel_block.
    rewrite app_comm_cons. by apply prefix_app_r.
Qed.

Lemma item_block_unfold x ds ms :
  item_block x ds ms
  = (SectionFrame x Developer (ContentObj []) :: content_frames x Developer ds)
    ++ SectionFrame x Developer DoneObj :: channel_block x Marketing ms.
Proof.
  unfold item_block, channel_block. cbn [app]. by rewrite <- !app_assoc.
Qed.

Lemma emits_inner pr devStream :
  emits
    (send pr Developer (ContentObj []) ;;
     for_await pr Developer devStream ;;
     send pr Developer DoneObj ;;
     do marketingStream <- create (marketing_request pr);
     send pr Marketing (ContentObj []) ;;
     for_await pr Marketing marketingStream ;;
     send pr Marketing DoneObj)
    (inner_outcome (id pr)).
Proof.
  eapply emits_weaken.
  - apply emits_open_loop.
    eapply emits_bind with
      (R := λ r tr,
         (∃ tr2, tr = SectionFrame (id pr) Developer DoneObj :: tr2 ∧
                 channel_outcome (id pr) Marketing r tr2) ∨
         ((∃ e, r = Throw e) ∧ tr = []));
      [apply emits_send|intros ?| |].
    + eapply emits_bind with (R := channel_outcome (id pr) Marketing);
        [apply emits_create|intros s; apply emits_channel|..].
      * intros s tr1 r tr2 -> H. exact H.
      * intros e tr ->. right. split; [eauto|]. exists []. apply prefix_nil.
    + intros [] tr1 r tr2 [[_ ->]|(_ & [e He] & _)] H; [|done]. left. eauto.
    + intros e tr [[? _]|(_ & _ & ->)]; [done|]. right. eauto.
  - intros r tr [(ds & tr2 & -> & [(tr3 & -> & H)|(He & ->)])|(He & ds & Hpre)].
    + destruct H as [[-> [ms ->]]|[He [ms Hpre]]].
      * left. split; [done|]. exists ds, ms. by rewrite item_block_unfold.
      * right. split; [done|]. exists ds, ms. rewrite item_block_unfold.
        apply prefix_app, prefix_cons, Hpre.
    + right. split; [done|]. exists ds, []. rewrite app_nil_r.
      rewrite item_block_unfold. by apply prefix_app_r.
    + right. split; [done|]. exists ds, []. rewrite item_block_unfold.
      by apply prefix_app_r.
Qed.

Lemma emits_process_pr pr : emits (process_pr pr) (pr_outcome env pr).
Proof.
  unfold process_pr.
  eapply emits_bind with (Q := λ _, pr_outcome env pr);
    [apply emits_create|intros devStream|..].
  - eapply emits_try_catch with
      (Q := λ e r tr,
         (∃ e', r = Throw e') ∧
         (tr = [ErrorFrame (item_error_message pr e)] ∨
          (tr = [] ∧ ¬ writes_succeed env)));
      [apply emits_inner|intros e|..].
    + eapply emits_bind;
        [apply emits_sendError|intros ?; apply emits_throw|..].
      * intros [] tr1 r tr2 [[_ ->]|(_ & [? ?] & _)] [-> ->]; [|done].
        split; [eauto|]. by left.
      * intros e' tr [[? _]|(Hw & _ & ->)]; [done|]. split; [eauto|]. by right.
    + intros [] tr [[_ H]|[[e ?] _]]; [|done]. by left.
    + intros e tr1 r tr2 [[? _]|[_ (ds & ms & Hpre)]] [He HE]; [done|].
      right. split; [done|]. exists ds, ms, tr1, tr2.
      split; [done|]. split; [done|].
      destruct HE as [->|[-> Hw]]; [left; eauto|right; eauto].
  - intros s tr1 r tr2 -> H. exact H.
  - intros e tr ->. right. split; [eauto|].
    exists [], [], [], []. split; [done|]. split; [apply prefix_nil|].
    right. eauto.
Qed.

Lemma emits_for_of prs : emits (for_of prs) (loop_outcome env prs).
Proof.
  induction prs as [|pr rest IH]; cbn [for_of].
  - eapply emits_weaken; [apply emits_ret|]. intros r tr [-> ->].
    left. split; [done|constructor].
  - eapply emits_bind;
      [apply emits_process_pr|intros ?; apply IH|..].
    + intros [] tr1 r tr2 [[_ (ds & ms & ->)]|[[? ?] _]]; [|done].
      intros [[-> Hc]|[He H]].
      * left. split; [done|]. by constructor.
      * right. split; [done|].
        destruct H as (done & p & rest' & blocks & ds' & ms' & B & E
                       & -> & Hc & -> & Hpre & HE).
        exists (pr :: done), p, rest', (item_block (id pr) ds ms ++ blocks),
          ds', ms', B, E.
        split; [done|]. split; [by constructor|].
        split; [by rewrite <- app_assoc|]. done.
    + intros e tr [[? _]|[_ (ds & ms & B & E & -> & Hpre & HE)]]; [done|].
      right. split; [eauto|].
      exists [], pr, rest, [], ds, ms, B, E.
      split; [done|]. split; [constructor|]. done.
Qed.

(** The whole asynchronous block: the frames of the loop, then the generic
    error frame if the loop raised, and the writer closed once more. *)
Lemma writer_close_world w :
  written (writer_close env w).2 = written w ∧
  closed (writer_close env w).2 = S (closed w) ∧
  writes (writer_close env w).2 = writes w ∧
  requests (writer_close env w).2 = requests w.
Proof. unfold writer_close. by destruct (write_outcome env (writes w)). Qed.

Lemma try_finally_close_world {A} (m : M A) w :
  written (try_finally m writer_close env w).2 = written (m env w).2 ∧
  closed (try_finally m writer_close env w).2 = S (closed (m env w).2) ∧
  writes (try_finally m writer_close env w).2 = writes (m env w).2 ∧
  requests (try_finally m writer_close env w).2 = requests (m env w).2.
Proof.
  unfold try_finally. destruct (m env w) as [r w1]. cbn [snd].
  pose proof (writer_close_world w1) as H.
  by destruct (writer_close env w1) as [[[]|e] w2].
Qed.

Lemma stream_notes_written prs w :
  ∃ tr E2,
    written (stream_notes prs env w).2 = written w ++ tr ++ E2 ∧
    closed (stream_notes prs env w).2 = S (closed w) ∧
    loop_outcome env prs (for_of prs env w).1 tr ∧
    match (for_of prs env w).1 with
    | Ok _ => E2 = []
    | Throw _ =>
        E2 = [ErrorFrame internal_error_message] ∨
        (E2 = [] ∧ ¬ writes_succeed env)
    end.
Proof.
  destruct (emits_for_of prs w) as (tr & Hw & Hc & Hout).
  unfold stream_notes.
  destruct (try_finally_close_world
              (try_catch (for_of prs) (λ err, sendError internal_error_message))
              w) as (-> & -> & _).
  unfold try_catch.
  destruct (for_of prs env w) as [[[]|e] w1]; cbn [fst snd] in *.
  - exists tr, []. rewrite app_nil_r, Hw, Hc. done.
  - destruct (emits_sendError env internal_error_message w1)
      as (tr2 & Hw2 & Hc2 & H2).
    exists tr, tr2. rewrite Hw2, Hw, Hc2, Hc, app_assoc.
    split; [done|]. split; [done|]. split; [done|].
    destruct H2 as [[_ ->]|(? & _ & ->)]; eauto.
Qed.

End RouteItems.

(** ** The frames of a run *)

Section RouteTrace.
Import Route.

Lemma channel_block_frames x c l :
  Forall (frame_of x c) (channel_block x c l).
Proof.
  unfold channel_block, content_frames.
  apply Forall_cons. split; [by eexists|].
  apply Forall_app. split; [|apply Forall_singleton; by eexists].
  apply Forall_fmap, Forall_true. intros s. by eexists.
Qed.

Lemma item_block_carries x ds ms :
  Forall (frame_carries x) (item_block x ds ms).
Proof.
  unfold item_block. apply Forall_app.
  split; (eapply Forall_impl; [apply channel_block_frames|]);
    intros f [obj ->]; by eexists _, _.
Qed.

Lemma frame_carries_not_error x f :
  frame_carries x f → is_error_frame f = false.
Proof. by intros (c & obj & ->). Qed.

Lemma item_block_no_error x ds ms :
  Forall (λ f, is_error_frame f = false) (item_block x ds ms).
Proof.
  eapply Forall_impl; [apply item_block_carries|].
  intros f. apply frame_carries_not_error.
Qed.

Lemma Forall_prefix {A} (P : A → Prop) (l1 l2 : list A) :
  l1 `prefix_of` l2 → Forall P l2 → Forall P l1.
Proof. intros [k ->] H. by apply Forall_app in H as [H _]. Qed.

Lemma complete_no_error prs tr :
  complete prs tr → Forall (λ f, is_error_frame f = false) tr.
Proof.
  induction 1 as [|pr rest ds ms tr _ IH]; [constructor|].
  apply Forall_app. split; [apply item_block_no_error|exact IH].
Qed.

Lemma complete_emitted prs tr : complete prs tr → emitted prs tr.
Proof. induction 1; by constructor. Qed.

Lemma abort_emitted done pr rest blocks ds ms B E :
  complete done blocks →
  B `prefix_of` item_block (id pr) ds ms →
  Forall (λ f, is_error_frame f = true) E →
  emitted (done ++ pr :: rest) (blocks ++ B ++ E).
Proof.
  intros Hc Hpre HE. induction Hc as [|p done' ds' ms' tr _ IH]; cbn [app].
  - by econstructor.
  - rewrite <- app_assoc. by constructor.
Qed.

(** Every run emits frames of the shape [emitted] and closes the writer
    exactly once. *)
Lemma stream_notes_emitted env prs :
  emitted prs (written (stream_notes prs env initial).2) ∧
  closed (stream_notes prs env initial).2 = 1%nat.
Proof.
  destruct (stream_notes_written env prs initial) as (tr & E2 & Hw & Hc & Hout & HE2).
  rewrite Hw, Hc. split; [|done]. cbn [written initial app].
  destruct (for_of prs env initial).1 as [[]|e].
  - subst E2. rewrite app_nil_r.
    destruct Hout as [[_ Hc']|[[? ?] _]]; [|done]. by apply complete_emitted.
  - destruct Hout as [[? _]|[_ H]]; [done|].
    destruct H as (done & pr & rest & blocks & ds & ms & B & E
                   & -> & Hcomp & -> & Hpre & HE).
    rewrite <- !app_assoc. eapply abort_emitted; [done..|].
    apply Forall_app. split.
    + destruct HE as [[e' ->]|[-> _]]; [|constructor].
      by apply Forall_singleton.
    + destruct HE2 as [->|[-> _]]; [|constructor]. by apply Forall_singleton.
Qed.

(** The claim [C5] as stated fails: when the developer stream of the second
    item raises and every write resolves, two error frames are written, not
    one. *)
Lemma abort_writes_two_error_frames :
  ¬ ∀ env done pr rest w0,
      for_of done env initial = (Ok tt, w0) →
      item_succeeds env pr w0 = false →
      length (filter (λ f, is_error_frame f = true)
                (written (stream_notes (done ++ pr :: rest) env initial).2))
      = 1%nat.
Proof.
  intros H.
  specialize (H raising_env [sample_item (lit "1")] (sample_item (lit "2"))
                [sample_item (lit "3")]
                ((for_of [sample_item (lit "1")] raising_env initial).2)
                eq_refl eq_refl).
  vm_compute in H. discriminate H.
Qed.

End RouteTrace.

(** ** Ordering of the frames *)

Section RouteOrdering.
Import Route.

(** Where an element of a concatenation stands. *)
Lemma app_split_at {A} (a b l1 l2 : list A) (f : A) :
  a ++ b = l1 ++ f :: l2 →
  (∃ l', a = l1 ++ f :: l' ∧ l2 = l' ++ b) ∨
  (∃ l', l1 = a ++ l' ∧ b = l' ++ f :: l2).
Proof.
  revert l1. induction a as [|x a IH]; intros l1 H; cbn [app] in H.
  - right. by exists l1.
  - destruct l1 as [|y l1]; cbn [app] in H.
    + injection H as -> <-. left. by exists a.
    + injection H as -> H. destruct (IH l1 H) as [(l' & -> & ->)|(l' & -> & ->)].
      * left. by exists l'.
      * right. by exists l'.
Qed.

Lemma done_in_channel_block x c l :
  SectionFrame x c DoneObj ∈ channel_block x c l.
Proof.
  unfold channel_block. apply elem_of_cons. right.
  apply elem_of_app. right. apply list_elem_of_singleton. done.
Qed.

(** The frames of a run are error frames or carry the identifier of one of
    the items. *)
Lemma emitted_frames prs tr f :
  emitted prs tr → f ∈ tr →
  is_error_frame f = true ∨ ∃ pr, pr ∈ prs ∧ frame_carries (id pr) f.
Proof.
  induction 1 as [|pr rest ds ms tr _ IH|pr rest ds ms B E Hpre HE]; intros Hin.
  - by apply elem_of_nil in Hin.
  - apply elem_of_app in Hin as [Hin|Hin].
    + right. exists pr. split; [by left|].
      by apply (proj1 (Forall_forall _ _) (item_block_carries (id pr) ds ms)).
    + destruct (IH Hin) as [?|(p & Hp & Hf)]; [by left|].
      right. exists p. split; [by right|done].
  - apply elem_of_app in Hin as [Hin|Hin].
    + right. exists pr. split; [by left|].
      apply (proj1 (Forall_forall _ _)
               (Forall_prefix _ _ _ Hpre (item_block_carries (id pr) ds ms))).
      done.
    + left. by apply (proj1 (Forall_forall _ _) HE).
Qed.

Lemma emitted_other_id prs tr x f :
  emitted prs tr → x ∉ map id prs → f ∈ tr → ¬ frame_carries x f.
Proof.
  intros Hem Hx Hin (c & obj & ->).
  destruct (emitted_frames _ _ _ Hem Hin) as [?|(p & Hp & (c' & obj' & Heq))];
    [done|].
  injection Heq as -> _ _. apply Hx.
  apply list_elem_of_fmap. by exists p.
Qed.

(** Inside one item's frames (or a prefix of them followed by [tail]), a
    marketing frame has the developer completion frame before it and only
    marketing frames or frames of [tail] after it. *)
Lemma block_marketing_split x ds ms K tail l1 f l2 :
  item_block x ds ms = (l1 ++ f :: l2) ++ K →
  (∃ obj, f = SectionFrame x Marketing obj) →
  SectionFrame x Developer DoneObj ∈ l1 ∧
  ∀ g, g ∈ l2 ++ tail → frame_of x Developer g → g ∈ tail.
Proof.
  intros Hblock [obj ->]. unfold item_block in Hblock.
  rewrite <- app_assoc in Hblock. cbn [app] in Hblock.
  destruct (app_split_at _ _ _ _ _ Hblock) as [(l' & Hd & _)|(l' & -> & Hm)].
  - pose proof (channel_block_frames x Developer ds) as Hall.
    rewrite Hd in Hall. apply Forall_app in Hall as [_ Hall].
    apply Forall_cons in Hall as [[obj' Hf] _]. discriminate Hf.
  - split.
    { apply elem_of_app. left. apply done_in_channel_block. }
    intros g Hg [obj' ->]. apply elem_of_app in Hg as [Hg|Hg]; [|done].
    pose proof (channel_block_frames x Marketing ms) as Hall.
    rewrite Hm in Hall. apply Forall_app in Hall as [_ Hall].
    apply Forall_cons in Hall as [_ Hall].
    apply Forall_app in Hall as [Hall _].
    apply (proj1 (Forall_forall _ _) Hall) in Hg as [obj'' Hg].
    discriminate Hg.
Qed.

Lemma emitted_developer_closed_first prs tr :
  emitted prs tr → NoDup (map id prs) →
  ∀ l1 f l2 x,
    tr = l1 ++ f :: l2 → frame_of x Marketing f →
    SectionFrame x Developer DoneObj ∈ l1 ∧
    ∀ g, g ∈ l2 → ¬ frame_of x Developer g.
Proof.
  induction 1 as [|pr rest ds ms tr Hem IH|pr rest ds ms B E Hpre HE];
    intros Hnd l1 f l2 x Hsplit Hf.
  - by destruct l1.
  - cbn [map] in Hnd. apply NoDup_cons in Hnd as [Hfresh Hnd].
    destruct (app_split_at _ _ _ _ _ Hsplit) as [(l' & Hb & ->)|(l' & -> & Htr)].
    + assert (x = id pr) as ->.
      { pose proof (item_block_carries (id pr) ds ms) as Hall.
        rewrite Hb in Hall. apply Forall_app in Hall as [_ Hall].
        apply Forall_cons in Hall as [(c & obj & Heq) _].
        destruct Hf as [obj' ->]. by injection Heq. }
      destruct (block_marketing_split (id pr) ds ms [] tr l1 f l') as [H1 H2].
      { by rewrite app_nil_r. }
      { exact Hf. }
      split; [exact H1|]. intros g Hg Hdev.
      specialize (H2 g Hg Hdev).
      apply (emitted_other_id rest tr (id pr) g Hem Hfresh H2).
      destruct Hdev as [obj ->]. by eexists _, _.
    + destruct (IH Hnd l' f l2 x Htr Hf) as [H1 H2].
      split; [|exact H2]. apply elem_of_app. by right.
  - destruct (app_split_at _ _ _ _ _ Hsplit) as [(l' & Hb & ->)|(l' & -> & HE')].
    + destruct Hpre as [K HK].
      assert (x = id pr) as ->.
      { pose proof (item_block_carries (id pr) ds ms) as Hall.
        rewrite HK, Hb in Hall. apply Forall_app in Hall as [Hall _].
        apply Forall_app in Hall as [_ Hall].
        apply Forall_cons in Hall as [(c & obj & Heq) _].
        destruct Hf as [obj' ->]. by injection Heq. }
      destruct (block_marketing_split (id pr) ds ms K E l1 f l') as [H1 H2].
      { by rewrite HK, Hb. }
      { exact Hf. }
      split; [exact H1|]. intros g Hg Hdev.
      specialize (H2 g Hg Hdev).
      apply (proj1 (Forall_forall _ _) HE) in H2.
      destruct Hdev as [obj ->]. discriminate H2.
    + rewrite HE' in HE. apply Forall_app in HE as [_ HE].
      apply Forall_cons in HE as [Herr _].
      destruct Hf as [obj ->]. discriminate Herr.
Qed.

Lemma emitted_next_item_after_marketing prs tr :
  emitted prs tr → NoDup (map id prs) →
  ∀ pre p q post l1 f l2,
    prs = pre ++ p :: q :: post →
    tr = l1 ++ f :: l2 → frame_carries (id q) f →
    SectionFrame (id p) Marketing DoneObj ∈ l1.
Proof.
  induction 1 as [|pr rest ds ms tr Hem IH|pr rest ds ms B E Hpre HE];
    intros Hnd pre p q post l1 f l2 Hprs Hsplit Hf.
  - by destruct pre.
  - cbn [map] in Hnd. apply NoDup_cons in Hnd as [Hfresh Hnd].
    assert (Hq : id q ∈ map id rest).
    { destruct pre as [|p' pre]; injection Hprs as -> ->;
        rewrite ?map_app; cbn [map];
        rewrite ?elem_of_app, ?elem_of_cons; tauto. }
    destruct (app_split_at _ _ _ _ _ Hsplit) as [(l' & Hb & ->)|(l' & -> & Htr)].
    + exfalso. pose proof (item_block_carries (id pr) ds ms) as Hall.
      rewrite Hb in Hall. apply Forall_app in Hall as [_ Hall].
      apply Forall_cons in Hall as [(c & obj & Heq) _].
      destruct Hf as (c' & obj' & ->). injection Heq as Heq _ _.
      rewrite Heq in Hq. done.
    + destruct pre as [|p' pre]; injection Hprs as -> ->.
      * apply elem_of_app. left. unfold item_block.
        apply elem_of_app. right. apply done_in_channel_block.
      * apply elem_of_app. right. by eapply IH.
  - exfalso. cbn [map] in Hnd. apply NoDup_cons in Hnd as [Hfresh Hnd].
    assert (Hq : id q ∈ map id rest).
    { destruct pre as [|p' pre]; injection Hprs as -> ->;
        rewrite ?map_app; cbn [map];
        rewrite ?elem_of_app, ?elem_of_cons; tauto. }
    assert (Hin : f ∈ B ++ E).
    { rewrite Hsplit. apply elem_of_app. right. by left. }
    apply elem_of_app in Hin as [Hin|Hin].
    + pose proof (Forall_prefix _ _ _ Hpre (item_block_carries (id pr) ds ms)) as Hall.
      apply (proj1 (Forall_forall _ _) Hall) in Hin as (c & obj & Heq).
      destruct Hf as (c' & obj' & ->). injection Heq as Heq _ _.
      rewrite Heq in Hq. done.
    + apply (proj1 (Forall_forall _ _) HE) in Hin.
      destruct Hf as (c' & obj' & ->). discriminate Hin.
Qed.

(** [C7] The frame sequence of every run is made of one block per
    processed item, in item order: the developer channel of the item from
    its opening frame to its completion frame, then its marketing channel
    likewise; only the last block may be cut short, and then only error
    frames follow ([emitted]).  So, with the distinct identifiers the data
    model requires: a marketing frame of an item has that item's developer
    completion frame before it and no developer frame of the item after it;
    and for consecutive items [p], [q], every frame of [q] has the marketing
    completion frame of [p] before it (when the stream aborts during [p], no
    frame of [q] is emitted at all). *)
Theorem developer_before_marketing_items_in_turn :
  ∀ env prs,
    emitted prs (written (stream_notes prs env initial).2) ∧
    (NoDup (map id prs) →
     (∀ l1 f l2 x,
        written (stream_notes prs env initial).2 = l1 ++ f :: l2 →
        frame_of x Marketing f →
        SectionFrame x Developer DoneObj ∈ l1 ∧
        ∀ g, g ∈ l2 → ¬ frame_of x Developer g) ∧
     (∀ pre p q post l1 f l2,
        prs = pre ++ p :: q :: post →
        written (stream_notes prs env initial).2 = l1 ++ f :: l2 →
        frame_carries (id q) f →
        SectionFrame (id p) Marketing DoneObj ∈ l1)).
Proof.
  intros env prs.
  destruct (stream_notes_emitted env prs) as [Hem _].
  split; [exact Hem|]. intros Hnd. split.
  - by apply (emitted_developer_closed_first prs).
  - by apply (emitted_next_item_after_marketing prs).
Qed.

Lemma developer_before_marketing_items_in_turn_witness :
  NoDup (map id six_items) ∧
  (∀ l1 f l2 x,
     written (stream_notes six_items healthy_env initial).2 = l1 ++ f :: l2 →
     frame_of x Marketing f →
     SectionFrame x Developer DoneObj ∈ l1 ∧
     ∀ g, g ∈ l2 → ¬ frame_of x Developer g) ∧
  (∀ pre p q post l1 f l2,
     six_items = pre ++ p :: q :: post →
     written (stream_notes six_items healthy_env initial).2 = l1 ++ f :: l2 →
     frame_carries (id q) f →
     SectionFrame (id p) Marketing DoneObj ∈ l1).
Proof.
  assert (Hnd : NoDup (map id six_items)).
  { apply (bool_decide_unpack _). by vm_compute. }
  split; [exact Hnd|].
  exact (proj2 (developer_before_marketing_items_in_turn healthy_env six_items) Hnd).
Defined.

End RouteOrdering.

(** ** The decode loop *)

Lemma startsWith_length (p s : str) :
  startsWith p s = true → (length p ≤ length s)%nat.
Proof.
  revert s. induction p as [|x p IH]; intros [|c s]; cbn; try done; [lia|].
  destruct (decide (x = c)); [|done]. intros H%IH. lia.
Qed.

Lemma startsWith_app_long (p s t : str) :
  (length p ≤ length s)%nat → startsWith p (s ++ t) = startsWith p s.
Proof.
  revert s. induction p as [|x p IH]; intros [|c s]; cbn; try done; [lia|].
  intros Hlen. destruct (decide (x = c)); [|done]. apply IH. lia.
Qed.

Lemma indexOf_bound (hay needle : str) i :
  Client.indexOf hay needle = Some i → (i + length needle ≤ length hay)%nat.
Proof.
  revert i. induction hay as [|c hay IH]; intros i; cbn [Client.indexOf].
  - destruct (startsWith needle []) eqn:Hs; [|done].
    intros [= <-]. by apply startsWith_length in Hs.
  - destruct (startsWith needle (c :: hay)) eqn:Hs.
    + intros [= <-]. by apply startsWith_length in Hs.
    + destruct (Client.indexOf hay needle) as [j|]; [|done].
      intros [= <-]. specialize (IH j eq_refl). cbn [length]. lia.
Qed.

Lemma indexOf_app (hay needle t : str) i :
  Client.indexOf hay needle = Some i →
  Client.indexOf (hay ++ t) needle = Some i.
Proof.
  revert i. induction hay as [|c hay IH]; intros i; cbn [Client.indexOf app].
  - destruct (startsWith needle []) eqn:Hs; [|done]. intros [= <-].
    destruct needle; [|done]. by destruct t.
  - change (c :: hay ++ t) with ((c :: hay) ++ t).
    destruct (startsWith needle (c :: hay)) eqn:Hs.
    + intros [= <-].
      rewrite (startsWith_app_long needle (c :: hay) t), Hs; [done|].
      by apply startsWith_length.
    + destruct (Client.indexOf hay needle) as [j|] eqn:Hj; [|done].
      intros [= <-].
      rewrite (startsWith_app_long needle (c :: hay) t), Hs.
      * by rewrite (IH j eq_refl).
      * apply indexOf_bound in Hj. cbn [length]. lia.
Qed.

(** In a text without line feed followed by a blank line, the separator is
    found right after the text. *)
Lemma indexOf_record (r rest : str) :
  LF ∉ r → Client.indexOf (r ++ LF :: LF :: rest) [LF; LF] = Some (length r).
Proof.
  induction r as [|c r IH]; intros Hr.
  - cbn. by rewrite !decide_True.
  - apply not_elem_of_cons in Hr as [Hc Hr].
    cbn [Client.indexOf app startsWith].
    rewrite decide_False by done. by rewrite (IH Hr).
Qed.

Lemma slice_take (s : str) (k : nat) :
  slice s 0 (Some (Z.of_nat k)) = take k s.
Proof.
  destruct (Nat.le_gt_cases k (length s)); [by apply slice_prefix|].
  unfold slice, rel_index, js_length. cbn.
  destruct (Z.ltb_spec (Z.of_nat k) 0); [lia|].
  rewrite Z.min_r by lia. rewrite Z.min_l by lia.
  rewrite Z.sub_0_r, Nat2Z.id. cbn [Z.to_nat drop].
  rewrite (take_ge s k) by lia. apply take_ge. lia.
Qed.

Lemma slice_drop (s : str) (k : nat) (j : Z) :
  (0 ≤ j)%Z → slice s (Z.of_nat k + j) None = drop (k + Z.to_nat j) s.
Proof.
  intros Hj. rewrite <- (Z2Nat.id j) at 1 by done.
  rewrite <- Nat2Z.inj_add. apply slice_from.
Qed.

Lemma trimStart_id (s : str) c :
  head s = Some c → is_space c = false → trimStart s = s.
Proof. destruct s; [done|]. intros [= ->] Hc. cbn. by rewrite Hc. Qed.

Lemma trimEnd_id (s : str) d :
  last s = Some d → is_space d = false → trimEnd s = s.
Proof.
  intros Hl Hd. unfold trimEnd.
  rewrite (trimStart_id (reverse s) d); [apply reverse_involutive| |done].
  by rewrite head_reverse.
Qed.

Lemma trim_id (s : str) c d :
  head s = Some c → last s = Some d →
  is_space c = false → is_space d = false → trim s = s.
Proof.
  intros Hh Hl Hc Hd. unfold trim.
  rewrite (trimStart_id s c) by done. by apply (trimEnd_id s d).
Qed.

Section DecodeFacts.
Context {St : Type}.
Variable parse : str → option json.
Variable on_payload : json → St → Client.Outcome St.

Local Abbreviation drain := (Client.drain parse on_payload).
Local Abbreviation read_loop := (Client.read_loop parse on_payload).

(** Fuel beyond the length of the buffer is never used. *)
Lemma drain_fuel (n m : nat) (buffer : str) (st : St) :
  (length buffer ≤ n)%nat → (length buffer ≤ m)%nat →
  drain n buffer st = drain m buffer st.
Proof.
  revert m buffer st. induction n as [|n IH]; intros m buffer st Hn Hm.
  - destruct buffer; [|cbn in Hn; lia]. by destruct m.
  - destruct m as [|m].
    + destruct buffer; [done|cbn in Hm; lia].
    + cbn [Client.drain].
      destruct (Client.indexOf buffer [LF; LF]) as [i|] eqn:Hi; [|done].
      apply indexOf_bound in Hi. cbn [length] in Hi.
      destruct (Client.on_event _ _ _ _); [|done].
      rewrite slice_drop by lia.
      apply IH; rewrite length_drop; lia.
Qed.

(** The loop terminates by finding no separator, not by lack of fuel: what
    it leaves in the buffer holds no blank line. *)
Lemma drain_leaves_no_separator (n : nat) (buffer buffer' : str) (st st' : St) :
  (length buffer ≤ n)%nat →
  drain n buffer st = (buffer', Client.Normal st') →
  Client.indexOf buffer' [LF; LF] = None.
Proof.
  revert buffer st. induction n as [|n IH]; intros buffer st Hn.
  - destruct buffer; [|cbn in Hn; lia]. by intros [= <- _].
  - cbn [Client.drain].
    destruct (Client.indexOf buffer [LF; LF]) as [i|] eqn:Hi.
    + pose proof (indexOf_bound _ _ _ Hi) as Hb. cbn [length] in Hb.
      destruct (Client.on_event _ _ _ _); [|done].
      rewrite slice_drop by lia. apply IH. rewrite length_drop. lia.
    + by intros [= <- _].
Qed.

(** Draining a buffer with more text appended: drain the buffer first, then
    what it leaves with the text appended. *)
Lemma drain_app (n : nat) (b c : str) (st : St) :
  (length b ≤ n)%nat →
  drain_all parse on_payload (b ++ c) st
  = match drain n b st with
    | (b', Client.Normal st') => drain_all parse on_payload (b' ++ c) st'
    | (b', Client.Abrupt message st') => (b' ++ c, Client.Abrupt message st')
    end.
Proof.
  revert b st. induction n as [|n IH]; intros b st Hn.
  - destruct b; [done|cbn in Hn; lia].
  - cbn [Client.drain].
    destruct (Client.indexOf b [LF; LF]) as [i|] eqn:Hi; [|done].
    pose proof (indexOf_bound _ _ _ Hi) as Hb. cbn [length] in Hb.
    unfold drain_all at 1.
    destruct (length (b ++ c)) as [|m] eqn:Hlen;
      [rewrite length_app in Hlen; lia|].
    cbn [Client.drain]. rewrite (indexOf_app _ _ c _ Hi).
    rewrite !slice_take, !slice_drop by lia.
    rewrite take_app_le by lia. rewrite drop_app_le by lia.
    destruct (Client.on_event _ _ _ _) as [st'|message st']; [|done].
    rewrite <- (IH (drop (i + Z.to_nat 2) b) st')
      by (rewrite length_drop; lia).
    apply drain_fuel; [|done].
    rewrite length_app in Hlen. rewrite length_app, length_drop. lia.
Qed.

(** Reading chunk by chunk gives what draining the concatenated text
    gives. *)
Lemma read_loop_drain_all (chunks : list str) (b0 buffer : str) (st0 st : St) :
  drain_all parse on_payload b0 st0 = (buffer, Client.Normal st) →
  (read_loop chunks None buffer st).2
  = (drain_all parse on_payload (b0 ++ concat chunks) st0).2.
Proof.
  revert b0 buffer st. induction chunks as [|value rest IH]; intros b0 buffer st Hd.
  - cbn. by rewrite app_nil_r, Hd.
  - cbn [Client.read_loop concat].
    assert (Hstep : drain_all parse on_payload (b0 ++ value) st0
                    = drain_all parse on_payload (buffer ++ value) st).
    { rewrite (drain_app (length b0)) by done.
      unfold drain_all in Hd. by rewrite Hd. }
    fold (drain_all parse on_payload (buffer ++ value) st).
    rewrite <- Hstep, app_assoc.
    destruct (drain_all parse on_payload (b0 ++ value) st0)
      as [b' [st'|message st']] eqn:Hd'.
    + by apply IH.
    + rewrite (drain_app (length (b0 ++ value))) by done.
      unfold drain_all in Hd'. by rewrite Hd'.
Qed.

End DecodeFacts.

Section Codec.
Context {St : Type}.
Variable J : JSON.
Variable on_payload : json → St → Client.Outcome St.

(** The record of a section frame is one event: found whole, recognised as
    data, parsed back to its payload. *)
Lemma drain_record (f : Frame) (rest : str) (st : St) :
  is_error_frame f = false →
  json_text_ok J (payload_json f) →
  drain_all (JSON_parse J) on_payload (encode J f ++ rest) st
  = match on_payload (payload_json f) st with
    | Client.Normal st' => drain_all (JSON_parse J) on_payload rest st'
    | Client.Abrupt message st' => (rest, Client.Abrupt message st')
    end.
Proof.
  intros Hf (Hparse & Hlf & Hhead & Hlast).
  destruct f as [prId section obj|]; [clear Hf|done].
  set (v := payload_json (SectionFrame prId section obj)) in *.
  set (t := JSON_stringify J v) in *.
  assert (Henc : encode J (SectionFrame prId section obj) ++ rest
                 = (lit "data: " ++ t) ++ LF :: LF :: rest).
  { unfold encode. fold v t. by rewrite <- !app_assoc. }
  rewrite Henc. clear Henc.
  assert (Hlf' : LF ∉ lit "data: " ++ t).
  { intros [H|H]%elem_of_app; [|done]. vm_compute in H.
    repeat (apply elem_of_cons in H as [H|H]; [discriminate H|]).
    by apply elem_of_nil in H. }
  unfold drain_all.
  destruct (length ((lit "data: " ++ t) ++ LF :: LF :: rest)) as [|m] eqn:Hlen;
    [rewrite length_app in Hlen; cbn in Hlen; lia|].
  cbn [Client.drain]. rewrite (indexOf_record _ rest Hlf').
  rewrite slice_take, take_app_length.
  rewrite slice_drop by lia.
  replace (length (lit "data: " ++ t) + Z.to_nat 2)%nat
    with (length ((lit "data: " ++ t) ++ [LF; LF])) by (rewrite length_app; cbn; lia).
  replace ((lit "data: " ++ t) ++ LF :: LF :: rest)
    with (((lit "data: " ++ t) ++ [LF; LF]) ++ rest) in * by (by rewrite <- app_assoc).
  rewrite drop_app_length.
  assert (Hev : Client.on_event (JSON_parse J) on_payload
                  (trim (lit "data: " ++ t)) st
                = on_payload v st).
  { apply head_Some in Hhead as [t' Ht].
    rewrite (trim_id _ "d"%char "}"%char); [| done | | done | done].
    - unfold Client.on_event.
      change (startsWith (lit "data:") (lit "data: " ++ t)) with true.
      cbn [negb].
      rewrite (slice_from _ 5).
      change (drop 5 (lit "data: " ++ t)) with (" "%char :: t).
      assert (Htrim : trim (" "%char :: t) = t).
      { unfold trim. change (trimStart (" "%char :: t)) with (trimStart t).
        fold (trim t). apply (trim_id _ "{"%char "}"%char); try done.
        by rewrite Ht. }
      rewrite Htrim, Ht. cbn [truthy_str negb]. rewrite <- Ht.
      fold t in Hparse. by rewrite Hparse.
    - rewrite last_app. fold t in Hlast. by rewrite Hlast. }
  rewrite Hev.
  destruct (on_payload v st) as [st'|message st']; [|done].
  apply drain_fuel; [|done].
  rewrite !length_app in Hlen. cbn in Hlen. lia.
Qed.

(** Draining the text of a stream of section frames hands their payloads to
    the consumer, in order. *)
Lemma drain_wire (frames : list Frame) (st : St) :
  Forall (λ f, is_error_frame f = false) frames →
  Forall (λ f, json_text_ok J (payload_json f)) frames →
  (drain_all (JSON_parse J) on_payload (wire J frames) st).2
  = Client.feed on_payload (map payload_json frames) st.
Proof.
  revert st. induction frames as [|f frames IH]; intros st Herr Hok; [done|].
  apply Forall_cons in Herr as [Hf Herr]. apply Forall_cons in Hok as [Hv Hok].
  unfold wire. cbn [map concat Client.feed]. fold (wire J frames).
  rewrite (drain_record f (wire J frames) st Hf Hv).
  destruct (on_payload (payload_json f) st) as [st'|message st']; [|done].
  by apply IH.
Qed.

End Codec.

Lemma feed_record_payload (payloads log : list json) :
  Client.feed record_payload payloads log = Client.Normal (log ++ payloads).
Proof.
  revert log. induction payloads as [|v payloads IH]; intros log; cbn.
  - by rewrite app_nil_r.
  - by rewrite IH, <- app_assoc.
Qed.

(** [X28] The round trip of the frames [send] writes.  For every sequence
    of content and completion frames whose payloads the JSON built-ins
    serialise faithfully, encoding each frame as its record, concatenating
    the records, cutting the text into chunks at arbitrary places and
    feeding the chunks to the decode loop of the page hands the payloads of
    the frames, complete and in order, to whatever consumes them; in
    particular the recorded payload sequence is the payload sequence of the
    frames. *)
Theorem codec_roundtrip_section_frames :
  ∀ (J : JSON) (St : Type) (on_payload : json → St → Client.Outcome St)
    (frames : list Frame) (chunks : list str) (st : St),
    Forall (λ f, is_error_frame f = false) frames →
    Forall (λ f, json_text_ok J (payload_json f)) frames →
    concat chunks = wire J frames →
    (Client.read_loop (JSON_parse J) on_payload chunks None [] st).2
    = Client.feed on_payload (map payload_json frames) st ∧
    (Client.read_loop (JSON_parse J) record_payload chunks None [] []).2
    = Client.Normal (map payload_json frames).
Proof.
  intros J St on_payload frames chunks st Herr Hok Hwire.
  assert (Hgen : ∀ T (h : json → T → Client.Outcome T) (s : T),
             (Client.read_loop (JSON_parse J) h chunks None [] s).2
             = Client.feed h (map payload_json frames) s).
  { intros T h s.
    rewrite (read_loop_drain_all (JSON_parse J) h chunks [] [] s s eq_refl).
    cbn [app]. rewrite Hwire. by apply drain_wire. }
  split; [apply Hgen|].
  rewrite Hgen. apply feed_record_payload.
Qed.

Lemma sample_frames_text_ok :
  Forall (λ f, json_text_ok JsonRef.reference (payload_json f)) sample_frames.
Proof.
  repeat apply Forall_cons_2; [..|apply Forall_nil_2];
    (split; [by vm_compute|]; split; [|by vm_compute]);
    apply (bool_decide_unpack _); by vm_compute.
Defined.

Lemma codec_roundtrip_section_frames_witness :
  (Client.read_loop JsonRef.parse record_payload sample_chunks None [] []).2
  = Client.Normal (map payload_json sample_frames).
Proof.
  refine (proj2 (codec_roundtrip_section_frames JsonRef.reference (list json)
                   record_payload sample_frames sample_chunks [] _ _ _)).
  - repeat constructor.
  - exact sample_frames_text_ok.
  - by vm_compute.
Defined.

(** ** The reducer *)

Lemma apply_payload_content (x : str) (c : ChannelName) (a : str) (page : Client.Page) :
  Client.apply_payload (payload_json (SectionFrame x c (ContentObj a))) page
  = Client.Normal
      (Client.set_notes
         (Client.merge_content x (bool_decide (c = Developer)) a) page).
Proof. by destruct c. Qed.


Lemma merge_field_default (prev : option str) (content : str) :
  Client.merge_field prev content
  = Client.mergeWithOverlap (default [] prev) content.
Proof. destruct prev; [done|]. by destruct content. Qed.


(** Two content frames in a row, as one update. *)
Lemma merge_content_twice (x : str) (d : bool) (a b : str)
    (notes : gmap str Client.NoteState) :
  Client.merge_content x d b (Client.merge_content x d a notes)
  = let current :=
      default {| Client.developer := Some []; Client.marketing := Some [];
                 Client.tools := None |} (notes !! x) in
    <[x := if d
           then {| Client.developer :=
                     Some (Client.mergeWithOverlap
                             (Client.merge_field (Client.developer current) a) b);
                   Client.marketing := Client.marketing current;
                   Client.tools := Client.tools current |}
           else {| Client.developer := Client.developer current;
                   Client.marketing :=
                     Some (Client.mergeWithOverlap
                             (Client.merge_field (Client.marketing current) a) b);
                   Client.tools := Client.tools current |}]> notes.
Proof.
  destruct d; unfold Client.merge_content;
    rewrite lookup_insert_eq, insert_insert_eq;
    cbn [default Client.developer Client.marketing Client.tools];
    reflexivity.
Qed.

(** The claim [C3] as stated fails: merging is not associative.  With
    [s = a], [a = b], [b = abc] the two sides are [abc] and [ababc]. *)
Lemma mergeWithOverlap_not_associative :
  ¬ ∀ s a b : str,
      Client.mergeWithOverlap (Client.mergeWithOverlap s a) b
      = Client.mergeWithOverlap s (Client.mergeWithOverlap a b).
Proof.
  intros H. specialize (H (lit "a") (lit "b") (lit "abc")).
  vm_compute in H. discriminate H.
Qed.

(** [C3], amended.  For every page, item, channel and fragments [a], [b],
    with [s] the text accumulated for the channel: provided neither overlap
    search reaches past [a] (the overlap found between [merge s a] and [b],
    and the one found between [s] and [merge a b], are at most [length a]),
    applying the content frames of [a] and of [b] in turn leaves the page in
    the same state as applying one content frame of [merge a b], and
    [merge (merge s a) b = merge s (merge a b)]. *)
Theorem two_content_frames_as_one :
  ∀ (page : Client.Page) (x : str) (c : ChannelName) (a b : str),
    let s := channel_text (Client.notesByPR page) x c in
    (max_overlap (Client.mergeWithOverlap s a) b ≤ length a)%nat →
    (max_overlap s (Client.mergeWithOverlap a b) ≤ length a)%nat →
    Client.feed Client.apply_payload
      [payload_json (SectionFrame x c (ContentObj a));
       payload_json (SectionFrame x c (ContentObj b))] page
    = Client.feed Client.apply_payload
        [payload_json (SectionFrame x c (ContentObj (Client.mergeWithOverlap a b)))]
        page ∧
    Client.mergeWithOverlap (Client.mergeWithOverlap s a) b
    = Client.mergeWithOverlap s (Client.mergeWithOverlap a b).
Proof.
  intros page x c a b s H1 H2.
  pose proof (mergeWithOverlap_assoc_bounded s a b H1 H2) as Hassoc.
  split; [|exact Hassoc].
  cbn [Client.feed]. rewrite !apply_payload_content.
  f_equal. unfold Client.set_notes. cbn [Client.notesByPR Client.error
                                          Client.isGeneratingNotes].
  f_equal. rewrite merge_content_twice. unfold Client.merge_content.
  cbn zeta. f_equal.
  subst s. unfold channel_text in Hassoc.
  destruct (Client.notesByPR page !! x) as [n|]; cbn [default] in *;
    destruct c; cbn [bool_decide decide_rel] in *;
    rewrite ?bool_decide_eq_true_2, ?bool_decide_eq_false_2 by done;
    rewrite !merge_field_default;
    cbn [default from_option Datatypes.id Client.developer Client.marketing] in *;
    by rewrite Hassoc.
Qed.

Lemma two_content_frames_as_one_witness :
  Client.feed Client.apply_payload
    [payload_json (SectionFrame (lit "42") Marketing (ContentObj (lit "The cache is ")));
     payload_json (SectionFrame (lit "42") Marketing (ContentObj (lit "is now faster.")))]
    empty_page
  = Client.feed Client.apply_payload
      [payload_json
         (SectionFrame (lit "42") Marketing
            (ContentObj (Client.mergeWithOverlap (lit "The cache is ")
                           (lit "is now faster."))))]
      empty_page.
Proof.
  refine (proj1 (two_content_frames_as_one empty_page (lit "42") Marketing
                   (lit "The cache is ") (lit "is now faster.") _ _)).
  - vm_compute. lia.
  - vm_compute. lia.
Defined.

(** [C6] The page drops an error frame instead of reporting it.  The record
    written by [sendError] starts with an [event:] line, so the [data:] test
    of the decode loop skips it before any parsing: the page state is left
    as it is (the accumulated notes are retained), no error is set, and
    reading goes on, so frames after it are still applied.  An error payload
    sent as a [data:] record would fare no better: it has no [section] and
    the reducer skips it.  Seen on two streams read with the reference JSON
    model: a content frame, an error frame and another content frame; and
    the frames the route writes when the marketing request of an item is
    rejected. *)
Theorem error_frame_dropped_by_page :
  (∀ (St : Type) (parse : str → option json)
     (on_payload : json → St → Client.Outcome St) (tail : str) (st : St),
      Client.on_event parse on_payload (trim (lit "event: error" ++ tail)) st
      = Client.Normal st) ∧
  (∀ (message : str) (page : Client.Page),
      Client.apply_payload
        (JObject [(lit "type", JString (lit "error"));
                  (lit "message", JString message)]) page
      = Client.Normal page) ∧
  Client.error (page_after stream_with_error) = None ∧
  Client.notesByPR (page_after stream_with_error) !! lit "1"
  = Some {| Client.developer := Some (lit "abcdef");
            Client.marketing := Some [];
            Client.tools := None |} ∧
  Client.error
    (page_after
       (Route.written
          (Route.stream_notes [sample_item (lit "1"); sample_item (lit "2")]
             Route.sample_env Route.initial).2)) = None ∧
  Client.notesByPR
    (page_after
       (Route.written
          (Route.stream_notes [sample_item (lit "1"); sample_item (lit "2")]
             Route.sample_env Route.initial).2)) !! lit "1"
  = Some {| Client.developer := Some (lit "Adds a cache.");
            Client.marketing := Some [];
            Client.tools := None |}.
Proof.
  split.
  - intros St parse on_payload tail st.
    destruct (trim_keeps_head "e"%char (lit "vent: error" ++ tail) eq_refl)
      as [t Ht].
    change (lit "event: error" ++ tail)
      with ("e"%char :: lit "vent: error" ++ tail).
    rewrite Ht. reflexivity.
  - split; [done|]. repeat split; by vm_compute.
Qed.

(** ** The reference JSON model serialises the payloads of the route
    faithfully *)

Section ReferenceJson.
Import JsonRef.

Lemma escape_char_no_LF (c : ascii) : LF ∉ escape_char c.
Proof.
  destruct c as [[] [] [] [] [] [] [] []];
    apply (bool_decide_unpack _); by vm_compute.
Qed.

Lemma parse_string_body_escape (c : ascii) (s x r : str) :
  parse_string_body s = Some (x, r) →
  parse_string_body (escape_char c ++ s) = Some (c :: x, r).
Proof.
  intros H.
  destruct c as [[] [] [] [] [] [] [] []]; simpl; by rewrite H.
Qed.

Lemma parse_string_body_quoted (s rest : str) :
  parse_string_body (concat (map escape_char s) ++ quote :: rest)
  = Some (s, rest).
Proof.
  induction s as [|c s IH]; [done|].
  cbn [map concat]. rewrite <- app_assoc. by apply parse_string_body_escape.
Qed.

Lemma quote_string_no_LF (s : str) : LF ∉ quote_string s.
Proof.
  unfold quote_string. intros [H|H]%elem_of_cons; [discriminate H|].
  apply elem_of_app in H as [H|H].
  - induction s as [|c s IH]; [by apply elem_of_nil in H|].
    cbn [map concat] in H. apply elem_of_app in H as [H|H]; [|by apply IH].
    by apply escape_char_no_LF in H.
  - apply list_elem_of_singleton in H. discriminate H.
Qed.

Lemma stringify_flat_no_LF (v : json) : flat v → LF ∉ stringify v.
Proof.
  destruct v as [|[]|n|s|items|members]; try done; intros _.
  - apply (bool_decide_unpack _). by vm_compute.
  - apply (bool_decide_unpack _). by vm_compute.
  - apply quote_string_no_LF.
Qed.

Lemma member_text_no_LF (kv : str * json) : flat kv.2 → LF ∉ member_text kv.
Proof.
  intros Hv [H|H]%elem_of_app; [by apply quote_string_no_LF in H|].
  apply elem_of_cons in H as [H|H]; [discriminate H|].
  by apply stringify_flat_no_LF in H.
Qed.

Lemma join_comma_cons (p : str) (parts : list str) :
  parts ≠ [] → join_comma (p :: parts) = p ++ ","%char :: join_comma parts.
Proof. by destruct parts. Qed.

Lemma members_no_LF (members : list (str * json)) :
  Forall (λ kv, flat kv.2) members →
  LF ∉ join_comma (map member_text members).
Proof.
  induction 1 as [|kv members Hv Hall IH]; [by intros H%elem_of_nil|].
  destruct members as [|kv' members].
  - cbn [map join_comma]. by apply member_text_no_LF.
  - cbn [map]. rewrite join_comma_cons by done.
    intros [H|H]%elem_of_app; [by apply member_text_no_LF in H|].
    apply elem_of_cons in H as [H|H]; [discriminate H|]. by apply IH.
Qed.

Lemma parse_value_flat (fuel : nat) (v : json) (rest : str) :
  flat v →
  parse_value (S fuel) (stringify v ++ rest) = Some (v, rest).
Proof.
  destruct v as [|[]|n|s|items|members]; try done; intros _.
  cbn [stringify]. unfold quote_string.
  change ((quote :: concat (map escape_char s) ++ [quote]) ++ rest)
    with (quote :: (concat (map escape_char s) ++ [quote]) ++ rest).
  rewrite <- app_assoc. cbn [app parse_value skip_ws].
  change (is_json_space quote) with false. cbn iota.
  rewrite decide_True by done.
  by rewrite parse_string_body_quoted.
Qed.

Lemma expect_head (c : ascii) (r : str) :
  is_json_space c = false → expect c (c :: r) = Some r.
Proof. intros Hc. unfold expect. cbn [skip_ws]. rewrite Hc. by rewrite decide_True. Qed.

Lemma parse_members_step (fuel : nat) (s : str) :
  parse_members (S fuel) s
  = match expect quote s with
    | Some r =>
        match parse_string_body r with
        | Some (k, rest) =>
            match expect ":"%char rest with
            | Some rest1 =>
                match parse_value fuel rest1 with
                | Some (v, rest2) =>
                    match expect ","%char rest2 with
                    | Some rest3 =>
                        match parse_members fuel rest3 with
                        | Some (ms, rest4) => Some ((k, v) :: ms, rest4)
                        | None => None
                        end
                    | None =>
                        match expect "}"%char rest2 with
                        | Some rest3 => Some ([(k, v)], rest3)
                        | None => None
                        end
                    end
                | None => None
                end
            | None => None
            end
        | None => None
        end
    | None => None
    end.
Proof. reflexivity. Qed.

Lemma member_text_app (k : str) (v : json) (tail : str) :
  member_text (k, v) ++ tail
  = quote :: concat (map escape_char k) ++ quote :: ":"%char :: stringify v ++ tail.
Proof.
  unfold member_text, quote_string. cbn [fst snd].
  rewrite <- !app_assoc. cbn [app]. by rewrite <- !app_assoc.
Qed.

(** One member, then what the rest of the text decides. *)
Lemma parse_members_head (fuel : nat) (k : str) (v : json) (tail : str) :
  flat v →
  parse_members (S (S fuel)) (member_text (k, v) ++ tail)
  = match expect ","%char tail with
    | Some rest3 =>
        match parse_members (S fuel) rest3 with
        | Some (ms, rest4) => Some ((k, v) :: ms, rest4)
        | None => None
        end
    | None =>
        match expect "}"%char tail with
        | Some rest3 => Some ([(k, v)], rest3)
        | None => None
        end
    end.
Proof.
  intros Hv. rewrite parse_members_step, member_text_app.
  rewrite expect_head by done.
  rewrite parse_string_body_quoted.
  rewrite expect_head by done.
  by rewrite (parse_value_flat fuel v tail Hv).
Qed.

Lemma parse_members_flat (members : list (str * json)) (fuel : nat) (rest : str) :
  members ≠ [] →
  Forall (λ kv, flat kv.2) members →
  (length members < fuel)%nat →
  parse_members fuel (join_comma (map member_text members) ++ "}"%char :: rest)
  = Some (members, rest).
Proof.
  intros Hne Hall. revert fuel.
  induction Hall as [|[k v] members Hv Hall IH]; [done|]. intros fuel Hfuel.
  destruct fuel as [|[|fuel]]; [cbn in Hfuel; lia..|].
  destruct members as [|kv' members].
  - cbn [map join_comma]. by rewrite parse_members_head.
  - change (map member_text ((k, v) :: kv' :: members))
      with (member_text (k, v) :: map member_text (kv' :: members)).
    rewrite join_comma_cons by done.
    rewrite <- app_assoc. cbn [app]. rewrite parse_members_head by done.
    rewrite expect_head by done.
    rewrite (IH ltac:(done) (S fuel)); [done|]. cbn [length] in *. lia.
Qed.

Lemma parse_value_object (fuel : nat) (t : str) :
  parse_value (S fuel) ("{"%char :: quote :: t)
  = match parse_members fuel (quote :: t) with
    | Some (members, rest) => Some (JObject members, rest)
    | None => None
    end.
Proof. reflexivity. Qed.

Lemma join_comma_members_head (k : str) (v : json) (members : list (str * json)) :
  ∃ t, join_comma (map member_text ((k, v) :: members)) = quote :: t ∧
       (2 ≤ length t)%nat.
Proof.
  destruct members as [|kv members].
  - cbn [map join_comma]. rewrite <- (app_nil_r (member_text (k, v))).
    rewrite member_text_app. eexists. split; [done|].
    rewrite length_app. cbn [length]. lia.
  - change (map member_text ((k, v) :: kv :: members))
      with (member_text (k, v) :: map member_text (kv :: members)).
    rewrite join_comma_cons by done. rewrite member_text_app.
    eexists. split; [done|]. rewrite length_app. cbn [length]. lia.
Qed.

(** The text of a non-empty object of at most three strings and booleans
    parses back to the object, holds no line feed and runs from an opening
    to a closing brace. *)
Lemma reference_object_text_ok (members : list (str * json)) :
  members ≠ [] →
  Forall (λ kv, flat kv.2) members →
  (length members ≤ 3)%nat →
  json_text_ok reference (JObject members).
Proof.
  intros Hne Hall Hlen.
  assert (Htext : stringify (JObject members)
                  = "{"%char :: join_comma (map member_text members) ++ ["}"%char])
    by done.
  unfold json_text_ok. cbn [JSON_stringify JSON_parse reference].
  rewrite Htext. split; [|split; [|split]].
  - unfold parse.
    destruct members as [|[k v] members]; [done|].
    destruct (join_comma_members_head k v members) as (t & Ht & Hlong).
    assert (Hp : ∀ f, (length ((k, v) :: members) < f)%nat →
               parse_value (S f)
                 ("{"%char :: join_comma (map member_text ((k, v) :: members))
                              ++ ["}"%char])
               = Some (JObject ((k, v) :: members), [])).
    { intros f Hf. rewrite Ht. cbn [app].
      rewrite parse_value_object, app_comm_cons, <- Ht.
      by rewrite parse_members_flat. }
    rewrite Hp; [done|].
    cbn [length]. rewrite length_app, Ht. cbn [length] in *. lia.
  - intros [H|H]%elem_of_cons; [discriminate H|].
    apply elem_of_app in H as [H|H]; [by apply members_no_LF in H|].
    apply list_elem_of_singleton in H. discriminate H.
  - done.
  - rewrite app_comm_cons. apply last_snoc.
Qed.

(** Every payload of the route is such an object. *)
Lemma reference_payload_text_ok (f : Frame) :
  json_text_ok reference (payload_json f).
Proof.
  destruct f as [prId [] [content|]|message];
    (apply reference_object_text_ok;
     [done|repeat constructor|cbn; lia]).
Qed.

(** With the reference model the round trip of content and completion
    frames holds without further assumption. *)
Lemma codec_roundtrip_reference (frames : list Frame) (chunks : list str) :
  Forall (λ f, is_error_frame f = false) frames →
  concat chunks = wire reference frames →
  (Client.read_loop parse record_payload chunks None [] []).2
  = Client.Normal (map payload_json frames).
Proof.
  intros Herr Hwire.
  pose proof (read_loop_drain_all parse record_payload chunks [] [] [] [] eq_refl)
    as Hread.
  cbn [app] in Hread. rewrite Hread, Hwire.
  change parse with (JSON_parse reference).
  rewrite (drain_wire reference record_payload frames [] Herr).
  - apply feed_record_payload.
  - apply Forall_forall. intros f _. apply reference_payload_text_ok.
Qed.

End ReferenceJson.

(** * Further properties of the code *)

(** ** The relevance filter *)




Lemma lower_char_idemp (c : ascii) : lower_char (lower_char c) = lower_char c.
Proof. by destruct c as [[] [] [] [] [] [] [] []]. Qed.

Lemma toLowerCase_idemp (s : str) : toLowerCase (toLowerCase s) = toLowerCase s.
Proof.
  unfold toLowerCase. rewrite map_map. apply map_ext. intros c.
  apply lower_char_idemp.
Qed.




Lemma length_split_on (s : str) :
  length (split_on LF s) = S (line_feeds s).
Proof.
  unfold line_feeds. induction s as [|c s IH]; [done|]. cbn [split_on].
  rewrite filter_cons. destruct (decide (c = LF)); cbn [length]; [by rewrite IH|].
  destruct (split_on_cons_exists LF s) as (l & ls & Hs).
  rewrite Hs in *. by rewrite <- IH.
Qed.

Lemma length_filter_impl {A} (P Q : A → Prop)
    `{!∀ x, Decision (P x)} `{!∀ x, Decision (Q x)} (l : list A) :
  (∀ x, P x → Q x) → (length (filter P l) ≤ length (filter Q l))%nat.
Proof.
  intros HPQ. induction l as [|x l IH]; [done|]. rewrite !filter_cons.
  destruct (decide (P x)) as [HP|HP].
  - rewrite decide_True by auto. cbn. lia.
  - destruct (decide (Q x)); cbn; lia.
Qed.

Lemma count_lines_le_changed counted diff :
  (∀ line, counted line = true → is_changed_line line = true) →
  (count_lines counted (split_on LF diff) ≤ Z.of_nat (length (changed_lines diff)))%Z.
Proof.
  intros H. unfold count_lines, changed_lines.
  apply inj_le. by apply length_filter_impl.
Qed.

Lemma counted_plain_changed line :
  counted_plain line = true → is_changed_line line = true.
Proof. unfold counted_plain. by intros [? _]%andb_true_iff. Qed.

Lemma counted_strict_plain line :
  counted_strict line = true → counted_plain line = true.
Proof.
  unfold counted_strict. intros [[? _]%andb_true_iff _]%andb_true_iff. done.
Qed.

Lemma changed_lines_le diff :
  (length (changed_lines diff) ≤ S (line_feeds diff))%nat.
Proof. rewrite <- length_split_on. apply length_filter. Qed.

Lemma isRelevantPR_with_true count pr f :
  isRelevantPR_with count pr f = true →
  description_has pr (excludePatterns f) = false ∧
  (minDiffSize f ≤ Z.of_nat (length (split_on LF (diff pr))))%Z ∧
  (minCodeChanges f ≤ count (diff pr))%Z ∧
  description_has pr (excludeLabels f) = false ∧
  (includeLabels f = [] ∨ description_has pr (includeLabels f) = true).
Proof.
  unfold isRelevantPR_with.
  destruct (description_has pr (excludePatterns f)); [done|].
  destruct (Z.ltb_spec (Z.of_nat (length (split_on LF (diff pr)))) (minDiffSize f));
    [done|].
  cbn zeta.
  destruct (Z.ltb_spec (count (diff pr)) (minCodeChanges f)); [done|].
  destruct (description_has pr (excludeLabels f)); [done|].
  destruct (includeLabels f) as [|l ls]; [by auto 10|].
  destruct (description_has pr (l :: ls)); [by auto 10|done].
Qed.

(** [X2] An item is accepted only if its diff has enough lines and enough
    changed lines: with [n] line feeds in the diff, [minDiffSize] is at most
    [n + 1], and [minCodeChanges] is at most the number of lines that start
    with [+] or [-], itself at most [n + 1].  This holds for both variants
    of [isRelevantPR]. *)
Theorem accepted_diff_is_large_enough :
  ∀ (pr : DiffItem) (f : PRFilter),
    Conservative.isRelevantPR pr f = true ∨ Permissive.isRelevantPR pr f = true →
    (minDiffSize f ≤ Z.of_nat (line_feeds (diff pr)) + 1)%Z ∧
    (minCodeChanges f ≤ Z.of_nat (length (changed_lines (diff pr))))%Z ∧
    (length (changed_lines (diff pr)) ≤ line_feeds (diff pr) + 1)%nat.
Proof.
  intros pr f H.
  pose proof (changed_lines_le (diff pr)) as Hle.
  pose proof (length_split_on (diff pr)) as Hlen.
  assert (Hc : (Conservative.countMeaningfulChanges (diff pr)
                ≤ Z.of_nat (length (changed_lines (diff pr))))%Z).
  { rewrite conservative_count_lines.
    apply count_lines_le_changed, counted_plain_changed. }
  assert (Hp : (Permissive.countMeaningfulChanges (diff pr)
                ≤ Z.of_nat (length (changed_lines (diff pr))))%Z).
  { rewrite permissive_count_lines. apply count_lines_le_changed.
    intros line Hl. by apply counted_plain_changed, counted_strict_plain. }
  destruct H as [H|H]; apply isRelevantPR_with_true in H as (_ & H1 & H2 & _);
    (split; [lia|split; lia]).
Qed.

Lemma accepted_diff_is_large_enough_witness :
  (minDiffSize Conservative.DEFAULT_FILTERS
   ≤ Z.of_nat (line_feeds (diff (sample_item (lit "1")))) + 1)%Z ∧
  (minCodeChanges Conservative.DEFAULT_FILTERS
   ≤ Z.of_nat (length (changed_lines (diff (sample_item (lit "1"))))))%Z ∧
  (length (changed_lines (diff (sample_item (lit "1"))))
   ≤ line_feeds (diff (sample_item (lit "1"))) + 1)%nat.
Proof.
  apply (accepted_diff_is_large_enough (sample_item (lit "1"))
           Conservative.DEFAULT_FILTERS).
  left. by vm_compute.
Defined.

Lemma description_has_same_letters pr d patterns patterns' :
  same_letters (description pr) d →
  Forall2 same_letters patterns patterns' →
  description_has (with_description pr d) patterns' = description_has pr patterns.
Proof.
  intros Hd Hp. unfold description_has. cbn [description with_description].
  induction Hp as [|p p' ps ps' Hpp _ IH]; [done|]. cbn [existsb].
  rewrite IH. unfold same_letters in *. by rewrite <- Hd, Hpp.
Qed.

(** [X3] Matching is blind to letter case on both sides: changing the letter
    case of the description, and of the patterns and labels of the policy,
    changes the verdict of neither variant of [isRelevantPR]. *)
Theorem verdict_ignores_letter_case :
  ∀ (pr : DiffItem) (f : PRFilter) (d : str) (ep el il : list str),
    same_letters (description pr) d →
    Forall2 same_letters (excludePatterns f) ep →
    Forall2 same_letters (excludeLabels f) el →
    Forall2 same_letters (includeLabels f) il →
    Conservative.isRelevantPR (with_description pr d) (with_patterns f ep el il)
    = Conservative.isRelevantPR pr f ∧
    Permissive.isRelevantPR (with_description pr d) (with_patterns f ep el il)
    = Permissive.isRelevantPR pr f.
Proof.
  intros pr f d ep el il Hd Hep Hel Hil.
  unfold Conservative.isRelevantPR, Permissive.isRelevantPR, isRelevantPR_with.
  cbn [excludePatterns excludeLabels includeLabels minDiffSize minCodeChanges
       with_patterns].
  rewrite !(description_has_same_letters pr d _ _ Hd Hep).
  rewrite !(description_has_same_letters pr d _ _ Hd Hel).
  rewrite !(description_has_same_letters pr d _ _ Hd Hil).
  rewrite <- (Forall2_length _ _ _ Hil).
  done.
Qed.

Lemma verdict_ignores_letter_case_witness :
  Conservative.isRelevantPR
    (with_description (sample_item (lit "1")) (lit "FEATURE: Add Cache"))
    (with_patterns Conservative.DEFAULT_FILTERS
       (map lit ["Docs"; "Typos"; "Formatting"; "Chore"; "Style"; "Lint";
                 "Bump"; "Update"; "Deps"; "Dependency"; "Version"]%string)
       (excludeLabels Conservative.DEFAULT_FILTERS)
       (includeLabels Conservative.DEFAULT_FILTERS))
  = Conservative.isRelevantPR (sample_item (lit "1")) Conservative.DEFAULT_FILTERS.
Proof.
  refine (proj1 (verdict_ignores_letter_case (sample_item (lit "1"))
                   Conservative.DEFAULT_FILTERS (lit "FEATURE: Add Cache")
                   _ _ _ _ _ _ _)).
  - by vm_compute.
  - repeat constructor.
  - apply Forall2_same_length_lookup_2; [done|]. by intros i x y -> [= ->].
  - apply Forall2_same_length_lookup_2; [done|]. by intros i x y -> [= ->].
Defined.

Lemma permissive_count_le (diff : str) :
  (Permissive.countMeaningfulChanges diff
   ≤ Conservative.countMeaningfulChanges diff)%Z.
Proof.
  rewrite conservative_count_lines, permissive_count_lines.
  unfold count_lines. apply inj_le, length_filter_impl.
  apply counted_strict_plain.
Qed.

(** [X4] The stricter counter never counts more than the plain one, so with
    the same policy every item the permissive variant of [isRelevantPR]
    accepts is accepted by the variant of [src/lib/pr-filters.ts] too. *)
Theorem strict_counter_counts_less :
  ∀ (pr : DiffItem) (f : PRFilter),
    (Permissive.countMeaningfulChanges (diff pr)
     ≤ Conservative.countMeaningfulChanges (diff pr))%Z ∧
    (Permissive.isRelevantPR pr f = true → Conservative.isRelevantPR pr f = true).
Proof.
  intros pr f.
  pose proof (permissive_count_le (diff pr)) as Hle.
  split; [exact Hle|].
  unfold Conservative.isRelevantPR, Permissive.isRelevantPR, isRelevantPR_with.
  destruct (description_has pr (excludePatterns f)); [done|].
  destruct (_ <? minDiffSize f)%Z; [done|]. cbn zeta.
  destruct (Z.ltb_spec (Permissive.countMeaningfulChanges (diff pr))
              (minCodeChanges f)); [done|].
  destruct (Z.ltb_spec (Conservative.countMeaningfulChanges (diff pr))
              (minCodeChanges f)); [lia|done].
Qed.

Lemma join_lines_cons (l : str) (rest : list str) :
  rest ≠ [] → join_lines (l :: rest) = l ++ LF :: join_lines rest.
Proof. by destruct rest. Qed.

(** Splitting the joined lines gives the lines back. *)
Lemma split_on_join_lines (lines : list str) :
  lines ≠ [] → Forall (λ l, LF ∉ l) lines →
  split_on LF (join_lines lines) = lines.
Proof.
  intros Hne Hall. induction Hall as [|l rest Hl Hall IH]; [done|].
  destruct rest as [|l' rest].
  - by apply split_on_no_sep.
  - rewrite join_lines_cons by done. rewrite split_on_app.
    rewrite (split_on_no_sep LF l Hl). by rewrite IH.
Qed.

Lemma remove_spaces_all_space (ws : str) :
  Forall (λ c, is_space c = true ∧ c ≠ LF) ws → remove_spaces ws = [].
Proof.
  induction 1 as [|c ws [Hc _] _ IH]; [done|].
  unfold remove_spaces in *. rewrite filter_cons, decide_False; [done|].
  by rewrite Hc.
Qed.

Lemma blank_change_not_counted line :
  blank_change line → (LF ∉ line) ∧ counted_plain line = false.
Proof.
  intros (marker & ws & -> & Hm & Hws). split.
  - intros [H|H]%elem_of_cons.
    + destruct Hm as [-> | ->]; discriminate H.
    + by apply (proj1 (Forall_forall _ _) Hws) in H as [_ H].
  - unfold counted_plain, whitespace_only_change.
    change (marker :: ws) with ([marker] ++ ws).
    rewrite remove_spaces_app, (remove_spaces_all_space ws Hws), app_nil_r.
    destruct Hm as [-> | ->]; done.
Qed.

(** [X5] A diff made only of changed lines that hold white space after their
    [+] or [-] marker has no meaningful change: both variants of
    [countMeaningfulChanges] return 0. *)
Theorem blank_changes_count_zero :
  ∀ lines : list str,
    lines ≠ [] →
    Forall blank_change lines →
    Conservative.countMeaningfulChanges (join_lines lines) = 0%Z ∧
    Permissive.countMeaningfulChanges (join_lines lines) = 0%Z.
Proof.
  intros lines Hne Hall.
  assert (Hsplit : split_on LF (join_lines lines) = lines).
  { apply split_on_join_lines; [done|].
    eapply Forall_impl; [exact Hall|]. intros l Hl.
    by apply blank_change_not_counted. }
  assert (Hzero : count_lines counted_plain lines = 0%Z).
  { unfold count_lines. clear Hsplit Hne.
    induction Hall as [|l rest Hl _ IH]; [done|].
    rewrite filter_cons, decide_False; [exact IH|].
    apply blank_change_not_counted in Hl as [_ Hl]. by rewrite Hl. }
  pose proof (permissive_count_le (join_lines lines)) as Hle.
  rewrite conservative_count_lines, Hsplit, Hzero in *.
  split; [done|].
  rewrite permissive_count_lines in *. unfold count_lines in *. lia.
Qed.

Lemma blank_changes_count_zero_witness :
  Conservative.countMeaningfulChanges (join_lines blank_diff_lines) = 0%Z ∧
  Permissive.countMeaningfulChanges (join_lines blank_diff_lines) = 0%Z.
Proof.
  apply blank_changes_count_zero; [done|].
  repeat apply Forall_cons_2; [..|apply Forall_nil_2].
  - exists "+"%char, (lit "   "). split; [done|]. split; [by left|].
    repeat constructor; done.
  - exists "-"%char, [ascii_of_nat 9]. split; [done|]. split; [by right|].
    repeat constructor; done.
  - exists "+"%char, []. split; [done|]. split; [by left|]. constructor.
Defined.

Lemma filter_all_id {A} (P : A → Prop) `{!∀ x, Decision (P x)} (l : list A) :
  Forall P l → filter P l = l.
Proof.
  induction 1 as [|x l Hx _ IH]; [done|].
  by rewrite filter_cons, decide_True, IH.
Qed.

Lemma Forall_filter_holds {A} (P : A → Prop) `{!∀ x, Decision (P x)} (l : list A) :
  Forall P (filter P l).
Proof. apply Forall_forall. intros x Hx. by apply list_elem_of_filter in Hx as [? _]. Qed.

(** [X6] Filtering composes as paging needs it.  Filtering a result again
    with the same policy changes nothing, in both variants.  The uncapped
    variant filters a concatenation piecewise.  In the capped variant, once
    a batch has given five items, further items appended to the batch never
    change the result; and the result never has more than five items. *)
Theorem filterPRs_composes :
  ∀ (a b : list DiffItem) (f : PRFilter),
    Conservative.filterPRs (Conservative.filterPRs a f) f = Conservative.filterPRs a f ∧
    Permissive.filterPRs (Permissive.filterPRs a f) f = Permissive.filterPRs a f ∧
    Permissive.filterPRs (a ++ b) f = Permissive.filterPRs a f ++ Permissive.filterPRs b f ∧
    (length (Conservative.filterPRs a f) ≤ 5)%nat ∧
    (length (Conservative.filterPRs a f) = 5%nat →
     Conservative.filterPRs (a ++ b) f = Conservative.filterPRs a f) ∧
    Conservative.filterPRs (a ++ b) f
    = take 5 (Conservative.filterPRs a f ++ Conservative.filterPRs b f).
Proof.
  intros a b f. unfold Conservative.filterPRs, Permissive.filterPRs.
  set (P := λ pr, Conservative.isRelevantPR pr f = true).
  set (Q := λ pr, Permissive.isRelevantPR pr f = true).
  split.
  { rewrite (filter_all_id P (take 5 (filter P a))).
    - by rewrite take_take.
    - apply Forall_take, Forall_filter_holds. }
  split. { apply filter_all_id, Forall_filter_holds. }
  split. { apply filter_app. }
  split. { rewrite length_take. lia. }
  split.
  { intros Hlen. rewrite length_take in Hlen.
    rewrite filter_app, take_app_le by lia. done. }
  rewrite filter_app.
  destruct (Nat.le_gt_cases 5 (length (filter P a))) as [Hge|Hlt].
  - rewrite take_app_le by lia.
    rewrite (take_app_le (take 5 (filter P a))) by (rewrite length_take; lia).
    by rewrite take_take.
  - rewrite (take_ge (filter P a)) by lia.
    rewrite !take_app_ge by lia. f_equal.
    rewrite take_take. f_equal. lia.
Qed.

(** ** Runs of the route *)

Section RouteRuns.
Import Route.

Lemma advance_advance w f1 n1 f2 n2 :
  advance (advance w f1 n1) f2 n2 = advance w (f1 ++ f2) (n1 + n2).
Proof.
  unfold advance. cbn. f_equal; [by rewrite app_assoc|rewrite length_app|]; lia.
Qed.

Lemma advance_nil w : advance w [] 0 = w.
Proof.
  destruct w. unfold advance. cbn. rewrite app_nil_r. f_equal; lia.
Qed.

Section Healthy.
Variable env : Env.
Hypothesis Hhealthy : healthy env.

Lemma healthy_write f w :
  writer_write f env w = (Ok tt, advance w [f] 0).
Proof using Type*.
  unfold writer_write. destruct Hhealthy as [Hw _]. rewrite Hw.
  unfold advance. cbn. do 2 f_equal; lia.
Qed.

Lemma healthy_send pr c obj w :
  send pr c obj env w = (Ok tt, advance w [SectionFrame (id pr) c obj] 0).
Proof using Type*. unfold send, try_catch. by rewrite healthy_write. Qed.

Lemma healthy_create n r w :
  requests w = n →
  create r env w = (Ok (answer env n r), advance w [] 1) ∧
  completes (answer env n r) = true.
Proof using Type*.
  intros <-. unfold create, answer. destruct Hhealthy as [_ Hc].
  destruct (Hc (requests w) r) as (s & -> & Hs). split; [|done].
  unfold advance. cbn. rewrite app_nil_r. do 2 f_equal; lia.
Qed.

Lemma healthy_for_await pr c s w :
  completes s = true →
  for_await pr c s env w
  = (Ok tt, advance w (content_frames (id pr) c (forwarded s)) 0).
Proof using Type*.
  revert w. induction s as [| |content next IH]; intros w Hs; [|done|].
  - cbn. by rewrite advance_nil.
  - cbn [for_await forwarded completes] in *. unfold bind.
    destruct content as [x|]; [destruct (truthy_str x)|].
    + rewrite healthy_send, IH by done. by rewrite advance_advance.
    + cbn. by rewrite IH.
    + cbn. by rewrite IH.
Qed.

Lemma healthy_process_pr pr w :
  process_pr pr env w
  = (Ok tt,
     advance w
       (item_block (id pr)
          (forwarded (answer env (requests w) (dev_request pr)))
          (forwarded (answer env (S (requests w)) (marketing_request pr))))
       2).
Proof using Type*.
  unfold process_pr, bind, try_catch.
  destruct (healthy_create (requests w) (dev_request pr) w eq_refl) as [-> Hd].
  rewrite healthy_send, healthy_for_await, healthy_send by done.
  rewrite !advance_advance.
  match goal with
  | |- context [create ?r env ?w'] =>
      destruct (healthy_create (S (requests w)) r w') as [-> Hm];
        [cbn; lia|]
  end.
  rewrite healthy_send, healthy_for_await, healthy_send by done.
  rewrite !advance_advance. unfold item_block, channel_block.
  cbn [app]. by rewrite <- !app_assoc.
Qed.

Lemma healthy_for_of prs w :
  for_of prs env w
  = (Ok tt, advance w (expected_frames env (requests w) prs) (2 * length prs)).
Proof using Type*.
  revert w. induction prs as [|pr rest IH]; intros w.
  - cbn. by rewrite advance_nil.
  - cbn [for_of expected_frames length]. unfold bind.
    rewrite healthy_process_pr, IH, advance_advance.
    do 2 f_equal; [|lia].
    replace (requests (advance w _ 2)) with (S (S (requests w)))
      by (cbn; lia). done.
Qed.

End Healthy.

(** [X7] When nothing fails (every write resolves, every request gives a
    stream that ends by exhaustion), the asynchronous block of [POST]
    resolves and has written, per item and in item order, the block of the
    item: for each channel the opening frame, one content frame per
    non-empty fragment of the answer in arrival order, the completion frame;
    no error frame.  It has issued exactly two requests per item, one write
    per frame, and closed the writer once. *)
Theorem healthy_run_writes_every_fragment :
  ∀ (env : Env) (prs : list DiffItem),
    healthy env →
    stream_notes prs env initial
    = (Ok tt,
       {| written := expected_frames env 0 prs;
          writes := length (expected_frames env 0 prs);
          requests := 2 * length prs;
          closed := 1 |}).
Proof.
  intros env prs Hh. unfold stream_notes, try_finally, try_catch.
  rewrite (healthy_for_of env Hh). unfold writer_close.
  destruct Hh as [Hw _]. by rewrite Hw.
Qed.

Lemma healthy_env_healthy : healthy healthy_env.
Proof. split; [done|]. intros n r. by eexists. Qed.

Lemma healthy_run_writes_every_fragment_witness :
  stream_notes six_items healthy_env initial
  = (Ok tt,
     {| written := expected_frames healthy_env 0 six_items;
        writes := length (expected_frames healthy_env 0 six_items);
        requests := 2 * length six_items;
        closed := 1 |}).
Proof.
  exact (healthy_run_writes_every_fragment healthy_env six_items
           healthy_env_healthy).
Defined.

End RouteRuns.

Section RouteCost.
Import Route.

Lemma spends_weaken {A} (m : M A) (a b : nat) :
  spends m a → (a ≤ b)%nat → spends m b.
Proof. intros H Hab env w. specialize (H env w). lia. Qed.

Lemma spends_ret {A} (a : A) : spends (ret a) 0.
Proof. intros env w. cbn. lia. Qed.

Lemma spends_throw {A} (e : exn) : spends (throw (A:=A) e) 0.
Proof. intros env w. cbn. lia. Qed.

Lemma spends_bind {A B} (m : M A) (k : A → M B) (a b : nat) :
  spends m a → (∀ x, spends (k x) b) → spends (bind m k) (a + b).
Proof.
  intros Hm Hk env w. unfold bind. specialize (Hm env w).
  destruct (m env w) as [[x|e] w1]; cbn in *; [|lia].
  specialize (Hk x env w1). lia.
Qed.

Lemma spends_try_catch {A} (m : M A) (h : exn → M A) (a b : nat) :
  spends m a → (∀ e, spends (h e) b) → spends (try_catch m h) (a + b).
Proof.
  intros Hm Hh env w. unfold try_catch. specialize (Hm env w).
  destruct (m env w) as [[x|e] w1]; cbn in *; [lia|].
  specialize (Hh e env w1). lia.
Qed.

Lemma spends_writer_write f : spends (writer_write f) 0.
Proof.
  intros env w. unfold writer_write.
  destruct (write_outcome env (writes w)); cbn; lia.
Qed.

Lemma spends_send pr c obj : spends (send pr c obj) 0.
Proof.
  apply (spends_try_catch _ _ 0 0); [apply spends_writer_write|].
  intros e. apply spends_throw.
Qed.

Lemma spends_create r : spends (create r) 1.
Proof.
  intros env w. unfold create.
  destruct (create_outcome env (requests w) r); cbn; lia.
Qed.

Lemma spends_for_await pr c s : spends (for_await pr c s) 0.
Proof.
  induction s as [| |content next IH]; cbn [for_await].
  - apply spends_ret.
  - apply spends_throw.
  - apply (spends_bind _ _ 0 0); [|by intros _].
    destruct content as [x|]; [destruct (truthy_str x)|];
      first [apply spends_send|apply spends_ret].
Qed.

Lemma spends_process_pr pr : spends (process_pr pr) 2.
Proof.
  unfold process_pr.
  apply (spends_bind _ _ 1 1); [apply spends_create|]. intros devStream.
  apply (spends_try_catch _ _ 1 0).
  - apply (spends_bind _ _ 0 1); [apply spends_send|intros _].
    apply (spends_bind _ _ 0 1); [apply spends_for_await|intros _].
    apply (spends_bind _ _ 0 1); [apply spends_send|intros _].
    apply (spends_bind _ _ 1 0); [apply spends_create|intros marketingStream].
    apply (spends_bind _ _ 0 0); [apply spends_send|intros _].
    apply (spends_bind _ _ 0 0); [apply spends_for_await|intros _].
    apply spends_send.
  - intros e. apply (spends_bind _ _ 0 0); [apply spends_writer_write|].
    intros _. apply spends_throw.
Qed.

Lemma spends_for_of prs : spends (for_of prs) (2 * length prs).
Proof.
  induction prs as [|pr rest IH]; cbn [for_of length].
  - apply spends_ret.
  - eapply spends_weaken;
      [apply (spends_bind _ _ 2 (2 * length rest));
         [apply spends_process_pr|by intros _]|lia].
Qed.

Lemma spends_stream_notes prs : spends (stream_notes prs) (2 * length prs).
Proof.
  intros env w. unfold stream_notes.
  destruct (try_finally_close_world env
              (try_catch (for_of prs) (λ _, sendError internal_error_message))
              w) as (_ & _ & _ & ->).
  pose proof (spends_try_catch (for_of prs)
                (λ _, sendError internal_error_message) _ 0
                (spends_for_of prs) (λ _, spends_writer_write _) env w) as H.
  lia.
Qed.

(** [X8] A run never issues more than two completion requests per item it
    is given, whatever fails; so a [POST], which streams at most five items,
    issues at most ten. *)
Theorem requests_bounded :
  ∀ (env : Env) (prs diffs : list DiffItem) (f : PRFilter),
    (requests (stream_notes prs env initial).2 ≤ 2 * length prs)%nat ∧
    (requests (stream_notes (Conservative.filterPRs diffs f) env initial).2
     ≤ 10)%nat.
Proof.
  intros env prs diffs f. split.
  - pose proof (spends_stream_notes prs env initial) as H. cbn in H. lia.
  - pose proof (spends_stream_notes (Conservative.filterPRs diffs f) env initial)
      as H.
    assert (length (Conservative.filterPRs diffs f) ≤ 5)%nat
      by (unfold Conservative.filterPRs; rewrite length_take; lia).
    cbn in H. lia.
Qed.

(** [X9] The loop stops at the first item whose processing throws: the items
    before it were processed to the end, the world the loop leaves is the one
    that item left, and the exception is that item's.  No item after it
    causes a request or a write: the requests issued are at most two for
    each item up to the failing one. *)
Theorem loop_stops_at_first_failure :
  ∀ (env : Env) (prs : list DiffItem) (w w' : World) (e : exn),
    for_of prs env w = (Throw e, w') →
    ∃ done pr rest w1,
      prs = done ++ pr :: rest ∧
      for_of done env w = (Ok tt, w1) ∧
      process_pr pr env w1 = (Throw e, w') ∧
      (requests w' ≤ requests w + 2 * length done + 2)%nat.
Proof.
  intros env prs. induction prs as [|pr rest IH]; intros w w' e; [done|].
  cbn [for_of]. unfold bind.
  destruct (process_pr pr env w) as [[[]|e1] w1] eqn:Hpr.
  - intros Hrest.
    destruct (IH w1 w' e Hrest) as (done & p & rest' & w2 & -> & Hd & Hp & Hreq).
    exists (pr :: done), p, rest', w2. split; [done|].
    split; [cbn [for_of]; unfold bind; by rewrite Hpr|].
    split; [done|].
    pose proof (spends_process_pr pr env w) as H. rewrite Hpr in H.
    cbn [length] in *. cbn in H. lia.
  - intros [= <- <-]. exists [], pr, rest, w. split; [done|].
    split; [done|]. split; [done|].
    pose proof (spends_process_pr pr env w) as H. rewrite Hpr in H.
    cbn in *. lia.
Qed.

Lemma loop_stops_at_first_failure_witness :
  ∃ done pr rest w1,
    [sample_item (lit "1"); sample_item (lit "2")] = done ++ pr :: rest ∧
    for_of done sample_env initial = (Ok tt, w1) ∧
    process_pr pr sample_env w1
    = (Throw (JsError (lit "rate limit")),
       (for_of [sample_item (lit "1"); sample_item (lit "2")] sample_env initial).2) ∧
    (requests (for_of [sample_item (lit "1"); sample_item (lit "2")]
                 sample_env initial).2
     ≤ requests initial + 2 * length done + 2)%nat.
Proof.
  exact (loop_stops_at_first_failure sample_env
           [sample_item (lit "1"); sample_item (lit "2")] initial _ _ eq_refl).
Defined.

(** [X10] Whatever fails, the asynchronous block calls [close] on the
    writer exactly once.  While every write resolves, failures of the
    generation are reported in the stream and the block resolves.  When the
    loop completes, the block writes nothing after it, and it resolves or
    rejects as the closing of the writer does: it rejects exactly when the
    stream has errored or been cancelled by then. *)
Theorem block_closes_once_and_resolves :
  ∀ (env : Env) (prs : list DiffItem) (w : World),
    closed (stream_notes prs env w).2 = S (closed w) ∧
    (writes_succeed env → (stream_notes prs env w).1 = Ok tt) ∧
    ((for_of prs env w).1 = Ok tt →
     written (stream_notes prs env w).2 = written (for_of prs env w).2 ∧
     (stream_notes prs env w).1
     = match write_outcome env (writes (for_of prs env w).2) with
       | None => Ok tt
       | Some e => Throw e
       end).
Proof.
  intros env prs w.
  destruct (emits_for_of env prs w) as (tr & _ & Hc & _).
  unfold stream_notes, try_finally, try_catch, writer_close.
  destruct (for_of prs env w) as [[[]|e] w1]; cbn [fst snd] in *.
  - destruct (write_outcome env (writes w1)) as [e'|] eqn:Hw; cbn;
      rewrite Hc; (split; [done|]); (split; [|done]).
    + intros Hall. by rewrite Hall in Hw.
    + done.
  - unfold sendError, writer_write.
    destruct (write_outcome env (writes w1)) as [e'|] eqn:Hw; cbn;
      destruct (write_outcome env (S (writes w1))) as [e''|] eqn:Hw2; cbn;
      rewrite Hc; (split; [done|]); (split; [|done]); intros Hall;
      try (by rewrite Hall in Hw); try (by rewrite Hall in Hw2); done.
Qed.

End RouteCost.

(** [X11] [POST] answers 400 exactly when [isRelevantPR] accepts no item of
    the request under [DEFAULT_FILTERS].  Otherwise every frame it streams is
    an error frame or carries the identifier of an item of the request that
    [isRelevantPR] accepts, and the frames are those of a run over the
    accepted items (the first five of them). *)
Theorem POST_streams_accepted_items :
  ∀ (env : Route.Env) (diffs : list DiffItem),
    match Route.POST env diffs with
    | Route.BadRequest _ =>
        ∀ pr, pr ∈ diffs →
              Conservative.isRelevantPR pr Conservative.DEFAULT_FILTERS = false
    | Route.EventStream frames =>
        Conservative.filterPRs diffs Conservative.DEFAULT_FILTERS ≠ [] ∧
        Route.emitted
          (Conservative.filterPRs diffs Conservative.DEFAULT_FILTERS) frames ∧
        ∀ f, f ∈ frames →
             is_error_frame f = true ∨
             ∃ pr, pr ∈ diffs ∧
                   Conservative.isRelevantPR pr Conservative.DEFAULT_FILTERS = true ∧
                   frame_carries (id pr) f
    end.
Proof.
  intros env diffs. unfold Route.POST.
  set (prs := Conservative.filterPRs diffs Conservative.DEFAULT_FILTERS).
  destruct (bool_decide_reflect (length prs = 0%nat)) as [Hlen|Hlen].
  - intros pr Hin. apply length_zero_iff_nil in Hlen.
    destruct (Conservative.isRelevantPR pr Conservative.DEFAULT_FILTERS) eqn:Hrel;
      [|done].
    assert (Hf : pr ∈ filter
                   (λ pr, Conservative.isRelevantPR pr Conservative.DEFAULT_FILTERS = true)
                   diffs) by (by apply list_elem_of_filter).
    unfold prs, Conservative.filterPRs in Hlen.
    destruct (filter _ diffs); [by apply elem_of_nil in Hf|done].
  - destruct (stream_notes_emitted env prs) as [Hem _].
    split; [by intros ->|]. split; [exact Hem|].
    intros f Hf.
    destruct (emitted_frames _ _ _ Hem Hf) as [?|(pr & Hpr & Hc)]; [by left|].
    right. exists pr.
    apply (sublist_subseteq _ _ (sublist_take _ _)) in Hpr.
    apply list_elem_of_filter in Hpr as [Hrel Hpr]. done.
Qed.

(** ** The overlap-safe merge and the reducer *)

(** [X12] The merged text starts with the accumulated text and ends with the
    fragment, so accumulated text only grows; its length is at least the
    longer of the two and at most their sum, the difference to the sum being
    the overlap that was dropped. *)
Theorem mergeWithOverlap_grows :
  ∀ prev fragment : str,
    prev `prefix_of` Client.mergeWithOverlap prev fragment ∧
    fragment `suffix_of` Client.mergeWithOverlap prev fragment ∧
    length (Client.mergeWithOverlap prev fragment)
    = (length prev + length fragment - max_overlap prev fragment)%nat ∧
    (Nat.max (length prev) (length fragment)
     ≤ length (Client.mergeWithOverlap prev fragment)
     ≤ length prev + length fragment)%nat.
Proof.
  intros prev fragment.
  destruct (max_overlap_largest prev fragment) as [[Hle _] _].
  split. { rewrite mergeWithOverlap_max_overlap. by apply prefix_app_r. }
  split. { rewrite mergeWithOverlap_ends. by apply suffix_app_r. }
  assert (Hlen : length (Client.mergeWithOverlap prev fragment)
                 = (length prev + length fragment - max_overlap prev fragment)%nat).
  { rewrite mergeWithOverlap_max_overlap, length_app, length_drop. lia. }
  split; [exact Hlen|]. lia.
Qed.

Lemma channel_text_merge_content_same (x : str) (d : bool) (a : str)
    (m : gmap str Client.NoteState) :
  channel_text (Client.merge_content x d a m) x (channel_of d)
  = Client.mergeWithOverlap (channel_text m x (channel_of d)) a.
Proof.
  unfold channel_text, Client.merge_content. rewrite lookup_insert_eq.
  destruct d; cbn [channel_of Client.developer Client.marketing default];
    rewrite merge_field_default; by destruct (m !! x).
Qed.

Lemma channel_text_merge_content_other (x y : str) (d : bool) (a : str)
    (c : ChannelName) (m : gmap str Client.NoteState) :
  (y, c) ≠ (x, channel_of d) →
  channel_text (Client.merge_content x d a m) y c = channel_text m y c.
Proof.
  intros Hne. unfold channel_text, Client.merge_content.
  destruct (decide (x = y)) as [->|Hxy].
  - rewrite lookup_insert_eq.
    destruct d, c; cbn [channel_of] in *; try done;
      by destruct (m !! y).
  - by rewrite lookup_insert_ne.
Qed.

Lemma channel_text_attach_tools (x y : str) (t : json) (c : ChannelName)
    (m : gmap str Client.NoteState) :
  channel_text (Client.attach_tools x t m) y c = channel_text m y c.
Proof.
  unfold channel_text, Client.attach_tools.
  destruct (decide (x = y)) as [->|Hxy].
  - rewrite lookup_insert_eq. destruct (m !! y) as [n|]; [|by destruct c].
    by destruct c.
  - by rewrite lookup_insert_ne.
Qed.

Lemma notes_grow_refl m : notes_grow m m.
Proof. split; [done|]. intros x c. done. Qed.

Lemma notes_grow_trans m1 m2 m3 :
  notes_grow m1 m2 → notes_grow m2 m3 → notes_grow m1 m3.
Proof.
  intros [K1 T1] [K2 T2]. split; [by auto|].
  intros x c. etrans; [apply T1|apply T2].
Qed.

Lemma notes_grow_merge_content x d a m :
  notes_grow m (Client.merge_content x d a m).
Proof.
  split.
  - intros y Hy. unfold Client.merge_content.
    destruct (decide (x = y)) as [->|Hxy];
      [by rewrite lookup_insert_eq|by rewrite lookup_insert_ne].
  - intros y c. destruct (decide ((y, c) = (x, channel_of d))) as [[= -> ->]|Hne].
    + rewrite channel_text_merge_content_same.
      rewrite mergeWithOverlap_max_overlap. by apply prefix_app_r.
    + by rewrite channel_text_merge_content_other.
Qed.

Lemma notes_grow_attach_tools x t m :
  notes_grow m (Client.attach_tools x t m).
Proof.
  split.
  - intros y Hy. unfold Client.attach_tools.
    destruct (decide (x = y)) as [->|Hxy];
      [by rewrite lookup_insert_eq|by rewrite lookup_insert_ne].
  - intros y c. by rewrite channel_text_attach_tools.
Qed.

(** Whatever the payload, the reducer only lets the notes grow, and it
    touches neither [error] nor [isGeneratingNotes]. *)
Lemma apply_payload_grows (payload : json) (page : Client.Page) :
  notes_grow (Client.notesByPR page)
    (Client.notesByPR (state_of (Client.apply_payload payload page))) ∧
  Client.error (state_of (Client.apply_payload payload page)) = Client.error page ∧
  Client.isGeneratingNotes (state_of (Client.apply_payload payload page))
  = Client.isGeneratingNotes page.
Proof.
  unfold Client.apply_payload.
  destruct payload as [|b|n|s|items|members];
    try (split; [apply notes_grow_refl|done]).
  all: repeat match goal with
         | |- context [if ?b then _ else _] => destruct b
         | |- context [match ?o with Some _ => _ | None => _ end] => destruct o
         end;
       cbn [state_of Client.set_notes Client.notesByPR Client.error
            Client.isGeneratingNotes];
       (split; [|done]);
       first [apply notes_grow_refl|apply notes_grow_merge_content
             |apply notes_grow_attach_tools].
Qed.

Section LoopInvariant.
Context {St : Type}.
Variable parse : str → option json.
Variable on_payload : json → St → Client.Outcome St.
Variable R : St → St → Prop.
Hypothesis R_refl : ∀ st, R st st.
Hypothesis R_trans : ∀ a b c, R a b → R b c → R a c.
Hypothesis R_step : ∀ payload st, R st (state_of (on_payload payload st)).

Lemma on_event_preserves rawEvent st :
  R st (state_of (Client.on_event parse on_payload rawEvent st)).
Proof using Type*.
  unfold Client.on_event.
  repeat match goal with
         | |- context [if ?b then _ else _] => destruct b
         | |- context [match ?o with Some _ => _ | None => _ end] => destruct o
         end; cbn [state_of]; auto.
Qed.

Lemma drain_preserves fuel buffer st :
  R st (state_of (Client.drain parse on_payload fuel buffer st).2).
Proof using Type*.
  revert buffer st. induction fuel as [|fuel IH]; intros buffer st; [apply R_refl|].
  cbn [Client.drain]. destruct (Client.indexOf buffer [LF; LF]); [|apply R_refl].
  pose proof (on_event_preserves
                (trim (slice buffer 0 (Some (Z.of_nat n)))) st) as Hev.
  destruct (Client.on_event _ _ _ _) as [st'|message st']; cbn [state_of] in *.
  - eapply R_trans; [exact Hev|apply IH].
  - exact Hev.
Qed.

Lemma read_loop_preserves chunks read_error buffer st :
  R st (state_of (Client.read_loop parse on_payload chunks read_error buffer st).2).
Proof using Type*.
  revert buffer st. induction chunks as [|value rest IH]; intros buffer st.
  - cbn. destruct read_error; apply R_refl.
  - cbn [Client.read_loop].
    pose proof (drain_preserves (length (buffer ++ value)) (buffer ++ value) st)
      as Hd.
    destruct (Client.drain _ _ _ _ _) as [b' [st'|message st']];
      cbn [snd state_of] in *.
    + eapply R_trans; [exact Hd|apply IH].
    + exact Hd.
Qed.

End LoopInvariant.




Lemma apply_payload_tools (x : str) (t : json) (page : Client.Page) :
  truthy (Some t) = true →
  Client.apply_payload (tools_payload x t) page
  = Client.Normal (Client.set_notes (Client.attach_tools x t) page).
Proof.
  intros Ht. unfold Client.apply_payload, tools_payload.
  cbn [field].
  set (ms := [(lit "prId", JString x); (lit "type", JString (lit "tools"));
              (lit "tools", t)]).
  assert (H1 : get_member (lit "done") ms = None) by reflexivity.
  assert (H2 : get_member (lit "type") ms = Some (JString (lit "tools")))
    by reflexivity.
  assert (H3 : get_member (lit "tools") ms = Some t) by reflexivity.
  assert (H4 : get_member (lit "prId") ms = Some (JString x)) by reflexivity.
  rewrite H1, H2, H3, H4, Ht. cbn [Client.key_of].
  change (truthy None) with false.
  change (is_string (Some (JString (lit "tools"))) (lit "tools")) with true.
  reflexivity.
Qed.

(** [X15] A tools frame (a payload of type [tools] carrying a truthy [tools]
    value) attaches that value to the item, replacing any earlier one, and
    leaves the text of every channel of every item as it was, also when the
    item had no notes yet.  Content frames that follow keep the attached
    value, and on an item first seen through a tools frame the first content
    fragment becomes the channel text. *)
Theorem tools_frame_attaches_without_touching_text :
  ∀ (page : Client.Page) (x : str) (t : json),
    truthy (Some t) = true →
    let page' := state_of (Client.apply_payload (tools_payload x t) page) in
    (Client.tools <$> Client.notesByPR page' !! x) = Some (Some t) ∧
    (∀ y c, channel_text (Client.notesByPR page') y c
            = channel_text (Client.notesByPR page) y c) ∧
    (∀ y, y ≠ x → Client.notesByPR page' !! y = Client.notesByPR page !! y) ∧
    (∀ c a,
       Client.tools <$>
         Client.notesByPR
           (state_of (Client.apply_payload
                        (payload_json (SectionFrame x c (ContentObj a))) page'))
         !! x
       = Some (Some t)) ∧
    (Client.notesByPR page !! x = None →
     ∀ c a,
       channel_text
         (Client.notesByPR
            (state_of (Client.apply_payload
                         (payload_json (SectionFrame x c (ContentObj a))) page')))
         x c
       = a).
Proof.
  intros page x t Ht page'. subst page'.
  rewrite (apply_payload_tools x t page Ht).
  cbn [state_of Client.set_notes Client.notesByPR].
  split. { unfold Client.attach_tools. by rewrite lookup_insert_eq. }
  split. { intros y c. apply channel_text_attach_tools. }
  split. { intros y Hy. unfold Client.attach_tools. by rewrite lookup_insert_ne. }
  split.
  - intros c a. rewrite apply_payload_content.
    cbn [state_of Client.set_notes Client.notesByPR].
    unfold Client.merge_content, Client.attach_tools.
    rewrite !lookup_insert_eq. cbn [default].
    by destruct (bool_decide (c = Developer)).
  - intros Hnone c a. rewrite apply_payload_content.
    cbn [state_of Client.set_notes Client.notesByPR].
    pose proof (channel_text_merge_content_same x (bool_decide (c = Developer)) a
                  (Client.attach_tools x t (Client.notesByPR page))) as H.
    assert (Hc : channel_of (bool_decide (c = Developer)) = c) by (by destruct c).
    rewrite Hc in H. rewrite H, channel_text_attach_tools.
    unfold channel_text. rewrite Hnone. by destruct a.
Qed.

Lemma tools_frame_attaches_without_touching_text_witness :
  (Client.tools <$>
     Client.notesByPR
       (state_of (Client.apply_payload
                    (tools_payload (lit "42") (JObject [])) empty_page))
     !! lit "42")
  = Some (Some (JObject [])).
Proof.
  exact (proj1 (tools_frame_attaches_without_touching_text empty_page
                  (lit "42") (JObject []) eq_refl)).
Defined.

(** ** The decode loop on arbitrary text *)

Section DecodeAnyText.
Context {St : Type}.
Variable parse : str → option json.
Variable on_payload : json → St → Client.Outcome St.

Lemma read_loop_read_error (chunks : list str) (message : str)
    (buffer : str) (st : St) :
  (Client.read_loop parse on_payload chunks (Some message) buffer st).2
  = then_read_error message
      (Client.read_loop parse on_payload chunks None buffer st).2.
Proof.
  revert buffer st. induction chunks as [|value rest IH]; intros buffer st; [done|].
  cbn [Client.read_loop].
  destruct (Client.drain _ _ _ _ _) as [b' [st'|m st']]; [apply IH|done].
Qed.

Lemma read_loop_concat (chunks : list str) (read_error : option str) (st : St) :
  (Client.read_loop parse on_payload chunks read_error [] st).2
  = match read_error with
    | None => (drain_all parse on_payload (concat chunks) st).2
    | Some message =>
        then_read_error message
          (drain_all parse on_payload (concat chunks) st).2
    end.
Proof.
  pose proof (read_loop_drain_all parse on_payload chunks [] [] st st eq_refl)
    as H.
  cbn [app] in H. destruct read_error as [message|]; [|exact H].
  by rewrite read_loop_read_error, H.
Qed.

(** The separator is found right after a text that neither holds a blank
    line nor ends in a line feed. *)
Lemma indexOf_event (r rest : str) :
  Client.indexOf (r ++ [LF]) [LF; LF] = None →
  Client.indexOf (r ++ LF :: LF :: rest) [LF; LF] = Some (length r).
Proof.
  induction r as [|c r IH]; intros H.
  - cbn. by rewrite !decide_True.
  - cbn [app Client.indexOf] in *.
    destruct (startsWith [LF; LF] (c :: r ++ [LF])) eqn:Hs; [done|].
    destruct (Client.indexOf (r ++ [LF]) [LF; LF]) eqn:Hi; [done|].
    rewrite (IH eq_refl).
    assert (Hs' : startsWith [LF; LF] (c :: r ++ LF :: LF :: rest) = false).
    { cbn [startsWith] in *. destruct (decide (LF = c)); [|done].
      destruct r as [|d r]; cbn [app] in *; [by rewrite decide_True in Hs|].
      by destruct (decide (LF = d)). }
    by rewrite Hs'.
Qed.

(** One event at the head of the text: the loop hands it, trimmed, to the
    body and goes on with what follows the blank line. *)
Lemma drain_event (r rest : str) (st : St) :
  Client.indexOf (r ++ [LF]) [LF; LF] = None →
  drain_all parse on_payload (r ++ LF :: LF :: rest) st
  = match Client.on_event parse on_payload (trim r) st with
    | Client.Normal st' => drain_all parse on_payload rest st'
    | Client.Abrupt message st' => (rest, Client.Abrupt message st')
    end.
Proof.
  intros Hr. unfold drain_all.
  destruct (length (r ++ LF :: LF :: rest)) as [|m] eqn:Hlen;
    [rewrite length_app in Hlen; cbn in Hlen; lia|].
  cbn [Client.drain]. rewrite (indexOf_event r rest Hr).
  rewrite slice_take, take_app_length, slice_drop by lia.
  replace (r ++ LF :: LF :: rest) with ((r ++ [LF; LF]) ++ rest)
    by (by rewrite <- app_assoc).
  replace (length r + Z.to_nat 2)%nat with (length (r ++ [LF; LF]))
    by (rewrite length_app; cbn; lia).
  rewrite drop_app_length.
  destruct (Client.on_event _ _ _ _) as [st'|message st']; [|done].
  apply drain_fuel; [|done].
  rewrite length_app in Hlen. cbn in Hlen. lia.
Qed.

End DecodeAnyText.

Section DecodedPayloads.
Context {St : Type}.
Variable parse : str → option json.
Variable on_payload : json → St → Client.Outcome St.

(** The loop hands over what it parses, one payload after the other, until
    a payload makes the consumer throw. *)
Lemma drain_decoded (fuel : nat) (buffer : str) (log : list json) :
  ∃ new,
    (Client.drain parse record_payload fuel buffer log).2
    = Client.Normal (log ++ new) ∧
    ∀ st, (Client.drain parse on_payload fuel buffer st).2
          = Client.feed on_payload new st.
Proof.
  revert buffer log. induction fuel as [|fuel IH]; intros buffer log.
  { exists []. by rewrite app_nil_r. }
  cbn [Client.drain]. destruct (Client.indexOf buffer [LF; LF]) as [n|];
    [|exists []; by rewrite app_nil_r].
  set (rawEvent := trim (slice buffer 0 (Some (Z.of_nat n)))).
  set (buffer' := slice buffer (Z.of_nat n + 2) None).
  unfold Client.on_event.
  destruct (negb (startsWith (lit "data:") rawEvent)); [apply IH|].
  destruct (negb (truthy_str (trim (slice rawEvent 5 None)))); [apply IH|].
  destruct (parse (trim (slice rawEvent 5 None))) as [payload|]; [|apply IH].
  unfold record_payload at 1.
  destruct (IH buffer' (log ++ [payload])) as (new & Hlog & Hst).
  exists (payload :: new). split; [by rewrite Hlog, <- app_assoc|].
  intros st. cbn [Client.feed].
  destruct (on_payload payload st) as [st'|message st']; [apply Hst|done].
Qed.

Lemma drain_all_decoded (text : str) (st : St) :
  (drain_all parse on_payload text st).2
  = Client.feed on_payload (decoded parse text) st.
Proof.
  unfold decoded, drain_all.
  destruct (drain_decoded (length text) text []) as (new & -> & Hst).
  by rewrite Hst.
Qed.

End DecodedPayloads.

Lemma feed_apply_payload_grows (payloads : list json) (page : Client.Page) :
  Forall (λ v, declared v = true) payloads →
  notes_grow (Client.notesByPR page)
    (Client.notesByPR
       (state_of (Client.feed Client.apply_payload payloads page))).
Proof.
  intros Hd. revert page.
  induction Hd as [|payload payloads _ _ IH]; intros page;
    [apply notes_grow_refl|].
  cbn [Client.feed].
  pose proof (apply_payload_grows payload page) as [Hg _].
  destruct (Client.apply_payload payload page) as [page1|message page1];
    cbn [state_of] in *; [|done].
  eapply notes_grow_trans; [exact Hg|apply IH].
Qed.

(** [X13] Let every payload the decode loop parses out of the body have a
    string or no [prId] and a string or no [content], as the declared
    payload type says, the [prId] naming no property that every object
    inherits.  Then, whatever else the stream holds and however it
    ends, [generateNotes] only lets the notes grow: every item that had
    notes still has them, and the text of every channel starts with what it
    was before.  Nothing accumulated is lost when the stream breaks, a
    record is malformed or a read fails. *)
Theorem generateNotes_only_grows_notes :
  ∀ (J : JSON) (diffs : list DiffItem) (response : Client.FetchResponse)
    (page : Client.Page),
    (∀ chunks read_error,
       Client.body response = Some (chunks, read_error) →
       Forall (λ v, declared v = true)
         (decoded (JSON_parse J) (concat chunks))) →
    notes_grow (Client.notesByPR page)
      (Client.notesByPR (Client.generateNotes J diffs response page)).
Proof.
  intros J diffs response page Hdeclared. unfold Client.generateNotes.
  destruct (bool_decide _); [apply notes_grow_refl|].
  destruct (Client.ok response); cbn [negb]; [|apply notes_grow_refl].
  destruct (Client.body response) as [[chunks read_error]|];
    [|apply notes_grow_refl].
  specialize (Hdeclared chunks read_error eq_refl).
  set (page0 := {| Client.notesByPR := Client.notesByPR page;
                   Client.error := None; Client.isGeneratingNotes := true |}).
  pose proof (feed_apply_payload_grows _ page0 Hdeclared) as H.
  rewrite read_loop_concat, drain_all_decoded.
  destruct read_error as [message|];
    destruct (Client.feed _ _ _) as [page1|m page1]; exact H.
Qed.

Lemma generateNotes_only_grows_notes_witness :
  notes_grow (Client.notesByPR page_with_notes)
    (Client.notesByPR
       (Client.generateNotes JsonRef.reference
          [sample_item (lit "1"); sample_item (lit "2")]
          {| Client.ok := true;
             Client.body :=
               Some ([take 40 (wire JsonRef.reference two_item_frames);
                      drop 40 (wire JsonRef.reference two_item_frames)],
                     Some (lit "network error")) |}
          page_with_notes)).
Proof.
  apply generateNotes_only_grows_notes.
  intros chunks read_error [= <- <-].
  apply Forall_forall. intros v Hv. revert v Hv. apply Forall_forall.
  vm_compute. repeat constructor.
Defined.

(** [X16] What the read loop does depends only on the text received, not on
    how the transport cut it into chunks: two chunk sequences with the same
    concatenation leave the same outcome, for any parser and any consumer of
    the payloads, whether the stream ends or a read fails after them. *)
Theorem read_loop_ignores_chunking :
  ∀ (St : Type) (parse : str → option json)
    (on_payload : json → St → Client.Outcome St)
    (chunks1 chunks2 : list str) (read_error : option str) (st : St),
    concat chunks1 = concat chunks2 →
    (Client.read_loop parse on_payload chunks1 read_error [] st).2
    = (Client.read_loop parse on_payload chunks2 read_error [] st).2.
Proof.
  intros St parse on_payload chunks1 chunks2 read_error st Heq.
  by rewrite !read_loop_concat, Heq.
Qed.

Lemma read_loop_ignores_chunking_witness :
  (Client.read_loop JsonRef.parse record_payload sample_chunks None [] []).2
  = (Client.read_loop JsonRef.parse record_payload
       [wire JsonRef.reference sample_frames] None [] []).2.
Proof.
  apply read_loop_ignores_chunking. by vm_compute.
Defined.

(** [X17] Decoding is not stopped by a record it cannot use.  An event that
    holds no blank line and is followed by one is taken whole; if, once
    trimmed, it does not start with [data:], or holds only white space after
    [data:], or holds text that [JSON.parse] rejects, the state is left as it
    is and decoding goes on with the text after the blank line. *)
Theorem unusable_record_is_skipped :
  ∀ (St : Type) (parse : str → option json)
    (on_payload : json → St → Client.Outcome St) (r rest : str) (st : St),
    Client.indexOf (r ++ [LF]) [LF; LF] = None →
    startsWith (lit "data:") (trim r) = false ∨
    trim (slice (trim r) 5 None) = [] ∨
    parse (trim (slice (trim r) 5 None)) = None →
    drain_all parse on_payload (r ++ LF :: LF :: rest) st
    = drain_all parse on_payload rest st.
Proof.
  intros St parse on_payload r rest st Hr Hskip.
  rewrite drain_event by done.
  assert (Hev : Client.on_event parse on_payload (trim r) st = Client.Normal st).
  { unfold Client.on_event.
    destruct Hskip as [->|[->| ->]]; [done|by destruct (startsWith _ _)|].
    destruct (startsWith _ _); [|done]. by destruct (truthy_str _). }
  by rewrite Hev.
Qed.

Lemma unusable_record_is_skipped_witness :
  drain_all JsonRef.parse record_payload
    (lit "data: {not json" ++ LF :: LF
       :: encode JsonRef.reference
            (SectionFrame (lit "1") Developer (ContentObj (lit "def")))) []
  = drain_all JsonRef.parse record_payload
      (encode JsonRef.reference
         (SectionFrame (lit "1") Developer (ContentObj (lit "def")))) [].
Proof.
  apply unusable_record_is_skipped; [by vm_compute|].
  right. right. by vm_compute.
Defined.

(** ** [generateNotes]: which diffs it asks notes for *)

Lemma findIndex_first {A} (q : A → bool) (pre : list A) (d : A) (rest : list A) :
  Forall (λ x, q x = false) pre → q d = true →
  Client.findIndex q (pre ++ d :: rest) = Some (length pre).
Proof.
  intros Hpre Hd. induction Hpre as [|x pre Hx _ IH]; cbn.
  - by rewrite Hd.
  - by rewrite Hx, IH.
Qed.

Lemma findIndex_earlier {A} (q : A → bool) (pre suf : list A) :
  Exists (λ x, q x = true) pre →
  ∃ i, Client.findIndex q (pre ++ suf) = Some i ∧ (i < length pre)%nat.
Proof.
  induction 1 as [x pre Hx|x pre _ IH]; cbn.
  - rewrite Hx. exists O. split; [done|lia].
  - destruct (q x); [exists O; split; [done|lia]|].
    destruct IH as (i & -> & Hi). exists (S i). split; [done|lia].
Qed.

Lemma filter_indexed_keep_first (pre suf : list DiffItem) :
  Client.filter_indexed
    (λ d i, bool_decide
              (Client.findIndex (λ item, bool_decide (id item = id d)) (pre ++ suf)
               = Some i))
    (length pre) suf
  = keep_first (map id pre) suf.
Proof.
  revert pre. induction suf as [|d rest IH]; intros pre; [done|].
  cbn [Client.filter_indexed keep_first].
  specialize (IH (pre ++ [d])).
  rewrite <- app_assoc, length_app, map_app in IH. cbn [app length map] in IH.
  replace (length pre + 1)%nat with (S (length pre)) in IH by lia.
  rewrite IH.
  destruct (decide (id d ∈ map id pre)) as [Hin|Hnin].
  - rewrite bool_decide_eq_false_2; [done|].
    destruct (findIndex_earlier (λ item, bool_decide (id item = id d)) pre
                (d :: rest)) as (i & -> & Hi); [|intros [= ->]; lia].
    apply Exists_exists. apply list_elem_of_fmap in Hin as (x & Hx & Hin).
    exists x. split; [done|]. by apply bool_decide_eq_true_2.
  - rewrite bool_decide_eq_true_2; [done|].
    apply findIndex_first; [|by apply bool_decide_eq_true_2].
    apply Forall_forall. intros x Hx. apply bool_decide_eq_false_2.
    intros Heq. apply Hnin. apply list_elem_of_fmap. by exists x.
Qed.

Lemma first_of_each_id_keep_first (arr : list DiffItem) :
  Client.first_of_each_id arr = keep_first [] arr.
Proof. apply (filter_indexed_keep_first [] arr). Qed.

Lemma keep_first_sublist seen l : keep_first seen l `sublist_of` l.
Proof.
  revert seen. induction l as [|d rest IH]; intros seen; [done|].
  cbn [keep_first]. destruct (decide _); cbn [app].
  - by apply sublist_cons.
  - by apply sublist_skip.
Qed.

Lemma keep_first_ids seen l x :
  x ∈ map id (keep_first seen l) ↔ x ∈ map id l ∧ x ∉ seen.
Proof.
  revert seen. induction l as [|d rest IH]; intros seen.
  - cbn. split; [by intros ?%elem_of_nil|by intros [?%elem_of_nil _]].
  - cbn [keep_first map]. rewrite map_app, elem_of_app, IH, elem_of_cons.
    rewrite not_elem_of_app, list_elem_of_singleton.
    destruct (decide (id d ∈ seen)) as [Hin|Hnin]; cbn [map].
    + rewrite elem_of_nil. split; [tauto|].
      intros [[->|?] Hx]; [done|]. destruct (decide (x = id d)); [by subst|tauto].
    + rewrite list_elem_of_singleton. split.
      * intros [->|[? [? ?]]]; tauto.
      * intros [[->|?] Hx]; [tauto|]. destruct (decide (x = id d)); tauto.
Qed.

Lemma keep_first_NoDup seen l : NoDup (map id (keep_first seen l)).
Proof.
  revert seen. induction l as [|d rest IH]; intros seen; [constructor|].
  cbn [keep_first]. destruct (decide _); cbn [app map]; [apply IH|].
  constructor; [|apply IH].
  rewrite keep_first_ids, not_elem_of_app, list_elem_of_singleton. tauto.
Qed.

Lemma keep_first_keeps seen l1 d l2 :
  id d ∉ seen → id d ∉ map id l1 → d ∈ keep_first seen (l1 ++ d :: l2).
Proof.
  revert seen. induction l1 as [|e l1 IH]; intros seen Hs Hl; cbn [app keep_first].
  - rewrite decide_False by done. by left.
  - cbn [map] in Hl. apply not_elem_of_cons in Hl as [Hne Hl].
    apply elem_of_app. right. apply IH; [|done].
    rewrite not_elem_of_app, list_elem_of_singleton. done.
Qed.

(** [X18] The filter by which [generateNotes] makes identifiers unique
    keeps, in their order, exactly the first item of every identifier: the
    result has no repeated identifier, is a subsequence of the input, holds
    every identifier of the input, and holds each item that no item with the
    same identifier precedes. *)
Theorem first_of_each_id_spec :
  ∀ arr : list DiffItem,
    NoDup (map id (Client.first_of_each_id arr)) ∧
    Client.first_of_each_id arr `sublist_of` arr ∧
    (∀ x, x ∈ map id (Client.first_of_each_id arr) ↔ x ∈ map id arr) ∧
    (∀ l1 d l2, arr = l1 ++ d :: l2 → id d ∉ map id l1 →
                d ∈ Client.first_of_each_id arr).
Proof.
  intros arr. rewrite first_of_each_id_keep_first.
  split; [apply keep_first_NoDup|].
  split; [apply keep_first_sublist|].
  split.
  - intros x. rewrite keep_first_ids. split; [tauto|].
    intros H. split; [done|]. by intros ?%elem_of_nil.
  - intros l1 d l2 -> Hd. apply keep_first_keeps; [|done]. by intros ?%elem_of_nil.
Qed.

(** ** [generateNotes]: the request and the stream as a whole *)

Lemma keep_first_nil seen l :
  keep_first seen l = [] → Forall (λ d, id d ∈ seen) l.
Proof.
  intros H. apply Forall_forall. intros d Hd.
  destruct (decide (id d ∈ seen)) as [|Hn]; [done|].
  assert (Hin : id d ∈ map id (keep_first seen l)).
  { apply keep_first_ids. split; [|done]. apply list_elem_of_fmap. by exists d. }
  rewrite H in Hin. by apply elem_of_nil in Hin.
Qed.

Lemma pending_diffs_nil (page : Client.Page) (diffs : list DiffItem) :
  pending_diffs page diffs = []
  ↔ Forall (λ d, is_Some (Client.notesByPR page !! id d)) diffs.
Proof.
  unfold pending_diffs. rewrite first_of_each_id_keep_first. split.
  - intros H%keep_first_nil. apply Forall_forall. intros d Hd.
    destruct (Client.notesByPR page !! id d) eqn:Hl; [done|].
    assert (Hin : d ∈ filter (λ d, Client.notesByPR page !! id d = None) diffs)
      by (by apply list_elem_of_filter).
    rewrite Forall_forall in H. by apply H, elem_of_nil in Hin.
  - intros H.
    assert (Hnil : filter (λ d, Client.notesByPR page !! id d = None) diffs = []).
    { induction H as [|d l [n Hd] _ IH]; [done|].
      rewrite filter_cons_False; [done|]. by rewrite Hd. }
    by rewrite Hnil.
Qed.

Lemma pending_diffs_some (page : Client.Page) (diffs : list DiffItem) :
  Exists (λ d, Client.notesByPR page !! id d = None) diffs →
  pending_diffs page diffs ≠ [].
Proof.
  intros Hex Hnil. apply pending_diffs_nil in Hnil.
  apply Exists_exists in Hex as (d & Hd & Hnone).
  rewrite Forall_forall in Hnil. destruct (Hnil d Hd) as [n Hn]. congruence.
Qed.

(** [X19] [generateNotes] without a stream.  If every diff handed in
    already has notes (in particular if there is none), only the error
    message changes, whatever the server would have answered.  If some diff
    lacks notes as the source tests it (none of its own under the
    identifier, and the identifier names no property that every object
    inherits), the generating flag is lowered at the end, and a response
    that is not [ok] or has no body leaves the notes as they were and sets
    the message of the exception thrown; a read that fails always leaves a
    message. *)
Theorem generateNotes_without_stream :
  ∀ (J : JSON) (diffs : list DiffItem) (response : Client.FetchResponse)
    (page : Client.Page),
    let page' := Client.generateNotes J diffs response page in
    (Forall (λ d, is_Some (Client.notesByPR page !! id d)) diffs →
     page' = {| Client.notesByPR := Client.notesByPR page;
                Client.error := Some (lit "No new PRs to generate notes for");
                Client.isGeneratingNotes := Client.isGeneratingNotes page |}) ∧
    (Exists (lacks_notes page) diffs →
     Client.isGeneratingNotes page' = false ∧
     (Client.ok response = false →
      Client.notesByPR page' = Client.notesByPR page ∧
      Client.error page' = Some (lit "Request failed")) ∧
     (Client.ok response = true → Client.body response = None →
      Client.notesByPR page' = Client.notesByPR page ∧
      Client.error page' = Some (lit "ReadableStream not supported")) ∧
     (∀ chunks message,
        Client.ok response = true →
        Client.body response = Some (chunks, Some message) →
        is_Some (Client.error page'))).
Proof.
  intros J diffs response page page'. subst page'.
  unfold Client.generateNotes. fold (pending_diffs page diffs). split.
  - intros H%pending_diffs_nil. by rewrite H.
  - intros H. eapply Exists_impl in H; [|by intros d [Hd _]; exact Hd].
    apply pending_diffs_some in H. rewrite bool_decide_eq_false_2 by done.
    split; [by destruct (if negb _ then _ else _)|].
    split; [by intros ->|]. split.
    + by intros -> ->.
    + intros chunks message -> ->. cbn [negb].
      rewrite read_loop_read_error.
      by destruct (Client.read_loop _ _ _ _ _ _).2.
Qed.

Lemma indexOf_no_LF (s : str) :
  LF ∉ s → Client.indexOf (s ++ [LF]) [LF; LF] = None.
Proof.
  induction s as [|c s IH]; intros Hs.
  - cbn. by rewrite decide_True.
  - apply not_elem_of_cons in Hs as [Hc Hs].
    cbn [Client.indexOf app startsWith].
    rewrite decide_False by done. by rewrite (IH Hs).
Qed.

Lemma indexOf_second_line (a b : str) :
  LF ∉ a → head b ≠ Some LF → Client.indexOf b [LF; LF] = None →
  Client.indexOf (a ++ LF :: b) [LF; LF] = None.
Proof.
  intros Ha Hb Hi. induction a as [|c a IH].
  - cbn [app Client.indexOf startsWith]. rewrite decide_True by done.
    destruct b as [|d b]; [by rewrite Hi|].
    rewrite decide_False by (intros <-; by apply Hb). by rewrite Hi.
  - apply not_elem_of_cons in Ha as [Hc Ha].
    cbn [Client.indexOf app startsWith].
    rewrite decide_False by done. by rewrite (IH Ha).
Qed.


Section WholeStream.
Variable J : JSON.

(** The record of an error frame is one event that the page leaves aside:
    it starts with the [event:] line. *)
Lemma drain_error_record {St} (on_payload : json → St → Client.Outcome St)
    (message rest : str) (st : St) :
  json_text_ok J (payload_json (ErrorFrame message)) →
  drain_all (JSON_parse J) on_payload (encode J (ErrorFrame message) ++ rest) st
  = drain_all (JSON_parse J) on_payload rest st.
Proof.
  intros (_ & Hlf & Hhead & Hlast).
  set (t := JSON_stringify J (payload_json (ErrorFrame message))) in *.
  set (r := lit "event: error" ++ LF :: lit "data: " ++ t).
  assert (Henc : encode J (ErrorFrame message) ++ rest = r ++ LF :: LF :: rest).
  { unfold encode, r. fold t. by rewrite <- !app_assoc. }
  rewrite Henc.
  assert (Hr : Client.indexOf (r ++ [LF]) [LF; LF] = None).
  { unfold r. rewrite <- app_assoc. apply indexOf_second_line.
    - vm_compute. intros H.
      repeat (apply elem_of_cons in H as [H|H]; [discriminate H|]).
      by apply elem_of_nil in H.
    - done.
    - cbn [app]. change (lit "data: " ++ t ++ [LF]) with ((lit "data: " ++ t) ++ [LF]).
      apply indexOf_no_LF. intros [H|H]%elem_of_app; [|done].
      vm_compute in H.
      repeat (apply elem_of_cons in H as [H|H]; [discriminate H|]).
      by apply elem_of_nil in H. }
  rewrite (drain_event (JSON_parse J) on_payload r rest st Hr).
  assert (Htrim : trim r = r).
  { apply (trim_id r "e"%char "}"%char); [done| |done|done].
    replace r with ((lit "event: error" ++ LF :: lit "data: ") ++ t)
      by (unfold r; by rewrite <- app_assoc).
    rewrite last_app. by rewrite Hlast. }
  rewrite Htrim. unfold Client.on_event.
  by change (startsWith (lit "data:") r) with false.
Qed.


End WholeStream.




(** ** The route and the page together *)










(** ** The tools of a pull request *)

Section ToolsFacts.
Import Tools.

Lemma array_slice_take {A} (arr : list A) (k : nat) :
  array_slice arr 0 (Some (Z.of_nat k)) = take k arr.
Proof.
  unfold array_slice, rel_index.
  change (0 <? 0) with false. cbn match.
  destruct (Z.ltb_spec (Z.of_nat k) 0) as [|_]; [lia|].
  rewrite (Z.min_l 0) by lia. change (Z.to_nat 0) with O. cbn [drop].
  rewrite Z.sub_0_r.
  destruct (Nat.le_gt_cases k (length arr)).
  - rewrite Z.min_l by lia. by rewrite Nat2Z.id.
  - rewrite Z.min_r by lia. rewrite Nat2Z.id.
    rewrite (take_ge arr k) by lia. by apply take_ge.
Qed.

Lemma filter_indexed_elem {A} (p : A → nat → bool) (n : nat) (arr : list A) x :
  x ∈ Client.filter_indexed p n arr
  ↔ ∃ i, arr !! i = Some x ∧ p x (n + i)%nat = true.
Proof.
  revert n. induction arr as [|y arr IH]; intros n.
  - cbn. split; [by intros ?%elem_of_nil|by intros (i & ? & _)].
  - cbn [Client.filter_indexed]. split.
    + destruct (p y n) eqn:Hp.
      * intros [->|Hx]%elem_of_cons.
        -- exists O. split; [done|]. by rewrite Nat.add_0_r.
        -- apply IH in Hx as (i & Hi & Hpi). exists (S i). split; [done|].
           by replace (n + S i)%nat with (S n + i)%nat by lia.
      * intros Hx. apply IH in Hx as (i & Hi & Hpi). exists (S i).
        split; [done|]. by replace (n + S i)%nat with (S n + i)%nat by lia.
    + intros ([|i] & Hi & Hpi).
      * injection Hi as ->. rewrite Nat.add_0_r in Hpi. rewrite Hpi. by left.
      * assert (Hx : x ∈ Client.filter_indexed p (S n) arr).
        { apply IH. exists i. split; [done|].
          by replace (S n + i)%nat with (n + S i)%nat by lia. }
        destruct (p y n); [by right|done].
Qed.

Lemma sort_insert_Permutation {A} (compare : A → A → Z) (x : A) (l : list A) :
  sort_insert compare x l ≡ₚ x :: l.
Proof.
  induction l as [|y l IH]; [done|]. cbn [sort_insert].
  destruct (compare x y <=? 0); [done|]. rewrite IH. apply Permutation_swap.
Qed.

Lemma sort_Permutation {A} (compare : A → A → Z) (l : list A) :
  sort compare l ≡ₚ l.
Proof.
  induction l as [|x l IH]; [done|]. unfold sort. cbn [foldr].
  fold (sort compare l). by rewrite sort_insert_Permutation, IH.
Qed.

Lemma sort_insert_ordered (x : ContributorInfo) (l : list ContributorInfo) :
  ordered l → ordered (sort_insert by_contributions x l).
Proof.
  induction l as [|y l IH]; intros Hl; [done|].
  destruct Hl as [Hy Hl]. cbn [sort_insert]. unfold by_contributions at 1.
  destruct (Z.leb_spec (contributions y - contributions x) 0) as [Hle|Hgt].
  - split; [|done]. constructor; [lia|].
    eapply Forall_impl; [exact Hy|]. cbn. intros; lia.
  - split; [|by apply IH].
    rewrite sort_insert_Permutation. constructor; [lia|done].
Qed.

Lemma sort_ordered (l : list ContributorInfo) : ordered (sort by_contributions l).
Proof.
  induction l as [|x l IH]; [done|]. by apply sort_insert_ordered.
Qed.

Lemma ordered_descending (l : list ContributorInfo) : ordered l → descending l.
Proof.
  induction l as [|x l IH]; intros Hl i j a b Hij Hi Hj; [done|].
  destruct Hl as [Hx Hl]. destruct j as [|j]; [lia|]. cbn in Hj.
  destruct i as [|i]; cbn in Hi.
  - injection Hi as ->. rewrite Forall_forall in Hx. apply Hx.
    by eapply list_elem_of_lookup_2.
  - apply (IH Hl i j); [lia|done|done].
Qed.

Lemma ordered_take (k : nat) (l : list ContributorInfo) :
  ordered l → ordered (take k l).
Proof.
  revert k. induction l as [|x l IH]; intros [|k] Hl; try done.
  destruct Hl as [Hx Hl]. split; [|by apply IH].
  by apply Forall_take.
Qed.

Lemma ordered_take_drop (k : nat) (l : list ContributorInfo) a b :
  ordered l → a ∈ take k l → b ∈ drop k l →
  contributions b ≤ contributions a.
Proof.
  revert k. induction l as [|x l IH]; intros [|k] Hl Ha Hb;
    try by apply elem_of_nil in Ha.
  destruct Hl as [Hx Hl]. cbn in Ha, Hb.
  apply elem_of_cons in Ha as [->|Ha]; [|by apply (IH k)].
  rewrite Forall_forall in Hx. apply Hx.
  apply list_elem_of_lookup in Hb as [i Hi]. rewrite lookup_drop in Hi.
  by eapply list_elem_of_lookup_2.
Qed.

Lemma top_contributors_spec (listed : list Octokit.Contributor) :
  (length (top_contributors listed) ≤ 3)%nat ∧
  descending (top_contributors listed) ∧
  (∀ c, c ∈ top_contributors listed →
        ∃ api, api ∈ listed ∧ has_login_and_avatar api = true ∧ c = info_of api) ∧
  (∀ api, api ∈ listed → has_login_and_avatar api = true →
          info_of api ∈ top_contributors listed ∨
          (length (top_contributors listed) = 3%nat ∧
           ∀ c, c ∈ top_contributors listed →
                Octokit.contributions api ≤ contributions c)).
Proof.
  unfold top_contributors. rewrite (array_slice_take _ 3).
  set (valid := filter (λ c, has_login_and_avatar c = true) listed).
  set (sorted := sort by_contributions (map info_of valid)).
  assert (Hord : ordered sorted) by apply sort_ordered.
  assert (Hperm : sorted ≡ₚ map info_of valid) by apply sort_Permutation.
  split; [rewrite length_take; lia|].
  split; [by apply ordered_descending, ordered_take|].
  split.
  - intros c Hc%subseteq_take. rewrite Hperm in Hc.
    apply list_elem_of_fmap in Hc as (api & -> & Hapi).
    apply list_elem_of_filter in Hapi as [Hv Hin]. by exists api.
  - intros api Hin Hv.
    assert (Hs : info_of api ∈ sorted).
    { rewrite Hperm. apply list_elem_of_fmap. exists api. split; [done|].
      by apply list_elem_of_filter. }
    rewrite <- (take_drop 3 sorted) in Hs.
    apply elem_of_app in Hs as [Hs|Hs]; [by left|]. right. split.
    + rewrite length_take. apply list_elem_of_lookup in Hs as [i Hi].
      apply lookup_lt_Some in Hi. rewrite length_drop in Hi. lia.
    + intros c Hc.
      by apply (ordered_take_drop 3 sorted c (info_of api)).
Qed.

Lemma related_titles_spec (env : Env) (prNumber : option Z)
    (issues : list Octokit.Issue) :
  (length (related_titles env prNumber issues) ≤ 3)%nat ∧
  (∀ t, t ∈ related_titles env prNumber issues →
        t ≠ [] ∧
        ∃ i issue, issues !! i = Some issue ∧ Octokit.title issue = t ∧
                   is_related env prNumber issue i = true) ∧
  (∀ i issue, issues !! i = Some issue →
              is_related env prNumber issue i = true →
              Octokit.title issue ≠ [] →
              Octokit.title issue ∈ related_titles env prNumber issues ∨
              length (related_titles env prNumber issues) = 3%nat).
Proof.
  unfold related_titles. rewrite (array_slice_take _ 3).
  set (titles := filter _ _).
  assert (Ht : ∀ t, t ∈ titles ↔
                    t ≠ [] ∧ ∃ i issue, issues !! i = Some issue ∧
                                        Octokit.title issue = t ∧
                                        is_related env prNumber issue i = true).
  { intros t. unfold titles.
    rewrite list_elem_of_filter, list_elem_of_fmap.
    setoid_rewrite filter_indexed_elem. split.
    - intros (Hne & issue & -> & i & Hi & Hp). split; [done|].
      exists i, issue. split; [done|]. split; [|done].
      unfold or_str. by destruct (Octokit.title issue).
    - intros (Hne & i & issue & Hi & <- & Hp). split; [done|].
      exists issue. split; [|by exists i].
      unfold or_str. by destruct (Octokit.title issue). }
  split; [rewrite length_take; lia|]. split.
  - intros t Hin%subseteq_take. by apply Ht.
  - intros i issue Hi Hp Hne.
    assert (Hin : Octokit.title issue ∈ titles)
      by (apply Ht; split; [done|by exists i, issue]).
    rewrite <- (take_drop 3 titles) in Hin.
    apply elem_of_app in Hin as [Hin|Hin]; [by left|]. right.
    rewrite length_take. apply list_elem_of_lookup in Hin as [j Hj].
    apply lookup_lt_Some in Hj. rewrite length_drop in Hj. lia.
Qed.

Lemma is_related_spec (env : Env) (prNumber : option Z)
    (issue : Octokit.Issue) (i : nat) :
  is_related env prNumber issue i = true ↔
  Some (Octokit.number issue) ≠ prNumber ∧
  ∃ s t, Octokit.closed_at issue = Some s ∧ s ≠ [] ∧
         Date_getTime env s = Some t ∧
         Z.abs (t - now env i) < 604800000.
Proof.
  unfold is_related, closed_within_week.
  rewrite andb_true_iff, bool_decide_eq_true.
  change (7 * 24 * 60 * 60 * 1000) with 604800000.
  split.
  - intros [Hn Hc]. split; [done|].
    destruct (Octokit.closed_at issue) as [s|]; [|done].
    apply andb_true_iff in Hc as [Hs Hd].
    destruct (Date_getTime env s) as [t|] eqn:Ht; [|done].
    apply bool_decide_eq_true in Hd.
    exists s, t. split; [done|]. split; [by destruct s|]. by split.
  - intros [Hn (s & t & -> & Hs & -> & Hlt)]. split; [done|].
    apply andb_true_iff. split; [by destruct s|].
    by apply bool_decide_eq_true.
Qed.

End ToolsFacts.

(** [X22] The contributors [getPRTools] returns are at most three, in
    descending order of contributions, each built from a listed contributor
    that has a login and an avatar; and they are the top ones: a listed
    contributor with login and avatar is either returned or has no more
    contributions than each of the three returned.  If either call to the
    API rejects, the tools are empty. *)
Theorem getPRTools_top_contributors :
  ∀ (env : Tools.Env) (pr : DiffItem),
    let tools := Tools.getPRTools env pr in
    let owner := (Tools.owner_repo (url pr)).1 in
    let repo := (Tools.owner_repo (url pr)).2 in
    (length (Tools.contributors tools) ≤ 3)%nat ∧
    Tools.descending (Tools.contributors tools) ∧
    (∀ c, c ∈ Tools.contributors tools →
          ∃ listed api,
            Tools.listContributors env owner repo = Some listed ∧
            api ∈ listed ∧
            Tools.Octokit.login api = Some (Tools.name c) ∧ Tools.name c ≠ [] ∧
            Tools.Octokit.avatar_url api = Some (Tools.avatar c) ∧
            Tools.avatar c ≠ [] ∧
            Tools.Octokit.contributions api = Tools.contributions c) ∧
    (∀ issues listed api,
       Tools.listForRepo env owner repo = Some issues →
       Tools.listContributors env owner repo = Some listed →
       api ∈ listed →
       Tools.has_login_and_avatar api = true →
       Tools.info_of api ∈ Tools.contributors tools ∨
       (length (Tools.contributors tools) = 3%nat ∧
        ∀ c, c ∈ Tools.contributors tools →
             Tools.Octokit.contributions api ≤ Tools.contributions c)) ∧
    (Tools.listForRepo env owner repo = None ∨
     Tools.listContributors env owner repo = None →
     tools = {| Tools.relatedIssues := []; Tools.contributors := [] |}).
Proof.
  intros env pr tools owner repo. subst tools owner repo.
  unfold Tools.getPRTools.
  destruct (Tools.owner_repo (url pr)) as [owner repo]. cbn [fst snd].
  destruct (Tools.listForRepo env owner repo) as [issues|];
    [destruct (Tools.listContributors env owner repo) as [listed|]|].
  - cbn [Tools.contributors].
    destruct (top_contributors_spec listed) as (Hlen & Hdesc & Hfrom & Htop).
    split; [done|]. split; [done|]. split; [|split].
    + intros c (api & Hin & Hv & ->)%Hfrom. exists listed, api.
      split; [done|]. split; [done|].
      unfold Tools.has_login_and_avatar, Tools.truthy_opt in Hv.
      apply andb_true_iff in Hv as [Hl Ha].
      unfold Tools.info_of.
      destruct (Tools.Octokit.login api) as [[|? ?]|]; try done.
      destruct (Tools.Octokit.avatar_url api) as [[|? ?]|]; try done.
    + intros issues' listed' api [= <-] [= <-]. apply Htop.
    + by intros [|].
  - cbn. split; [lia|]. split; [by intros i j a b _ ?|].
    split; [by intros c ?%elem_of_nil|]. split; [done|done].
  - cbn. split; [lia|]. split; [by intros i j a b _ ?|].
    split; [by intros c ?%elem_of_nil|]. split; [done|done].
Qed.

(** [X23] The related issues [getPRTools] returns are at most three titles,
    none empty, each the title of a listed issue whose number is not the
    number parsed from the identifier of the item, that has a closing date,
    and whose closing date is less than seven days from the clock reading;
    and none is left out while there is room: a listed issue that passes
    these tests and has a title is returned unless three are. *)
Theorem getPRTools_related_issues :
  ∀ (env : Tools.Env) (pr : DiffItem),
    let tools := Tools.getPRTools env pr in
    let owner := (Tools.owner_repo (url pr)).1 in
    let repo := (Tools.owner_repo (url pr)).2 in
    let related issue i :=
      Some (Tools.Octokit.number issue) ≠ Tools.parseInt env (id pr) ∧
      ∃ s t, Tools.Octokit.closed_at issue = Some s ∧ s ≠ [] ∧
             Tools.Date_getTime env s = Some t ∧
             Z.abs (t - Tools.now env i) < 604800000 in
    (length (Tools.relatedIssues tools) ≤ 3)%nat ∧
    (∀ t, t ∈ Tools.relatedIssues tools →
          t ≠ [] ∧
          ∃ issues i issue,
            Tools.listForRepo env owner repo = Some issues ∧
            issues !! i = Some issue ∧
            Tools.Octokit.title issue = t ∧ related issue i) ∧
    (∀ issues listed i issue,
       Tools.listForRepo env owner repo = Some issues →
       Tools.listContributors env owner repo = Some listed →
       issues !! i = Some issue → related issue i →
       Tools.Octokit.title issue ≠ [] →
       Tools.Octokit.title issue ∈ Tools.relatedIssues tools ∨
       length (Tools.relatedIssues tools) = 3%nat).
Proof.
  intros env pr tools owner repo related. subst tools owner repo related.
  unfold Tools.getPRTools.
  destruct (Tools.owner_repo (url pr)) as [owner repo]. cbn [fst snd].
  destruct (Tools.listForRepo env owner repo) as [issues|];
    [destruct (Tools.listContributors env owner repo) as [listed|]|].
  - cbn [Tools.relatedIssues].
    destruct (related_titles_spec env (Tools.parseInt env (id pr)) issues)
      as (Hlen & Hfrom & Hall).
    split; [done|]. split.
    + intros t (Hne & i & issue & Hi & Ht & Hr)%Hfrom. split; [done|].
      exists issues, i, issue. by rewrite <- is_related_spec.
    + intros issues' listed' i issue [= <-] _ Hi Hr Hne.
      apply (Hall i issue); [done| |done]. by apply is_related_spec.
  - cbn. split; [lia|]. split; [by intros t ?%elem_of_nil|done].
  - cbn. split; [lia|]. split; [by intros t ?%elem_of_nil|done].
Qed.

(** [X24] For the address of a pull request, [a/b/.../owner/repo/pull/n]
    with no slash inside the last four parts, [getPRTools] takes [owner] and
    [repo] from it. *)
Theorem owner_repo_of_pull_address :
  ∀ base owner repo kind n : str,
    "/"%char ∉ owner → "/"%char ∉ repo → "/"%char ∉ kind → "/"%char ∉ n →
    Tools.owner_repo
      (base ++ "/"%char :: owner ++ "/"%char :: repo ++ "/"%char :: kind
            ++ "/"%char :: n)
    = (Some owner, Some repo).
Proof.
  intros base owner repo kind n Ho Hr Hk Hn.
  unfold Tools.owner_repo.
  rewrite !split_on_app, (split_on_no_sep _ owner), (split_on_no_sep _ repo),
    (split_on_no_sep _ kind), (split_on_no_sep _ n) by done.
  cbn [app].
  set (parts := split_on "/" base).
  assert (Hs : Tools.array_slice (parts ++ [owner; repo; kind; n]) (-4) (Some (-2))
               = [owner; repo]).
  { unfold Tools.array_slice, rel_index. rewrite length_app. cbn [length].
    change (-4 <? 0) with true. change (-2 <? 0) with true. cbn match.
    rewrite !Z.max_l by lia.
    replace (Z.to_nat (Z.of_nat (length parts + 4) + -4)) with (length parts)
      by lia.
    replace (Z.to_nat (Z.of_nat (length parts + 4) + -2
                       - (Z.of_nat (length parts + 4) + -4))) with 2%nat by lia.
    by rewrite drop_app_length. }
  by rewrite Hs.
Qed.

Lemma owner_repo_of_pull_address_witness :
  Tools.owner_repo (lit "https://github.com/openai/openai-node/pull/1234")
  = (Some (lit "openai"), Some (lit "openai-node")).
Proof.
  apply (owner_repo_of_pull_address (lit "https://github.com")
           (lit "openai") (lit "openai-node") (lit "pull") (lit "1234"));
    by apply (bool_decide_unpack _); vm_compute.
Defined.

(** ** [fetchDiffs]: the list of diffs *)

Lemma filter_none {A} (P : A → Prop) `{!∀ x, Decision (P x)} (l : list A) :
  Forall (λ x, ¬ P x) l → filter P l = [].
Proof.
  induction 1 as [|x l Hx _ IH]; [done|]. by rewrite filter_cons_False.
Qed.

Lemma setDiffs_updater_ids (page : Z) (data prev : list DiffItem) (x : str) :
  page ≠ 1 →
  x ∈ map id (setDiffs_updater page data prev)
  ↔ x ∈ map id prev ∨ x ∈ map id data.
Proof.
  intros Hp. unfold setDiffs_updater. rewrite bool_decide_eq_false_2 by done.
  cbn zeta. rewrite map_app, elem_of_app, !list_elem_of_fmap.
  setoid_rewrite list_elem_of_filter. setoid_rewrite elem_of_list_to_set.
  split.
  - intros [H|(d & -> & _ & Hd)]; [by left|]. right. by exists d.
  - intros [H|(d & -> & Hd)]; [by left|].
    destruct (decide (id d ∈ map id prev)) as [Hin|Hnin].
    + left. by apply list_elem_of_fmap in Hin.
    + right. by exists d.
Qed.

(** [X25] Loading a further page ([page] other than 1) keeps the diffs shown
    as they are and appends, in the order of the response, the diffs of the
    response whose identifier is not shown yet: the identifiers afterwards
    are those shown or received; identifiers stay distinct if they were and
    the response repeats none; and receiving the same response again changes
    nothing. *)
Theorem load_more_appends_unseen :
  ∀ (page : Z) (data prev : list DiffItem),
    page ≠ 1 →
    let next := setDiffs_updater page data prev in
    prev `prefix_of` next ∧
    drop (length prev) next `sublist_of` data ∧
    (∀ x, x ∈ map id next ↔ x ∈ map id prev ∨ x ∈ map id data) ∧
    (NoDup (map id prev) → NoDup (map id data) → NoDup (map id next)) ∧
    setDiffs_updater page data next = next.
Proof.
  intros page data prev Hp next.
  assert (Hids := setDiffs_updater_ids page data prev).
  fold next in Hids.
  assert (Hnext : next = prev ++ filter (λ d, id d ∉ map id prev) data).
  { unfold next, setDiffs_updater. rewrite bool_decide_eq_false_2 by done.
    cbn zeta. f_equal. apply list_filter_iff. intros d.
    by rewrite elem_of_list_to_set. }
  split; [rewrite Hnext; by apply prefix_app_r|].
  split; [rewrite Hnext, drop_app_length; apply sublist_filter|].
  split; [intros x; by apply Hids|].
  split.
  - intros Hprev Hdata. rewrite Hnext, map_app. apply NoDup_app.
    split; [done|]. split.
    + intros x Hx (d & -> & [Hd _]%list_elem_of_filter)%list_elem_of_fmap. done.
    + eapply sublist_NoDup; [exact Hdata|].
      apply fmap_sublist, sublist_filter.
  - unfold setDiffs_updater at 1. rewrite bool_decide_eq_false_2 by done.
    cbn zeta.
    assert (Hnil : filter (λ d, id d ∉ (list_to_set (map id next) : gset str)) data
                   = []).
    { apply filter_none, Forall_forall. intros d Hd Hnot. apply Hnot.
      apply elem_of_list_to_set, Hids; [done|]. right.
      apply list_elem_of_fmap. by exists d. }
    by rewrite Hnil, app_nil_r.
Qed.

Lemma load_more_appends_unseen_witness :
  let next := setDiffs_updater 2 diffs_with_duplicate [sample_item (lit "8")] in
  [sample_item (lit "8")] `prefix_of` next ∧
  drop (length [sample_item (lit "8")]) next `sublist_of` diffs_with_duplicate ∧
  (∀ x, x ∈ map id next
        ↔ x ∈ map id [sample_item (lit "8")] ∨ x ∈ map id diffs_with_duplicate) ∧
  (NoDup (map id [sample_item (lit "8")]) → NoDup (map id diffs_with_duplicate) →
   NoDup (map id next)) ∧
  setDiffs_updater 2 diffs_with_duplicate next = next.
Proof.
  apply (load_more_appends_unseen 2 diffs_with_duplicate [sample_item (lit "8")]).
  lia.
Defined.

(** [X26] What the end of [fetchDiffs] does about notes.  On a further
    page, when every diff of the response already has notes, [generateNotes]
    is not called: the state is left as it is and no message is set; the
    same holds on any page for an empty response.  When the call is made
    (on the first page for a response that is not empty, on a further page
    when some diff lacks notes as the source tests it), it does what
    [generateNotes] does on all the diffs of the response: the selection
    matters only through the guard. *)
Theorem fetchDiffs_calls_generateNotes :
  ∀ (J : JSON) (page : Z) (data : list DiffItem)
    (response : Client.FetchResponse) (state : Client.Page),
    (page ≠ 1 →
     Forall (λ d, is_Some (Client.notesByPR state !! id d)) data →
     generate_for_newPRs J page data response state = state) ∧
    (data = [] → generate_for_newPRs J page data response state = state) ∧
    ((page = 1 ∧ data ≠ []) ∨ (page ≠ 1 ∧ Exists (lacks_notes state) data) →
     generate_for_newPRs J page data response state
     = Client.generateNotes J data response state).
Proof.
  intros J page data response state. unfold generate_for_newPRs, newPRs.
  split; [|split].
  - intros Hp Hall. rewrite bool_decide_eq_false_2 by done.
    rewrite filter_none; [done|].
    eapply Forall_impl; [exact Hall|]. intros d [n Hn]. by rewrite Hn.
  - intros ->. by destruct (bool_decide (page = 1)).
  - intros [[-> Hne]|[Hp Hex]].
    + rewrite bool_decide_eq_true_2 by done. by destruct data.
    + rewrite bool_decide_eq_false_2 by done.
      assert (Hlen : (0 <? length (filter (λ d, Client.notesByPR state !! id d
                                                = None) data))%nat = true).
      { apply Nat.ltb_lt. apply Exists_exists in Hex as (d & Hd & Hnone & _).
        assert (Hin : d ∈ filter (λ d, Client.notesByPR state !! id d = None)
                        data) by (by apply list_elem_of_filter).
        destruct (filter _ data); [by apply elem_of_nil in Hin|cbn; lia]. }
      rewrite Hlen. unfold Client.generateNotes.
      by rewrite list_filter_filter_l.
Qed.

(** ** The earlier page component *)

Section TextsOfStream.
Context {St : Type}.
Variable J : JSON.
Variable on_payload : json → St → Client.Outcome St.
Variable text : St → str → ChannelName → str.

Hypothesis on_content :
  ∀ (y : str) (c' : ChannelName) (a : str) (st : St),
    ∃ st', on_payload (payload_json (SectionFrame y c' (ContentObj a))) st
           = Client.Normal st' ∧
           ∀ (x : str) (c : ChannelName),
             text st' x c
             = if decide (y = x ∧ c' = c)
               then Client.mergeWithOverlap (text st x c) a
               else text st x c.

Hypothesis on_done :
  ∀ (y : str) (c' : ChannelName) (st : St),
    on_payload (payload_json (SectionFrame y c' DoneObj)) st = Client.Normal st.


End TextsOfStream.





(** ** A failing step stops the run *)

Section RouteFailure.
Import Route.
Variable env : Env.

Lemma bind_ok {A B} (m : M A) (k : A → M B) w b w' :
  bind m k env w = (Ok b, w') →
  ∃ a w1, m env w = (Ok a, w1) ∧ k a env w1 = (Ok b, w').
Proof. unfold bind. destruct (m env w) as [[a|e] w1]; [eauto|done]. Qed.

Lemma writer_write_ok f w w' :
  writer_write f env w = (Ok tt, w') →
  resolves env (writes w) = true ∧
  writes w' = S (writes w) ∧ requests w' = requests w.
Proof.
  unfold writer_write, resolves.
  destruct (write_outcome env (writes w)); [done|]. by intros [= <-].
Qed.

Lemma send_ok pr c obj w w' :
  send pr c obj env w = (Ok tt, w') →
  resolves env (writes w) = true ∧
  writes w' = S (writes w) ∧ requests w' = requests w.
Proof.
  unfold send, try_catch.
  destruct (writer_write _ env w) as [[[]|e] w1] eqn:H; [|done].
  intros [= <-]. by apply writer_write_ok in H.
Qed.

Lemma create_ok r s w w' :
  create r env w = (Ok s, w') →
  create_outcome env (requests w) r = inr s ∧
  writes w' = writes w ∧ requests w' = S (requests w).
Proof.
  unfold create. destruct (create_outcome env (requests w) r); [done|].
  by intros [= <- <-].
Qed.

(** A chunk loop that ends normally has seen its stream end by exhaustion
    and each of its writes resolve. *)
Lemma for_await_ok pr c s w w' :
  for_await pr c s env w = (Ok tt, w') →
  completes s = true ∧
  (∀ k, (k < length (forwarded s))%nat → resolves env (writes w + k) = true) ∧
  writes w' = (writes w + length (forwarded s))%nat ∧
  requests w' = requests w.
Proof.
  revert w. induction s as [|e|content next IH]; intros w; cbn [for_await].
  - intros [= <-]. cbn. split; [done|]. split; [intros k ?; lia|]. split; lia.
  - done.
  - intros ([] & w1 & Hstep & Hrest)%bind_ok.
    apply IH in Hrest as (Hc & Hk & Hw' & Hr').
    cbn [completes forwarded].
    destruct content as [x|]; [destruct (truthy_str x)|].
    + apply send_ok in Hstep as (H0 & Hw1 & Hr1).
      split; [done|]. cbn [length]. split; [|split; lia].
      intros [|k] Hlt; [by rewrite Nat.add_0_r|].
      replace (writes w + S k)%nat with (writes w1 + k)%nat by lia.
      apply Hk. lia.
    + injection Hstep as <-. split; [done|]. split; [done|]. split; lia.
    + injection Hstep as <-. split; [done|]. split; [done|]. split; lia.
Qed.

(** An iteration that ends normally: no step failed. *)
Lemma process_pr_ok pr w w' :
  process_pr pr env w = (Ok tt, w') →
  item_succeeds env pr w = true ∧ requests w' = (requests w + 2)%nat.
Proof.
  unfold process_pr.
  intros (devStream & w1 & (Hc1 & Hw1 & Hr1)%create_ok & Htry)%bind_ok.
  unfold try_catch in Htry.
  match type of Htry with
  | context [match ?m env w1 with _ => _ end] =>
      destruct (m env w1) as [[[]|e] w2] eqn:Hin
  end.
  2: { unfold bind, throw in Htry.
       by destruct (sendError _ env w2) as [[[]|?] ?]. }
  injection Htry as <-.
  apply bind_ok in Hin as ([] & wa & (H0 & Hwa & Hra)%send_ok & Hin).
  apply bind_ok in Hin
    as ([] & wb & (Hcd & Hkd & Hwb & Hrb)%for_await_ok & Hin).
  apply bind_ok in Hin as ([] & wc & (H1 & Hwc & Hrc)%send_ok & Hin).
  apply bind_ok in Hin
    as (marketingStream & wd & (Hc2 & Hwd & Hrd)%create_ok & Hin).
  apply bind_ok in Hin as ([] & we & (H2 & Hwe & Hre)%send_ok & Hin).
  apply bind_ok in Hin
    as ([] & wf & (Hcm & Hkm & Hwf & Hrf)%for_await_ok & Hin).
  apply send_ok in Hin as (H3 & Hw2 & Hr2).
  split; [|lia].
  unfold item_succeeds. rewrite Hc1.
  replace (S (requests w)) with (requests wc) by lia. rewrite Hc2, Hcd, Hcm.
  cbn [andb]. apply forallb_forall. intros k [_ Hk]%in_seq.
  set (nd := length (forwarded devStream)) in *.
  set (nm := length (forwarded marketingStream)) in *.
  destruct (decide (k = 0)%nat) as [->|];
    [by rewrite Nat.add_0_r, <- Hw1|].
  destruct (decide (k ≤ nd)%nat);
    [replace (writes w + k)%nat with (writes wa + (k - 1))%nat by lia;
     apply Hkd; lia|].
  destruct (decide (k = nd + 1)%nat) as [->|];
    [by replace (writes w + (nd + 1))%nat with (writes wb) by lia|].
  destruct (decide (k = nd + 2)%nat) as [->|];
    [by replace (writes w + (nd + 2))%nat with (writes wd) by lia|].
  destruct (decide (k ≤ nd + 2 + nm)%nat);
    [replace (writes w + k)%nat with (writes we + (k - nd - 3))%nat by lia;
     apply Hkm; lia|].
  replace (writes w + k)%nat with (writes wf) by lia. done.
Qed.

Lemma for_of_ok prs w w' :
  for_of prs env w = (Ok tt, w') →
  requests w' = (requests w + 2 * length prs)%nat.
Proof.
  revert w. induction prs as [|pr rest IH]; intros w; cbn [for_of length].
  - intros [= <-]. lia.
  - intros ([] & w1 & [_ Hr]%process_pr_ok & Hrest%IH)%bind_ok. lia.
Qed.

Lemma for_of_app l1 l2 w :
  for_of (l1 ++ l2) env w
  = match for_of l1 env w with
    | (Ok _, w1) => for_of l2 env w1
    | (Throw e, w1) => (Throw e, w1)
    end.
Proof.
  revert w. induction l1 as [|pr l1 IH]; intros w; [done|].
  cbn [app for_of]. unfold bind.
  destruct (process_pr pr env w) as [[[]|e] w1]; [apply IH|done].
Qed.

Lemma stream_notes_resolves prs w :
  writes_succeed env → (stream_notes prs env w).1 = Ok tt.
Proof.
  intros Hall.
  unfold stream_notes, try_finally, try_catch, writer_close, sendError,
    writer_write.
  destruct (for_of prs env w) as [[[]|e] w1]; rewrite !Hall; cbn;
    by rewrite ?Hall.
Qed.

End RouteFailure.

(** [C5], amended.  Let the items before [pr] have completed, and let a
    step for [pr] fail: a request is rejected, a stream raises, or a write
    of one of its frames is refused.  Then the loop is left by an exception
    and no request is issued for the items after [pr].  The stream holds
    the complete frames of the items before [pr], a prefix of the frames of
    [pr], then error frames only, at most two: the error frame naming the
    item (written by the inner handler, absent when the developer request
    itself was rejected) followed by the generic error frame of the outer
    handler.  The writer is closed exactly once.  When every write resolves
    the block resolves and the error frames are exactly these two, or the
    generic one alone in the rejected-request case. *)
Theorem abort_error_frames_then_close :
  ∀ (env : Route.Env) (done : list DiffItem) (pr : DiffItem)
    (rest : list DiffItem) (w0 : Route.World),
    Route.for_of done env Route.initial = (Route.Ok tt, w0) →
    item_succeeds env pr w0 = false →
    ∃ e blocks ds ms B E,
      (Route.for_of (done ++ pr :: rest) env Route.initial).1 = Route.Throw e ∧
      Route.complete done blocks ∧
      B `prefix_of` Route.item_block (id pr) ds ms ∧
      Route.written (Route.stream_notes (done ++ pr :: rest) env Route.initial).2
      = blocks ++ B ++ E ∧
      Forall (λ f, is_error_frame f = false) (blocks ++ B) ∧
      Forall (λ f, is_error_frame f = true) E ∧
      (length E ≤ 2)%nat ∧
      Route.closed (Route.stream_notes (done ++ pr :: rest) env Route.initial).2
      = 1%nat ∧
      (Route.requests
         (Route.stream_notes (done ++ pr :: rest) env Route.initial).2
       ≤ 2 * length done + 2)%nat ∧
      (writes_succeed env →
       (Route.stream_notes (done ++ pr :: rest) env Route.initial).1
       = Route.Ok tt ∧
       ((∃ e', E = [ErrorFrame (Route.item_error_message pr e');
                    ErrorFrame Route.internal_error_message]) ∨
        (B = [] ∧ E = [ErrorFrame Route.internal_error_message]))).
Proof.
  intros env done pr rest w0 Hdone Hfail.
  destruct (Route.process_pr pr env w0) as [[[]|e] w1] eqn:Hpr.
  { apply process_pr_ok in Hpr as [Hs _]. congruence. }
  assert (Hloop : Route.for_of (done ++ pr :: rest) env Route.initial
                  = (Route.Throw e, w1)).
  { rewrite for_of_app, Hdone. cbn [Route.for_of]. unfold Route.bind.
    by rewrite Hpr. }
  destruct (emits_for_of env done Route.initial) as (blocks & Hw0 & _ & Hout0).
  rewrite Hdone in Hw0, Hout0. cbn [fst snd Route.written Route.initial app] in *.
  destruct Hout0 as [[_ Hcomp]|[[? ?] _]]; [|done].
  destruct (emits_process_pr env pr w0) as (tr1 & Hw1 & _ & Hout1).
  rewrite Hpr in Hw1, Hout1. cbn [fst snd] in *.
  destruct Hout1 as [[? _]|[_ (ds & ms & B & E1 & -> & Hpre & HE1)]]; [done|].
  pose proof (spends_process_pr pr env w0) as Hreq. rewrite Hpr in Hreq.
  pose proof (for_of_ok env done _ _ Hdone) as Hreq0.
  cbn [snd Route.requests Route.initial] in *.
  destruct (emits_sendError env Route.internal_error_message w1)
    as (E2 & Hw2 & _ & HE2).
  pose proof (spends_writer_write (ErrorFrame Route.internal_error_message)
                env w1) as Hreq2.
  destruct (try_finally_close_world env
              (Route.try_catch (Route.for_of (done ++ pr :: rest))
                 (λ _, Route.sendError Route.internal_error_message))
              Route.initial) as (Hwr & Hcl & _ & Hrq).
  assert (Hcatch : Route.try_catch (Route.for_of (done ++ pr :: rest))
                     (λ _, Route.sendError Route.internal_error_message)
                     env Route.initial
                   = Route.sendError Route.internal_error_message env w1).
  { unfold Route.try_catch. by rewrite Hloop. }
  rewrite Hcatch in Hwr, Hcl, Hrq.
  destruct (emits_sendError env Route.internal_error_message w1)
    as (E2' & _ & Hc2 & _).
  destruct (emits_process_pr env pr w0) as (? & _ & Hc1 & _).
  destruct (emits_for_of env done Route.initial) as (? & _ & Hc0 & _).
  rewrite Hpr in Hc1. rewrite Hdone in Hc0. cbn [snd] in *.
  exists e, blocks, ds, ms, B, (E1 ++ E2).
  split; [by rewrite Hloop|]. split; [done|]. split; [done|].
  split.
  { unfold Route.stream_notes. rewrite Hwr, Hw2, Hw1, Hw0.
    by rewrite <- !app_assoc. }
  split.
  { apply Forall_app. split; [by eapply complete_no_error|].
    eapply Forall_prefix; [exact Hpre|apply item_block_no_error]. }
  split.
  { apply Forall_app. split.
    - destruct HE1 as [[e' ->]|[-> _]]; [by apply Forall_singleton|constructor].
    - destruct HE2 as [[_ ->]|(_ & _ & ->)];
        [by apply Forall_singleton|constructor]. }
  split.
  { rewrite length_app.
    destruct HE1 as [[e' ->]|[-> _]], HE2 as [[_ ->]|(_ & _ & ->)]; cbn; lia. }
  split.
  { unfold Route.stream_notes. rewrite Hcl, Hc2, Hc1, Hc0. done. }
  split.
  { unfold Route.stream_notes. rewrite Hrq.
    unfold Route.sendError. lia. }
  intros Hws. split; [by apply stream_notes_resolves|].
  destruct HE2 as [[_ ->]|(? & _)]; [|done].
  destruct HE1 as [[e' ->]|[-> [->|?]]]; [left; eauto|right; done|done].
Qed.

Lemma abort_error_frames_then_close_witness :
  ∃ e blocks ds ms B E,
    (Route.for_of ([sample_item (lit "1")]
                     ++ sample_item (lit "2") :: [sample_item (lit "3")])
       raising_env Route.initial).1 = Route.Throw e ∧
    Route.complete [sample_item (lit "1")] blocks ∧
    B `prefix_of` Route.item_block (id (sample_item (lit "2"))) ds ms ∧
    Route.written
      (Route.stream_notes
         ([sample_item (lit "1")]
            ++ sample_item (lit "2") :: [sample_item (lit "3")])
         raising_env Route.initial).2
    = blocks ++ B ++ E ∧
    Forall (λ f, is_error_frame f = false) (blocks ++ B) ∧
    Forall (λ f, is_error_frame f = true) E ∧
    (length E ≤ 2)%nat ∧
    Route.closed
      (Route.stream_notes
         ([sample_item (lit "1")]
            ++ sample_item (lit "2") :: [sample_item (lit "3")])
         raising_env Route.initial).2
    = 1%nat ∧
    (Route.requests
       (Route.stream_notes
          ([sample_item (lit "1")]
             ++ sample_item (lit "2") :: [sample_item (lit "3")])
          raising_env Route.initial).2
     ≤ 2 * length [sample_item (lit "1")] + 2)%nat ∧
    (writes_succeed raising_env →
     (Route.stream_notes
        ([sample_item (lit "1")]
           ++ sample_item (lit "2") :: [sample_item (lit "3")])
        raising_env Route.initial).1
     = Route.Ok tt ∧
     ((∃ e', E = [ErrorFrame
                    (Route.item_error_message (sample_item (lit "2")) e');
                  ErrorFrame Route.internal_error_message]) ∨
      (B = [] ∧ E = [ErrorFrame Route.internal_error_message]))).
Proof.
  exact (abort_error_frames_then_close raising_env
           [sample_item (lit "1")] (sample_item (lit "2"))
           [sample_item (lit "3")]
           ((Route.for_of [sample_item (lit "1")] raising_env Route.initial).2)
           eq_refl eq_refl).
Defined.

(** ** Error frames and the decode loop *)

Lemma filter_sections_shorter (frames : list Frame) :
  Exists (λ f, is_error_frame f = true) frames →
  (length (filter (λ f, is_error_frame f = false) frames) < length frames)%nat.
Proof.
  induction 1 as [f frames Hf|f frames _ IH].
  - rewrite filter_cons_False by (by rewrite Hf). cbn [length].
    pose proof (length_filter (λ f, is_error_frame f = false) frames). lia.
  - pose proof (length_filter (λ f, is_error_frame f = false) (f :: frames)).
    destruct (decide (is_error_frame f = false)).
    + rewrite filter_cons_True by done. cbn [length]. lia.
    + rewrite filter_cons_False by done. cbn [length]. lia.
Qed.

(** Draining the text of any stream of the route hands over the payloads of
    its content and completion frames only. *)
Lemma drain_wire_sections {St} (J : JSON)
    (on_payload : json → St → Client.Outcome St)
    (frames : list Frame) (st : St) :
  Forall (λ f, json_text_ok J (payload_json f)) frames →
  (drain_all (JSON_parse J) on_payload (wire J frames) st).2
  = Client.feed on_payload
      (map payload_json (filter (λ f, is_error_frame f = false) frames)) st.
Proof.
  intros Hok. revert st.
  induction Hok as [|f frames Hf _ IH]; intros st; [done|].
  unfold wire. cbn [map concat]. fold (wire J frames).
  destruct f as [y c obj|message].
  - rewrite (drain_record J on_payload (SectionFrame y c obj) _ st eq_refl Hf).
    rewrite filter_cons_True by done. cbn [map Client.feed].
    destruct (on_payload _ st) as [st'|m st']; [apply IH|done].
  - rewrite (drain_error_record J on_payload) by done.
    rewrite filter_cons_False by done. apply IH.
Qed.

(** [C2] The round trip loses every error frame.  For every sequence of
    frames of the route whose payloads the JSON built-ins serialise
    faithfully, encoded as the route encodes them and cut into chunks at
    arbitrary places, the decode loop of the page hands over the payloads of
    the content and completion frames only, in order: the record
    [sendError] writes starts with its [event:] line and fails the [data:]
    test of the loop.  So a sequence that holds an error frame is never
    reproduced. *)
Theorem error_frames_lost_by_decode :
  ∀ (J : JSON) (St : Type) (on_payload : json → St → Client.Outcome St)
    (frames : list Frame) (chunks : list str) (st : St),
    Forall (λ f, json_text_ok J (payload_json f)) frames →
    concat chunks = wire J frames →
    (Client.read_loop (JSON_parse J) on_payload chunks None [] st).2
    = Client.feed on_payload
        (map payload_json (filter (λ f, is_error_frame f = false) frames)) st ∧
    (Client.read_loop (JSON_parse J) record_payload chunks None [] []).2
    = Client.Normal
        (map payload_json (filter (λ f, is_error_frame f = false) frames)) ∧
    (Exists (λ f, is_error_frame f = true) frames →
     (Client.read_loop (JSON_parse J) record_payload chunks None [] []).2
     ≠ Client.Normal (map payload_json frames)).
Proof.
  intros J St on_payload frames chunks st Hok Hwire.
  assert (Hrec : (Client.read_loop (JSON_parse J) record_payload chunks None
                    [] []).2
                 = Client.Normal
                     (map payload_json
                        (filter (λ f, is_error_frame f = false) frames))).
  { rewrite read_loop_concat, Hwire, drain_wire_sections by done.
    apply feed_record_payload. }
  split; [by rewrite read_loop_concat, Hwire, drain_wire_sections|].
  split; [exact Hrec|].
  intros Hex. rewrite Hrec. intros [= Heq].
  apply filter_sections_shorter in Hex.
  apply (f_equal length) in Heq. rewrite !length_map in Heq. lia.
Qed.

Lemma error_frames_lost_by_decode_witness :
  (Client.read_loop JsonRef.parse record_payload
     [take 30 (wire JsonRef.reference stream_with_error);
      drop 30 (wire JsonRef.reference stream_with_error)] None [] []).2
  = Client.Normal
      [payload_json (SectionFrame (lit "1") Developer (ContentObj (lit "abc")));
       payload_json (SectionFrame (lit "1") Developer (ContentObj (lit "def")))].
Proof.
  refine (proj1 (proj2 (error_frames_lost_by_decode JsonRef.reference
                          (list json) record_payload stream_with_error
                          _ [] _ _))).
  - apply Forall_forall. intros f _. apply reference_payload_text_ok.
  - cbn [concat]. by rewrite app_nil_r, take_drop.
Defined.
